(** * Mercury runtime: floating point handling (runtime/mercury_float.h)

    A shallow embedding of the float representation layer of the Mercury
    runtime: the build configuration the header branches on, the word codec
    (unboxed through [union MR_Float_Word], boxed through a heap cell), the
    heap boxing macros, the dword codec over [union MR_Float_Dword], the
    classifier macros and the formatting buffer.

    Floats and words are handled as bit patterns: an [MR_Float] is the
    integer whose object representation is the float's bytes, so that
    "bit-identical" is equality in [Z].  The header moves floats as C values
    (assignments, arguments, results), and a C implementation need not move a
    value by copying its bytes: each such move goes through [float_move]. *)

From Stdlib Require Import ZArith Lia List String Ascii Bool SpecFloat.
From coqutil Require Import Byte Word.LittleEndianList.
From stdpp Require Import base option gmap.

Local Open Scope Z_scope.
Local Open Scope list_scope.

(** ** Build configuration *)

(** The preprocessor symbols that mercury_float.h tests, as they are when the
    header is entered (after mercury_conf.h).  [STDC_VERSION] stands for
    [__STDC_VERSION__]; an undefined symbol evaluates to 0 in [#if]. *)
Record Defines := {
  MR_USE_SINGLE_PREC_FLOAT : bool;
  MR_BOXED_FLOAT_conf : bool;
  MR_CONSERVATIVE_GC : bool;
  MR_GNUC : bool;
  MR_CLANG : bool;
  MR_SOLARIS : bool;
  STDC_VERSION : Z
}.

Inductive c_float_type := c_float | c_double.

(** Lines 16-26: [typedef float MR_Float] or [typedef double MR_Float]. *)
Definition MR_Float (d : Defines) : c_float_type :=
  if MR_USE_SINGLE_PREC_FLOAT d then c_float else c_double.

(** Lines 16-26: in the single precision branch the header executes
    [#undef MR_BOXED_FLOAT]; otherwise the symbol is left as configured. *)
Definition MR_BOXED_FLOAT (d : Defines) : bool :=
  if MR_USE_SINGLE_PREC_FLOAT d then false else MR_BOXED_FLOAT_conf d.

Definition MR_FLT_MIN_PRECISION (d : Defines) : Z :=
  if MR_USE_SINGLE_PREC_FLOAT d then 7 else 15.

Definition MR_FLT_MAX_PRECISION (d : Defines) : Z :=
  MR_FLT_MIN_PRECISION d + 2.

(** The moves of a float value that the header makes.
    - [move_store]: a float value is assigned to an object
      (lines 58, 80, 111, 184);
    - [move_fetch]: an object is read as a float value, to be used or
      returned (lines 51, 129, 137, 153, 179, 186);
    - [move_cast]: GNU C's cast of a float value to a union
      (lines 102, 177);
    - [move_param]: a float is passed by value to a function
      (lines 108, 183). *)
Inductive float_move_kind :=
  | move_store
  | move_fetch
  | move_cast
  | move_param.

(** What the C implementation fixes: the sizes of the types involved, the
    byte order of their object representations, and the bit pattern in which
    a float value of each type arrives when it is moved (the pattern it left
    with, where values are moved by copying them; the pattern with the quiet
    bit set for a signalling NaN moved through an x87 register). *)
Record Abi := {
  sizeof_float : Z;
  sizeof_double : Z;
  sizeof_MR_Word : Z;
  big_endian : bool;
  float_move : float_move_kind -> c_float_type -> Z -> Z
}.

(** Float values moved by copying their bytes. *)
Definition move_exact : float_move_kind -> c_float_type -> Z -> Z :=
  fun _ _ b => b.

Definition sizeof_MR_Float (d : Defines) (a : Abi) : Z :=
  match MR_Float d with
  | c_float => sizeof_float a
  | c_double => sizeof_double a
  end.

(** Lines 29-30. *)
Definition MR_FLOAT_WORDS (d : Defines) (a : Abi) : Z :=
  (sizeof_MR_Float d a + sizeof_MR_Word a - 1) / sizeof_MR_Word a.

Definition ilp32 : Abi :=
  {| sizeof_float := 4; sizeof_double := 8; sizeof_MR_Word := 4;
     big_endian := false; float_move := move_exact |}.

Definition lp64 : Abi :=
  {| sizeof_float := 4; sizeof_double := 8; sizeof_MR_Word := 8;
     big_endian := false; float_move := move_exact |}.

Definition ilp32_be : Abi :=
  {| sizeof_float := 4; sizeof_double := 8; sizeof_MR_Word := 4;
     big_endian := true; float_move := move_exact |}.

(** A value of [n] bytes is a bit pattern below [2 ^ (8 * n)]. *)
Definition fits (n v : Z) : Prop := 0 <= v < 2 ^ (8 * n).

Definition is_MR_Float (d : Defines) (a : Abi) (f : Z) : Prop :=
  fits (sizeof_MR_Float d a) f.

Definition is_MR_Word (a : Abi) (w : Z) : Prop :=
  fits (sizeof_MR_Word a) w.

(** ** Object representations *)

Definition obj_bytes (a : Abi) (n : Z) (v : Z) : list byte :=
  if big_endian a then rev (le_split (Z.to_nat n) v)
  else le_split (Z.to_nat n) v.

Definition obj_value (a : Abi) (bs : list byte) : Z :=
  le_combine (if big_endian a then rev bs else bs).

(** Automatic storage that has not been written: [n] bytes about which the
    program knows nothing, drawn from [junk]. *)
Definition auto_storage (junk : nat -> byte) (n : Z) : list byte :=
  map junk (seq 0 (Z.to_nat n)).

(** Writing a member that sits [off] bytes into an object, and reading [n]
    bytes from that offset. *)
Definition poke (off : Z) (bs : list byte) (u : list byte) : list byte :=
  firstn (Z.to_nat off) u ++ bs ++ skipn (Z.to_nat off + length bs) u.

Definition peek (off n : Z) (u : list byte) : list byte :=
  firstn (Z.to_nat n) (skipn (Z.to_nat off) u).

(** ** Unboxed word codec: [union MR_Float_Word] (lines 163-188) *)

Module MR_Float_Word.
Definition sizeof (d : Defines) (a : Abi) : Z :=
  Z.max (sizeof_MR_Float d a) (sizeof_MR_Word a).

(** The bytes of the members [f] and [w], written and read: both members
    start at offset 0. *)
Definition set_f (d : Defines) (a : Abi) (f : Z) (u : list byte) :=
  poke 0 (obj_bytes a (sizeof_MR_Float d a) f) u.
Definition set_w (a : Abi) (w : Z) (u : list byte) :=
  poke 0 (obj_bytes a (sizeof_MR_Word a) w) u.
Definition get_f (d : Defines) (a : Abi) (u : list byte) : Z :=
  obj_value a (peek 0 (sizeof_MR_Float d a) u).
Definition get_w (a : Abi) (u : list byte) : Z :=
  obj_value a (peek 0 (sizeof_MR_Word a) u).

(** GNU C's cast to a union type: a temporary whose named member holds the
    bytes given and whose other bytes are unspecified. *)
Definition cast_f (junk : nat -> byte) (d : Defines) (a : Abi) (f : Z) :=
  set_f d a f (auto_storage junk (sizeof d a)).
Definition cast_w (junk : nat -> byte) (d : Defines) (a : Abi) (w : Z) :=
  set_w a w (auto_storage junk (sizeof d a)).
End MR_Float_Word.

(** The bit pattern with which a float value reaches the union it is put
    into: through the cast with GNU C and clang (lines 102, 177), otherwise
    passed by value to a function and assigned to the member
    (lines 108-111, 183-184). *)
Definition float_in_union (d : Defines) (a : Abi) (f : Z) : Z :=
  if MR_GNUC d || MR_CLANG d then float_move a move_cast (MR_Float d) f
  else
    float_move a move_store (MR_Float d)
      (float_move a move_param (MR_Float d) f).

(** Lines 176-177 and 183-184. *)
Definition MR_float_to_word_unboxed
    (junk : nat -> byte) (d : Defines) (a : Abi) (f : Z) : Z :=
  if MR_GNUC d || MR_CLANG d then
    MR_Float_Word.get_w a
      (MR_Float_Word.cast_f junk d a (float_move a move_cast (MR_Float d) f))
  else
    let f := float_move a move_param (MR_Float d) f in
    let tmp := auto_storage junk (MR_Float_Word.sizeof d a) in
    let tmp :=
      MR_Float_Word.set_f d a (float_move a move_store (MR_Float d) f) tmp in
    MR_Float_Word.get_w a tmp.

(** Lines 178-179 and 185-186. *)
Definition MR_word_to_float_unboxed
    (junk : nat -> byte) (d : Defines) (a : Abi) (w : Z) : Z :=
  if MR_GNUC d || MR_CLANG d then
    float_move a move_fetch (MR_Float d)
      (MR_Float_Word.get_f d a (MR_Float_Word.cast_w junk d a w))
  else
    let tmp := auto_storage junk (MR_Float_Word.sizeof d a) in
    let tmp := MR_Float_Word.set_w a w tmp in
    float_move a move_fetch (MR_Float d) (MR_Float_Word.get_f d a tmp).

(** ** The heap and the boxed word codec (lines 49-89) *)

(** Allocation sites.  The header names one, [MR_ALLOC_SITE_FLOAT]. *)
Inductive MR_AllocSiteInfoPtr :=
  | MR_ALLOC_SITE_FLOAT
  | MR_ALLOC_SITE_other (id : Z).

(** A request served by the external allocator: where the block starts, how
    many words it has, the site it is attributed to and whether it was asked
    for as atomic (pointer-free) storage. *)
Record AllocRequest := {
  req_start : Z;
  req_words : Z;
  req_site : MR_AllocSiteInfoPtr;
  req_atomic : bool
}.

(** The part of the machine state the header touches: the heap pointer
    [MR_hp], the bytes of memory, and the requests made so far.  [MR_Word] has
    the width of a pointer, so an address and the word holding it are the
    same integer and the casts between them do nothing. *)
Record Heap := {
  MR_hp : Z;
  memory : gmap Z byte;
  requests : list AllocRequest
}.

Fixpoint store_bytes (p : Z) (bs : list byte) (m : gmap Z byte)
    : gmap Z byte :=
  match bs with
  | [] => m
  | b :: bs' => store_bytes (p + 1) bs' (<[p := b]> m)
  end.

(** A read of memory that was never written has no defined result. *)
Fixpoint load_bytes (p : Z) (n : nat) (m : gmap Z byte)
    : option (list byte) :=
  match n with
  | O => Some []
  | S k => b ← m !! p; bs ← load_bytes (p + 1) k m; Some (b :: bs)
  end.

(** The [MR_Float] object at [p], as memory has it: putting a bit pattern
    there and the bit pattern that is there.  Neither is a C operation on a
    float value; those are [assign_MR_Float] and [deref_MR_Float]. *)
Definition store_MR_Float (d : Defines) (a : Abi) (p f : Z) (h : Heap) : Heap :=
  {| MR_hp := MR_hp h;
     memory := store_bytes p (obj_bytes a (sizeof_MR_Float d a) f) (memory h);
     requests := requests h |}.

Definition load_MR_Float (d : Defines) (a : Abi) (p : Z) (h : Heap)
    : option Z :=
  obj_value a <$> load_bytes p (Z.to_nat (sizeof_MR_Float d a)) (memory h).

(** [* (MR_Float * ) p = (f)]: the float value [f] is moved into the
    object. *)
Definition assign_MR_Float (d : Defines) (a : Abi) (p f : Z) (h : Heap)
    : Heap :=
  store_MR_Float d a p (float_move a move_store (MR_Float d) f) h.

(** [* (MR_Float * ) p]: the object is read as a float value. *)
Definition deref_MR_Float (d : Defines) (a : Abi) (p : Z) (h : Heap)
    : option Z :=
  float_move a move_fetch (MR_Float d) <$> load_MR_Float d a p h.

Section Boxing.
(** Where the conservative collector puts a block of the given number of
    words; the header has no say in it. *)
Variable GC_malloc_atomic : Heap -> Z -> Z.

(** Modelled from the spec: [MR_hp_alloc_atomic_msg], which mercury_heap.h
    defines and the sources here only call.  It is the external allocator's
    [allocateAtomic(words, siteId) -> Address]: atomic storage of [count]
    words, after which [MR_hp] points just past the block.  Under precise
    collection the allocator is a bump cursor that advances by the number of
    words asked for; under conservative collection the collector chooses
    the block.  Exhaustion ends the process and has no continuation here. *)
Definition MR_hp_alloc_atomic_msg (d : Defines) (a : Abi)
    (count : Z) (site : MR_AllocSiteInfoPtr) (h : Heap) : Heap :=
  let start :=
    if MR_CONSERVATIVE_GC d then GC_malloc_atomic h count else MR_hp h in
  {| MR_hp := start + count * sizeof_MR_Word a;
     memory := memory h;
     requests := requests h ++
       [{| req_start := start; req_words := count;
           req_site := site; req_atomic := true |}] |}.

(** Lines 61, 70-75 and 161. *)
Definition MR_make_hp_float_aligned (d : Defines) (a : Abi) (h : Heap)
    : Heap :=
  if MR_BOXED_FLOAT d then
    if MR_CONSERVATIVE_GC d then h
    else
      if negb (Z.land (MR_hp h) (sizeof_MR_Float d a - 1) =? 0) then
        MR_hp_alloc_atomic_msg d a 1 MR_ALLOC_SITE_FLOAT h
      else h
  else h.

(** Lines 54-60 and 76-82: the value of the comma expression and the heap
    it leaves. *)
Definition MR_float_to_word_boxed (d : Defines) (a : Abi) (f : Z) (h : Heap)
    : Z * Heap :=
  if MR_CONSERVATIVE_GC d then
    let h := MR_hp_alloc_atomic_msg d a (MR_FLOAT_WORDS d a)
               MR_ALLOC_SITE_FLOAT h in
    let h := assign_MR_Float d a
               (MR_hp h - MR_FLOAT_WORDS d a * sizeof_MR_Word a) f h in
    (MR_hp h - MR_FLOAT_WORDS d a * sizeof_MR_Word a, h)
  else
    let h := MR_make_hp_float_aligned d a h in
    let h := MR_hp_alloc_atomic_msg d a (MR_FLOAT_WORDS d a)
               MR_ALLOC_SITE_FLOAT h in
    let h := assign_MR_Float d a
               (MR_hp h - MR_FLOAT_WORDS d a * sizeof_MR_Word a) f h in
    (MR_hp h - MR_FLOAT_WORDS d a * sizeof_MR_Word a, h).

(** Line 51. *)
Definition MR_word_to_float_boxed (d : Defines) (a : Abi) (w : Z) (h : Heap)
    : option Z :=
  deref_MR_Float d a w h.

(** [MR_float_to_word] and [MR_word_to_float] as the rest of the runtime
    sees them, whichever branch of line 49 is compiled. *)
Definition MR_float_to_word (junk : nat -> byte) (d : Defines) (a : Abi)
    (f : Z) (h : Heap) : Z * Heap :=
  if MR_BOXED_FLOAT d then MR_float_to_word_boxed d a f h
  else (MR_float_to_word_unboxed junk d a f, h).

Definition MR_word_to_float (junk : nat -> byte) (d : Defines) (a : Abi)
    (w : Z) (h : Heap) : option Z :=
  if MR_BOXED_FLOAT d then MR_word_to_float_boxed d a w h
  else Some (MR_word_to_float_unboxed junk d a w).

(** Lines 85-89 and 168.  With GNU C the macro declares
    [static const MR_Float d = f] and yields [&d]: [cell] is the address
    the linker gave that object, whose bytes are part of the program image
    (see [static_image]).  Elsewhere it is [MR_float_to_word]. *)
Definition MR_float_const (junk : nat -> byte) (d : Defines) (a : Abi)
    (cell : Z) (f : Z) (h : Heap) : Z * Heap :=
  if MR_BOXED_FLOAT d then
    if MR_GNUC d then (cell, h)
    else MR_float_to_word junk d a f h
  else MR_float_to_word junk d a f h.
End Boxing.

(** Memory as the loader leaves it for a program whose [MR_float_const] sites
    are [cells]: each [static const MR_Float d = f] is in place before any
    code runs, with the bit pattern of its initialiser. *)
Definition static_image (d : Defines) (a : Abi) (cells : list (Z * Z))
    : gmap Z byte :=
  fold_right
    (fun c m => store_bytes (fst c) (obj_bytes a (sizeof_MR_Float d a) (snd c)) m)
    ∅ cells.

(** ** Dword codec: [union MR_Float_Dword] (lines 91-155)

    The whole of this part of the header sits inside [#ifdef MR_BOXED_FLOAT]:
    without boxing, none of its macros or functions is declared, which the
    embedding renders as [None]. *)

(** A conversion to [MR_Word] keeps the low bits. *)
Definition cast_MR_Word (a : Abi) (v : Z) : Z :=
  v mod 2 ^ (8 * sizeof_MR_Word a).

Module MR_Float_Dword.
Definition sizeof (d : Defines) (a : Abi) : Z :=
  Z.max (sizeof_MR_Float d a) (2 * sizeof_MR_Word a).

(** The bytes of the members, written and read: [f] is at offset 0,
    [w[i]] at [i * sizeof(MR_Word)]. *)
Definition set_f (d : Defines) (a : Abi) (f : Z) (u : list byte) :=
  poke 0 (obj_bytes a (sizeof_MR_Float d a) f) u.
Definition get_f (d : Defines) (a : Abi) (u : list byte) : Z :=
  obj_value a (peek 0 (sizeof_MR_Float d a) u).
Definition set_w (a : Abi) (i : Z) (w : Z) (u : list byte) :=
  poke (i * sizeof_MR_Word a) (obj_bytes a (sizeof_MR_Word a) w) u.
Definition get_w (a : Abi) (i : Z) (u : list byte) : Z :=
  obj_value a (peek (i * sizeof_MR_Word a) (sizeof_MR_Word a) u).

Definition cast_f (junk : nat -> byte) (d : Defines) (a : Abi) (f : Z) :=
  set_f d a f (auto_storage junk (sizeof d a)).
End MR_Float_Dword.

(** Lines 100-114.  An index outside [w[2]] has no defined result. *)
Definition MR_float_word_bits
    (junk : nat -> byte) (d : Defines) (a : Abi) (f : Z) (n : Z) : option Z :=
  if MR_BOXED_FLOAT d then
    if (0 <=? n) && (n <? 2) then
      if MR_GNUC d || MR_CLANG d then
        Some (MR_Float_Dword.get_w a n
                (MR_Float_Dword.cast_f junk d a
                   (float_move a move_cast (MR_Float d) f)))
      else
        let f := float_move a move_param (MR_Float d) f in
        let __ffdw := auto_storage junk (MR_Float_Dword.sizeof d a) in
        let __ffdw :=
          MR_Float_Dword.set_f d a
            (float_move a move_store (MR_Float d) f) __ffdw in
        Some (MR_Float_Dword.get_w a n __ffdw)
    else None
  else None.

(** Lines 144-154. *)
Definition MR_float_from_dword_func
    (junk : nat -> byte) (d : Defines) (a : Abi) (w0 w1 : Z) : Z :=
  let __ffdw := auto_storage junk (MR_Float_Dword.sizeof d a) in
  let __ffdw := MR_Float_Dword.set_w a 0 (cast_MR_Word a w0) __ffdw in
  let __ffdw := MR_Float_Dword.set_w a 1 (cast_MR_Word a w1) __ffdw in
  float_move a move_fetch (MR_Float d) (MR_Float_Dword.get_f d a __ffdw).

(** Lines 131-142. *)
Definition MR_float_from_dword
    (junk : nat -> byte) (d : Defines) (a : Abi) (w0 w1 : Z) : option Z :=
  if MR_BOXED_FLOAT d then
    if MR_GNUC d || MR_CLANG d then
      let __ffdw := auto_storage junk (MR_Float_Dword.sizeof d a) in
      let __ffdw := MR_Float_Dword.set_w a 0 (cast_MR_Word a w0) __ffdw in
      let __ffdw := MR_Float_Dword.set_w a 1 (cast_MR_Word a w1) __ffdw in
      Some (float_move a move_fetch (MR_Float d)
              (MR_Float_Dword.get_f d a __ffdw))
    else
      Some (MR_float_from_dword_func junk d a
              (cast_MR_Word a w0) (cast_MR_Word a w1))
  else None.

(** Lines 128-129: [((union MR_Float_Dword * ) ptr)->f]. *)
Definition MR_float_from_dword_ptr (d : Defines) (a : Abi) (ptr : Z) (h : Heap)
    : option Z :=
  if MR_BOXED_FLOAT d then deref_MR_Float d a ptr h else None.

(** Modelled from the spec: [splitToDwords], "reinterprets the
    double-precision bit pattern as two Words via union-style aliasing".  The
    header has no operation that returns both halves at once; they are the
    members [w[0]] and [w[1]] of one [union MR_Float_Dword] into which [f]
    has been put the way [MR_float_word_bits] puts it. *)
Definition splitToDwords
    (junk : nat -> byte) (d : Defines) (a : Abi) (f : Z) : option (Z * Z) :=
  if MR_BOXED_FLOAT d then
    let u := MR_Float_Dword.cast_f junk d a (float_in_union d a f) in
    Some (MR_Float_Dword.get_w a 0 u, MR_Float_Dword.get_w a 1 u)
  else None.

(** The dword round trip at one float: both halves exist, [MR_float_word_bits]
    yields them, and [MR_float_from_dword] gives the float back.  Each
    operation works on a union of its own, so each has its own unwritten
    bytes. *)
Definition dword_roundtrip_at
    (j j0 j1 j' : nat -> byte) (d : Defines) (a : Abi) (f : Z) : Prop :=
  exists w0 w1,
    splitToDwords j d a f = Some (w0, w1) /\
    MR_float_word_bits j0 d a f 0 = Some w0 /\
    MR_float_word_bits j1 d a f 1 = Some w1 /\
    MR_float_from_dword j' d a w0 w1 = Some f.

(** ** Sample builds and states *)

Definition boxed_precise_gcc : Defines :=
  {| MR_USE_SINGLE_PREC_FLOAT := false; MR_BOXED_FLOAT_conf := true;
     MR_CONSERVATIVE_GC := false; MR_GNUC := true; MR_CLANG := false;
     MR_SOLARIS := false; STDC_VERSION := 199901 |}.

Definition boxed_precise_clang : Defines :=
  {| MR_USE_SINGLE_PREC_FLOAT := false; MR_BOXED_FLOAT_conf := true;
     MR_CONSERVATIVE_GC := false; MR_GNUC := false; MR_CLANG := true;
     MR_SOLARIS := false; STDC_VERSION := 199901 |}.

(** A compiler that is neither GNU C nor clang. *)
Definition boxed_precise_cc : Defines :=
  {| MR_USE_SINGLE_PREC_FLOAT := false; MR_BOXED_FLOAT_conf := true;
     MR_CONSERVATIVE_GC := false; MR_GNUC := false; MR_CLANG := false;
     MR_SOLARIS := false; STDC_VERSION := 199409 |}.

Definition boxed_conservative_gcc : Defines :=
  {| MR_USE_SINGLE_PREC_FLOAT := false; MR_BOXED_FLOAT_conf := true;
     MR_CONSERVATIVE_GC := true; MR_GNUC := true; MR_CLANG := false;
     MR_SOLARIS := false; STDC_VERSION := 199901 |}.

Definition unboxed_double_gcc : Defines :=
  {| MR_USE_SINGLE_PREC_FLOAT := false; MR_BOXED_FLOAT_conf := false;
     MR_CONSERVATIVE_GC := true; MR_GNUC := true; MR_CLANG := false;
     MR_SOLARIS := false; STDC_VERSION := 199901 |}.

(** Single precision asked for together with boxing, and a compiler that is
    neither GNU C nor clang and predates C99. *)
Definition single_boxed_conf_c89 : Defines :=
  {| MR_USE_SINGLE_PREC_FLOAT := true; MR_BOXED_FLOAT_conf := true;
     MR_CONSERVATIVE_GC := true; MR_GNUC := false; MR_CLANG := false;
     MR_SOLARIS := false; STDC_VERSION := 0 |}.

(** A 32-bit target whose [double] is the 12-byte x87 extended format, and
    one whose [double] takes 16 bytes. *)
Definition ilp32_double12 : Abi :=
  {| sizeof_float := 4; sizeof_double := 12; sizeof_MR_Word := 4;
     big_endian := false; float_move := move_exact |}.

Definition ilp32_double16 : Abi :=
  {| sizeof_float := 4; sizeof_double := 16; sizeof_MR_Word := 4;
     big_endian := false; float_move := move_exact |}.

Definition heap_at (p : Z) : Heap :=
  {| MR_hp := p; memory := ∅; requests := [] |}.

Definition junk_a5 : nat -> byte := fun _ => Byte.xa5.
Definition junk_count : nat -> byte := fun i => byte.of_Z (Z.of_nat i).

(** A collector that hands out the block at the current cursor, and one that
    always answers the same word-aligned address. *)
Definition GC_at_cursor : Heap -> Z -> Z := fun h _ => MR_hp h.
Definition GC_fixed (p : Z) : Heap -> Z -> Z := fun _ _ => p.

(** The bit patterns of the doubles 2.5 and 3.14159. *)
Definition bits_2_5 : Z := 0x4004000000000000.
Definition bits_3_14159 : Z := 0x400921F9F01B866E.

Definition is_pow2 (n : Z) : Prop := exists k, 0 <= k /\ n = 2 ^ k.

(** The two requests [MR_float_to_word] can make. *)
Definition cell_request (d : Defines) (a : Abi) (p : Z) : AllocRequest :=
  {| req_start := p; req_words := MR_FLOAT_WORDS d a;
     req_site := MR_ALLOC_SITE_FLOAT; req_atomic := true |}.

Definition pad_request (p : Z) : AllocRequest :=
  {| req_start := p; req_words := 1;
     req_site := MR_ALLOC_SITE_FLOAT; req_atomic := true |}.

(** What it would mean for boxing to force alignment by padding, at one
    state: if the cursor is off a float boundary, a one-word pad is requested
    before the cell, and the cell then starts on a float boundary. *)
Definition pads_when_misaligned
    (GC : Heap -> Z -> Z) (d : Defines) (a : Abi) (f : Z) (h : Heap) : Prop :=
  Z.land (MR_hp h) (sizeof_MR_Float d a - 1) <> 0 ->
  let r := MR_float_to_word_boxed GC d a f h in
  (exists p, requests (snd r)
             = requests h ++ [pad_request p; cell_request d a (fst r)]) /\
  fst r mod sizeof_MR_Float d a = 0.

(** What it would mean for [MR_float_const] to reuse one cell: a second
    evaluation of the same literal yields the same address and asks the
    allocator for nothing. *)
Definition const_reuses_cell
    (GC : Heap -> Z -> Z) (j : nat -> byte) (d : Defines) (a : Abi)
    (cell f : Z) (h : Heap) : Prop :=
  let r1 := MR_float_const GC j d a cell f h in
  let r2 := MR_float_const GC j d a cell f (snd r1) in
  fst r2 = fst r1 /\ requests (snd r2) = requests (snd r1).

(** ** IEEE 754 binary formats *)

(** [float] is binary32 and [double] is binary64: the widths of the exponent
    and of the stored significand. *)
Record Format := { ebits : Z; mbits : Z }.

Definition binary32 : Format := {| ebits := 8; mbits := 23 |}.
Definition binary64 : Format := {| ebits := 11; mbits := 52 |}.

Definition format_of (t : c_float_type) : Format :=
  match t with c_float => binary32 | c_double => binary64 end.

Definition sign_field (fmt : Format) (b : Z) : bool :=
  Z.testbit b (ebits fmt + mbits fmt).
Definition exp_field (fmt : Format) (b : Z) : Z :=
  Z.land (Z.shiftr b (mbits fmt)) (Z.ones (ebits fmt)).
Definition man_field (fmt : Format) (b : Z) : Z :=
  Z.land b (Z.ones (mbits fmt)).

Definition bias (fmt : Format) : Z := 2 ^ (ebits fmt - 1) - 1.
Definition prec (fmt : Format) : Z := mbits fmt + 1.
Definition emax (fmt : Format) : Z := 2 ^ (ebits fmt - 1).

(** The number a bit pattern stands for. *)
Definition decode (fmt : Format) (b : Z) : spec_float :=
  let s := sign_field fmt b in
  let e := exp_field fmt b in
  let m := man_field fmt b in
  if e =? Z.ones (ebits fmt) then
    if m =? 0 then S754_infinity s else S754_nan
  else if e =? 0 then
    match m with
    | Zpos p => S754_finite s p (1 - bias fmt - mbits fmt)
    | _ => S754_zero s
    end
  else S754_finite s (Z.to_pos (m + 2 ^ mbits fmt)) (e - bias fmt - mbits fmt).

(** The bit pattern of a number of the format; for NaN, the quiet NaN with
    no other payload bit. *)
Definition encode (fmt : Format) (x : spec_float) : Z :=
  let sgn (s : bool) := if s then 2 ^ (ebits fmt + mbits fmt) else 0 in
  match x with
  | S754_zero s => sgn s
  | S754_infinity s => sgn s + Z.ones (ebits fmt) * 2 ^ mbits fmt
  | S754_nan => Z.ones (ebits fmt) * 2 ^ mbits fmt + 2 ^ (mbits fmt - 1)
  | S754_finite s m e =>
      if Zpos m <? 2 ^ mbits fmt then sgn s + Zpos m
      else sgn s + (e + bias fmt + mbits fmt) * 2 ^ mbits fmt
           + (Zpos m - 2 ^ mbits fmt)
  end.

Definition SF_one (fmt : Format) : spec_float :=
  S754_finite false (Z.to_pos (2 ^ mbits fmt)) (- mbits fmt).

(** The largest finite number of the format. *)
Definition SF_max (fmt : Format) : spec_float :=
  S754_finite false (Z.to_pos (2 ^ prec fmt - 1)) (emax fmt - prec fmt).

(** [1.0 / 0.0] and [0.0 / 0.0], computed by IEEE division. *)
Definition one_over_zero (fmt : Format) : spec_float :=
  SFdiv (prec fmt) (emax fmt) (SF_one fmt) (S754_zero false).
Definition zero_over_zero (fmt : Format) : spec_float :=
  SFdiv (prec fmt) (emax fmt) (S754_zero false) (S754_zero false).

(** The IEEE 754 classes. *)
Definition ieee_is_nan (x : spec_float) : bool :=
  match x with S754_nan => true | _ => false end.
Definition ieee_is_infinite (x : spec_float) : bool :=
  match x with S754_infinity _ => true | _ => false end.
Definition ieee_is_finite (x : spec_float) : bool :=
  match x with S754_zero _ | S754_finite _ _ _ => true | _ => false end.

(** [==] and [<] on floats. *)
Definition c_float_eq (fmt : Format) (x y : Z) : bool :=
  SFeqb (decode fmt x) (decode fmt y).
Definition c_float_lt (fmt : Format) (x y : Z) : bool :=
  SFltb (decode fmt x) (decode fmt y).

(** ** Float values on the move

    A signalling NaN has the exponent field all ones, a mantissa other than
    zero and the mantissa's top bit (the quiet bit) clear.  Loading one into
    an x87 register raises the invalid exception and, where that is masked,
    leaves the quiet NaN with the same sign and payload. *)

Definition is_signalling_nan (fmt : Format) (b : Z) : bool :=
  (exp_field fmt b =? Z.ones (ebits fmt))
  && negb (man_field fmt b =? 0)
  && negb (Z.testbit b (mbits fmt - 1)).

Definition quiet_nan (fmt : Format) (b : Z) : Z :=
  if is_signalling_nan fmt b then Z.setbit b (mbits fmt - 1) else b.

(** What a move may do to a float of type [t]: the bits arrive as they
    left, or with a signalling NaN quieted. *)
Definition float_copy (t : c_float_type) (f r : Z) : Prop :=
  r = f \/ r = quiet_nan (format_of t) f.

Definition float_bytes (t : c_float_type) : Z :=
  match t with c_float => 4 | c_double => 8 end.

(** A C implementation whose [MR_Float] is the IEEE format of its size and
    whose moves of it do no more than quiet a signalling NaN. *)
Definition ieee_abi (d : Defines) (a : Abi) : Prop :=
  sizeof_MR_Float d a = float_bytes (MR_Float d) /\
  forall k b, float_copy (MR_Float d) b (float_move a k (MR_Float d) b).

(** A C implementation whose moves of float values all copy them. *)
Definition moves_exact (d : Defines) (a : Abi) : Prop :=
  forall k b, float_move a k (MR_Float d) b = b.

(** i386 with x87 arithmetic: a float value assigned, fetched or passed
    goes through a register of the x87 stack ([fld], [fstp]); GNU C's cast
    to a union initialises the member in place. *)
Definition x87_float_move (k : float_move_kind) (t : c_float_type) (b : Z)
    : Z :=
  match k with
  | move_cast => b
  | _ => quiet_nan (format_of t) b
  end.

Definition i386_x87 : Abi :=
  {| sizeof_float := 4; sizeof_double := 8; sizeof_MR_Word := 4;
     big_endian := false; float_move := x87_float_move |}.

(** The smallest positive signalling NaN of each format, and what it
    quiets to. *)
Definition snan_double : Z := 0x7ff0000000000001.
Definition qnan_double : Z := 0x7ff8000000000001.
Definition snan_float : Z := 0x7f800001.
Definition qnan_float : Z := 0x7fc00001.

(** ** Classifier (lines 213-251) *)

(** C truth values and the operators the macros use on them. *)
Definition c_bool (b : bool) : Z := if b then 1 else 0.
Definition c_true (x : Z) : bool := negb (x =? 0).
Definition c_not (x : Z) : Z := if x =? 0 then 1 else 0.
Definition c_and (x y : Z) : Z :=
  if x =? 0 then 0 else if y =? 0 then 0 else 1.
Definition c_or (x y : Z) : Z :=
  if x =? 0 then (if y =? 0 then 0 else 1) else 1.

(** The classification primitives of the C library.  [isnan], [isinf] and
    [isfinite] are generic in the type of their argument. *)
Record Libm := {
  isnan : c_float_type -> Z -> Z;
  isnanf : Z -> Z;
  isinf : c_float_type -> Z -> Z;
  isinff : Z -> Z;
  isfinite : c_float_type -> Z -> Z
}.

(** A C library that follows IEEE 754. *)
Definition ieee_libm : Libm :=
  {| isnan t f := c_bool (ieee_is_nan (decode (format_of t) f));
     isnanf f := c_bool (ieee_is_nan (decode binary32 f));
     isinf t f := c_bool (ieee_is_infinite (decode (format_of t) f));
     isinff f := c_bool (ieee_is_infinite (decode binary32 f));
     isfinite t f := c_bool (ieee_is_finite (decode (format_of t) f)) |}.

(** Modelled from the spec: [MR_is_nan_func], declared on line 250 and
    defined in mercury_float.c, which is not among the sources.  The portable
    fallback is "bit-pattern-based": "exponent-all-ones-with-nonzero-mantissa
    for NaN". *)
Definition MR_is_nan_func (d : Defines) (f : Z) : Z :=
  let fmt := format_of (MR_Float d) in
  c_bool ((exp_field fmt f =? Z.ones (ebits fmt))
          && negb (man_field fmt f =? 0)).

(** Modelled from the spec: [MR_is_infinite_func], declared on line 251 and
    defined in mercury_float.c, which is not among the sources:
    "exponent-all-ones-with-zero-mantissa for infinity". *)
Definition MR_is_infinite_func (d : Defines) (f : Z) : Z :=
  let fmt := format_of (MR_Float d) in
  c_bool ((exp_field fmt f =? Z.ones (ebits fmt))
          && (man_field fmt f =? 0)).

(** Lines 217-225. *)
Definition MR_is_nan (L : Libm) (d : Defines) (f : Z) : Z :=
  if 199901 <=? STDC_VERSION d then
    if MR_USE_SINGLE_PREC_FLOAT d then isnanf L f
    else isnan L (MR_Float d) f
  else MR_is_nan_func d f.

(** Lines 231-239. *)
Definition MR_is_infinite (L : Libm) (d : Defines) (f : Z) : Z :=
  if (199901 <=? STDC_VERSION d) && negb (MR_SOLARIS d) then
    if MR_USE_SINGLE_PREC_FLOAT d then isinff L f
    else isinf L (MR_Float d) f
  else MR_is_infinite_func d f.

(** Lines 244-248. *)
Definition MR_is_finite (L : Libm) (d : Defines) (f : Z) : Z :=
  if (199901 <=? STDC_VERSION d) && negb (MR_SOLARIS d) then
    isfinite L (MR_Float d) f
  else c_and (c_not (MR_is_infinite L d f)) (c_not (MR_is_nan L d f)).

(** The three answers for one float. *)
Definition classes (L : Libm) (d : Defines) (f : Z) : bool * bool * bool :=
  (c_true (MR_is_nan L d f), c_true (MR_is_infinite L d f),
   c_true (MR_is_finite L d f)).

(** ** Formatting (lines 192-209) *)

Definition MR_SPRINTF_FLOAT_BUF_SIZE : Z := 80.

(** *** The C library's [sprintf] with the format [%#.*g]

    Lines 195-198 name the format [MR_sprintf_float] prints with.  Its
    meaning is the C standard's: the number is rounded to [P] significant
    digits; with decimal exponent [X], style [f] is used if [P > X >= -4] and
    style [e] otherwise; under [#] trailing zeros stay and a decimal point is
    always printed. *)

Definition digit_char (n : Z) : ascii :=
  ascii_of_nat (48 + Z.to_nat (n mod 10)).

(** The last [n] decimal digits of [r], most significant first. *)
Fixpoint digits_fixed (n : nat) (r : Z) : list ascii :=
  match n with
  | O => []
  | S k => digits_fixed k (r / 10) ++ [digit_char r]
  end.

Fixpoint ilog10_fuel (fuel : nat) (n : Z) : Z :=
  match fuel with
  | O => 0
  | S k => if n <? 10 then 0 else 1 + ilog10_fuel k (n / 10)
  end.

(** The integer part of the decimal logarithm of [n >= 1]; a number has no
    more decimal digits than binary ones, so [Z.log2 n] steps are enough. *)
Definition ilog10 (n : Z) : Z := ilog10_fuel (Z.to_nat (Z.log2 n)) n.

Definition round_half_even (n dn : Z) : Z :=
  let q := n / dn in
  let r := n mod dn in
  match 2 * r ?= dn with
  | Lt => q
  | Gt => q + 1
  | Eq => if Z.even q then q else q + 1
  end.

(** The fraction [num / den] times [10 ^ k]. *)
Definition scale10 (k num den : Z) : Z * Z :=
  if 0 <=? k then (num * 10 ^ k, den) else (num, den * 10 ^ (- k)).

(** The [X] with [10 ^ X <= num / den < 10 ^ (X + 1)], for a positive
    fraction. *)
Definition decimal_exponent (num den : Z) : Z :=
  let k := ilog10 num - ilog10 den in
  let '(n, dn) := scale10 (- k) num den in
  if dn <=? n then k else k - 1.

(** [num / den] to [P] significant digits: the digits as an integer and the
    decimal exponent of the first of them. *)
Definition to_decimal (P num den : Z) : Z * Z :=
  let X := decimal_exponent num den in
  let '(n, dn) := scale10 (P - 1 - X) num den in
  let r := round_half_even n dn in
  if 10 ^ P <=? r then (r / 10, X + 1) else (r, X).

Definition sign_chars (s : bool) : list ascii :=
  if s then ["-"%char] else [].

(** An exponent is printed with at least two digits. *)
Definition exponent_digits (x : Z) : list ascii :=
  digits_fixed (Nat.max 2 (S (Z.to_nat (ilog10 x)))) x.

Definition style_e (s : bool) (P r X : Z) : list ascii :=
  let ds := digits_fixed (Z.to_nat P) r in
  sign_chars s ++ firstn 1 ds ++ ["."%char] ++ skipn 1 ds
  ++ ["e"%char] ++ [if X <? 0 then "-"%char else "+"%char]
  ++ exponent_digits (Z.abs X).

Definition style_f (s : bool) (P r X : Z) : list ascii :=
  let ds := digits_fixed (Z.to_nat P) r in
  if X <? 0 then
    sign_chars s ++ ["0"%char; "."%char]
    ++ repeat "0"%char (Z.to_nat (- X - 1)) ++ ds
  else
    sign_chars s ++ firstn (Z.to_nat (X + 1)) ds ++ ["."%char]
    ++ skipn (Z.to_nat (X + 1)) ds.

Definition sprintf_g (fmt : Format) (precision : Z) (f : Z) : string :=
  let P :=
    if precision <? 0 then 6 else if precision =? 0 then 1 else precision in
  string_of_list_ascii
    match decode fmt f with
    | S754_nan =>
        sign_chars (sign_field fmt f) ++ list_ascii_of_string "nan"
    | S754_infinity s => sign_chars s ++ list_ascii_of_string "inf"
    | S754_zero s => style_f s P 0 0
    | S754_finite s m e =>
        let '(r, X) :=
          to_decimal P (Zpos m * 2 ^ Z.max e 0) (2 ^ Z.max (- e) 0) in
        if (X <? -4) || (P <=? X) then style_e s P r X else style_f s P r X
    end.

(** *** [MR_sprintf_float] and [MR_float_to_string] *)

(** Printing at the precisions [ps] in turn until the text reads back as the
    float printed, and at precision [last] if none does.  [sscanf] is the C
    library's, with the format [MR_FLT_FMT]. *)
Fixpoint sprintf_until_round_trip
    (sscanf : c_float_type -> string -> Z) (d : Defines)
    (ps : list Z) (last : Z) (f : Z) : string :=
  match ps with
  | [] => sprintf_g (format_of (MR_Float d)) last f
  | p :: ps' =>
      let buf := sprintf_g (format_of (MR_Float d)) p f in
      if c_float_eq (format_of (MR_Float d)) (sscanf (MR_Float d) buf) f
      then buf
      else sprintf_until_round_trip sscanf d ps' last f
  end.

(** The precisions from [MR_FLT_MIN_PRECISION] up to, not including,
    [MR_FLT_MAX_PRECISION]. *)
Definition precisions_below_max (d : Defines) : list Z :=
  map (fun k => MR_FLT_MIN_PRECISION d + Z.of_nat k)
      (seq 0 (Z.to_nat (MR_FLT_MAX_PRECISION d - MR_FLT_MIN_PRECISION d))).

(** Modelled from the spec: [MR_sprintf_float], declared on line 209 and
    defined in mercury_float.c, which is not among the sources.  It is the
    spec's [formatFloat]: NaN and infinity "format to unambiguous literal
    tokens rather than numeric digit sequences"; any other float gets "a
    decimal representation using at least [MinDecimalDigits] significant
    digits", as many as it takes for "parsing the string back" to reproduce
    the value, "while never exceeding [MaxDecimalDigits]". *)
Definition MR_sprintf_float
    (L : Libm) (sscanf : c_float_type -> string -> Z)
    (d : Defines) (f : Z) : string :=
  if c_true (MR_is_nan L d f) then "nan"%string
  else if c_true (MR_is_infinite L d f) then
    if c_float_lt (format_of (MR_Float d)) f 0
    then "-infinity"%string else "infinity"%string
  else
    sprintf_until_round_trip sscanf d
      (precisions_below_max d) (MR_FLT_MAX_PRECISION d) f.

(** A string written into a buffer of [size] chars needs room for its
    terminating NUL as well; writing past the end has no defined result. *)
Definition write_buf (size : Z) (s : string) : option string :=
  if Z.of_nat (String.length s) + 1 <=? size then Some s else None.

(** Lines 202-207: [MR_sprintf_float] prints into
    [char buf[MR_SPRINTF_FLOAT_BUF_SIZE]], of which a copy is made. *)
Definition MR_float_to_string
    (L : Libm) (sscanf : c_float_type -> string -> Z)
    (d : Defines) (f : Z) : option string :=
  write_buf MR_SPRINTF_FLOAT_BUF_SIZE (MR_sprintf_float L sscanf d f).

(** A reader that never gives the float back, and one that always does: the
    first makes [MR_sprintf_float] go up to the largest precision, the second
    makes it stop at the smallest. *)
Definition sscanf_never : c_float_type -> string -> Z :=
  fun _ _ => 0x7ff8000000000000.
Definition sscanf_always (f : Z) : c_float_type -> string -> Z :=
  fun _ _ => f.

(** ** Words in memory and the debug check of dword pointers
    (lines 116-126) *)

(** [* (MR_Word * ) p = w] and [* (MR_Word * ) p]. *)
Definition store_MR_Word (a : Abi) (p w : Z) (h : Heap) : Heap :=
  {| MR_hp := MR_hp h;
     memory := store_bytes p (obj_bytes a (sizeof_MR_Word a) w) (memory h);
     requests := requests h |}.

Definition load_MR_Word (a : Abi) (p : Z) (h : Heap) : option Z :=
  obj_value a <$> load_bytes p (Z.to_nat (sizeof_MR_Word a)) (memory h).

(** Two more symbols the header depends on: [MR_DEBUG_DWORD_ALIGNMENT], which
    line 116 tests, and [NDEBUG], which turns [assert] off. *)
Record DebugDefines := {
  MR_DEBUG_DWORD_ALIGNMENT : bool;
  NDEBUG : bool
}.

(** What evaluating a macro of the boxed part of the header comes to: a
    value, a failed [assert] that ends the process, or no such macro on this
    build. *)
Inductive checked (A : Type) :=
  | Ok (x : A)
  | AssertionFailed
  | NotDeclared.
Arguments Ok {A} x.
Arguments AssertionFailed {A}.
Arguments NotDeclared {A}.

(** Lines 116-126.  In a checking build the statement expression copies the
    pointer into [MR_Word __addr], asserts [(__addr % 8) == 0] and yields
    [(void * ) __addr]; otherwise the macro is a cast. *)
Definition MR_dword_ptr
    (dbg : DebugDefines) (d : Defines) (ptr : Z) : checked Z :=
  if MR_BOXED_FLOAT d then
    if MR_DEBUG_DWORD_ALIGNMENT dbg && (MR_GNUC d || MR_CLANG d) then
      let __addr := ptr in
      if NDEBUG dbg then Ok __addr
      else if c_true (c_bool (__addr mod 8 =? 0)) then Ok __addr
      else AssertionFailed
    else Ok ptr
  else NotDeclared.

Definition checking_build : DebugDefines :=
  {| MR_DEBUG_DWORD_ALIGNMENT := true; NDEBUG := false |}.

Definition boxed_conservative_c99_solaris : Defines :=
  {| MR_USE_SINGLE_PREC_FLOAT := false; MR_BOXED_FLOAT_conf := true;
     MR_CONSERVATIVE_GC := true; MR_GNUC := true; MR_CLANG := false;
     MR_SOLARIS := true; STDC_VERSION := 199901 |}.

(** A C library whose [isinf], [isinff] and [isfinite] always answer 1. *)
Definition broken_isinf_libm : Libm :=
  {| isnan := isnan ieee_libm; isnanf := isnanf ieee_libm;
     isinf := fun _ _ => 1; isinff := fun _ => 1;
     isfinite := fun _ _ => 1 |}.

(** * Properties *)

(** ** Lemmas on object representations *)

Lemma length_obj_bytes a n v : length (obj_bytes a n v) = Z.to_nat n.
Proof.
  unfold obj_bytes. destruct (big_endian a);
    rewrite ?length_rev; apply length_le_split.
Qed.

Lemma obj_value_bytes a n v :
  fits n v -> obj_value a (obj_bytes a n v) = v.
Proof.
  intros [Hlo Hhi]. unfold obj_value, obj_bytes.
  assert (Hn : 0 <= n).
  { destruct (Z.leb_spec 0 n) as [|Hneg]; [assumption|].
    rewrite Z.pow_neg_r in Hhi by lia. lia. }
  assert (E : le_combine (le_split (Z.to_nat n) v) = v).
  { rewrite le_combine_split, Z2Nat.id by assumption.
    apply Z.mod_small. rewrite Z.mul_comm. lia. }
  destruct (big_endian a); [rewrite rev_involutive|]; exact E.
Qed.

Lemma obj_bytes_value a bs :
  obj_bytes a (Z.of_nat (length bs)) (obj_value a bs) = bs.
Proof.
  unfold obj_value, obj_bytes. rewrite Nat2Z.id.
  destruct (big_endian a).
  - rewrite <- (length_rev bs), split_le_combine. apply rev_involutive.
  - apply split_le_combine.
Qed.

Lemma obj_value_fits a bs : fits (Z.of_nat (length bs)) (obj_value a bs).
Proof.
  unfold fits, obj_value.
  destruct (big_endian a).
  - rewrite <- (length_rev bs). apply le_combine_bound.
  - apply le_combine_bound.
Qed.

Lemma length_auto_storage junk n : length (auto_storage junk n) = Z.to_nat n.
Proof. unfold auto_storage. now rewrite length_map, length_seq. Qed.

Lemma length_poke off bs u :
  (Z.to_nat off + length bs <= length u)%nat ->
  length (poke off bs u) = length u.
Proof.
  intros H. unfold poke.
  rewrite !length_app, length_firstn, length_skipn. lia.
Qed.

Lemma length_peek off n u :
  (Z.to_nat off + Z.to_nat n <= length u)%nat ->
  length (peek off n u) = Z.to_nat n.
Proof.
  intros H. unfold peek. rewrite length_firstn, length_skipn. lia.
Qed.

Lemma peek_poke_same off n bs u :
  (Z.to_nat off <= length u)%nat -> length bs = Z.to_nat n ->
  peek off n (poke off bs u) = bs.
Proof.
  intros Hoff Hn. unfold peek, poke.
  rewrite skipn_app, length_firstn, Nat.min_l by assumption.
  rewrite Nat.sub_diag, skipn_O.
  rewrite (skipn_all2 (n := Z.to_nat off)) by (rewrite length_firstn; lia).
  cbn [app]. rewrite firstn_app, <- Hn, firstn_all, Nat.sub_diag.
  cbn [firstn]. apply app_nil_r.
Qed.

(** Reading a prefix of what a write at offset 0 put there. *)
Lemma peek_poke_prefix n bs u :
  (Z.to_nat n <= length bs)%nat ->
  peek 0 n (poke 0 bs u) = firstn (Z.to_nat n) bs.
Proof.
  intros Hn. unfold peek, poke. change (Z.to_nat 0) with 0%nat.
  rewrite skipn_O, firstn_O. cbn [app].
  rewrite firstn_app.
  replace (Z.to_nat n - length bs)%nat with 0%nat by lia.
  cbn [firstn]. apply app_nil_r.
Qed.

(** A read at offset 0 that extends past a shorter write starts with the
    bytes written. *)
Lemma peek_poke_extend n bs u :
  (length bs <= Z.to_nat n)%nat -> (Z.to_nat n <= length u)%nat ->
  exists rest,
    peek 0 n (poke 0 bs u) = bs ++ rest /\
    length (bs ++ rest) = Z.to_nat n.
Proof.
  intros Hbs Hu. unfold peek, poke. change (Z.to_nat 0) with 0%nat.
  rewrite skipn_O, firstn_O. cbn [app Nat.add].
  rewrite firstn_app, firstn_all2 by assumption.
  eexists. split; [reflexivity|].
  rewrite length_app, length_firstn, length_skipn. lia.
Qed.

(** ** Float values on the move *)

(** Sign, exponent and mantissa fill the bytes of the type. *)
Lemma float_bytes_bits t :
  8 * float_bytes t = 1 + ebits (format_of t) + mbits (format_of t).
Proof. destruct t; reflexivity. Qed.

Lemma quiet_bit_nonneg t : 0 <= mbits (format_of t) - 1.
Proof. destruct t; cbn; lia. Qed.

Lemma setbit_fits n k b :
  0 <= k < 8 * n -> fits n b -> fits n (Z.setbit b k).
Proof.
  unfold fits. intros Hk [Hlo Hhi].
  rewrite Z.setbit_spec'.
  assert (H2 : 0 < 2 ^ k) by (apply Z.pow_pos_nonneg; lia).
  assert (Hor : 0 <= Z.lor b (2 ^ k)) by (apply Z.lor_nonneg; lia).
  split; [assumption|].
  apply Z.log2_lt_pow2.
  - assert (Hbit : Z.testbit (Z.lor b (2 ^ k)) k = true).
    { rewrite Z.lor_spec, Z.pow2_bits_true by lia. apply orb_true_r. }
    destruct (Z.eq_dec (Z.lor b (2 ^ k)) 0) as [E|E]; [|lia].
    rewrite E, Z.bits_0 in Hbit. discriminate.
  - rewrite Z.log2_lor by lia.
    apply Z.max_lub_lt.
    + destruct (Z.eq_dec b 0) as [->|Hb]; [cbn; lia|].
      apply Z.log2_lt_pow2; lia.
    + rewrite Z.log2_pow2 by lia. lia.
Qed.

Lemma quiet_nan_fits t b :
  fits (float_bytes t) b -> fits (float_bytes t) (quiet_nan (format_of t) b).
Proof.
  intros Hb. unfold quiet_nan.
  destruct (is_signalling_nan (format_of t) b); [|assumption].
  apply setbit_fits; [|assumption].
  destruct t; cbn; lia.
Qed.

(** A quieted pattern is not a signalling NaN, so quieting again changes
    nothing. *)
Lemma quiet_nan_is_quiet t b :
  is_signalling_nan (format_of t) (quiet_nan (format_of t) b) = false.
Proof.
  unfold quiet_nan.
  destruct (is_signalling_nan (format_of t) b) eqn:E; [|assumption].
  unfold is_signalling_nan.
  rewrite Z.setbit_eq by apply quiet_bit_nonneg.
  apply andb_false_r.
Qed.

Lemma quiet_nan_not_signalling fmt b :
  is_signalling_nan fmt b = false -> quiet_nan fmt b = b.
Proof. intros E. unfold quiet_nan. now rewrite E. Qed.

Lemma quiet_nan_idem t b :
  quiet_nan (format_of t) (quiet_nan (format_of t) b) =
  quiet_nan (format_of t) b.
Proof. apply quiet_nan_not_signalling, quiet_nan_is_quiet. Qed.

Lemma float_copy_refl t f : float_copy t f f.
Proof. now left. Qed.

Lemma float_copy_trans t f g r :
  float_copy t f g -> float_copy t g r -> float_copy t f r.
Proof.
  unfold float_copy. intros [->| ->] [->| ->]; auto.
  right. apply quiet_nan_idem.
Qed.

Lemma float_copy_exact t f r :
  is_signalling_nan (format_of t) f = false -> float_copy t f r -> r = f.
Proof.
  intros E [->| ->]; [reflexivity|]. now apply quiet_nan_not_signalling.
Qed.

Lemma float_copy_fits d a f r :
  sizeof_MR_Float d a = float_bytes (MR_Float d) ->
  float_copy (MR_Float d) f r -> is_MR_Float d a f -> is_MR_Float d a r.
Proof.
  unfold is_MR_Float. intros -> [->| ->] Hf; [assumption|].
  now apply quiet_nan_fits.
Qed.

Lemma float_move_fits d a k f :
  ieee_abi d a -> is_MR_Float d a f ->
  is_MR_Float d a (float_move a k (MR_Float d) f).
Proof.
  intros [Hsz Hmv] Hf. eapply float_copy_fits; [exact Hsz|apply Hmv|exact Hf].
Qed.

Lemma float_in_union_copy d a f :
  ieee_abi d a -> float_copy (MR_Float d) f (float_in_union d a f).
Proof.
  intros [_ Hmv]. unfold float_in_union.
  destruct (MR_GNUC d || MR_CLANG d); [apply Hmv|].
  eapply float_copy_trans; apply Hmv.
Qed.

Lemma float_in_union_fits d a f :
  ieee_abi d a -> is_MR_Float d a f -> is_MR_Float d a (float_in_union d a f).
Proof.
  intros H Hf. eapply float_copy_fits; [apply H| |exact Hf].
  now apply float_in_union_copy.
Qed.

Lemma float_in_union_exact d a f :
  moves_exact d a -> float_in_union d a f = f.
Proof.
  intros H. unfold float_in_union.
  destruct (MR_GNUC d || MR_CLANG d); now rewrite !H.
Qed.

Lemma move_exact_copy t k b : float_copy t b (move_exact k t b).
Proof. now left. Qed.

Lemma x87_float_move_copy t k b :
  float_copy t b (x87_float_move k t b).
Proof. destruct k; [right|right|left|right]; reflexivity. Qed.

(** With [sizeof(MR_Float) <= sizeof(MR_Word)] (line 159), the bit pattern
    that reached the union of [MR_float_to_word] is the one that the union of
    [MR_word_to_float] holds, whatever the unwritten bytes of either union
    held; the float returned is that pattern fetched. *)
Lemma unboxed_word_roundtrip j1 j2 d a f :
  is_MR_Float d a (float_in_union d a f) ->
  sizeof_MR_Float d a <= sizeof_MR_Word a ->
  MR_word_to_float_unboxed j2 d a (MR_float_to_word_unboxed j1 d a f) =
  float_move a move_fetch (MR_Float d) (float_in_union d a f).
Proof.
  intros Hf Hle.
  assert (Hfb : 0 <= sizeof_MR_Float d a).
  { destruct Hf as [Hlo Hhi].
    destruct (Z.leb_spec 0 (sizeof_MR_Float d a)) as [|Hneg]; [assumption|].
    rewrite Z.pow_neg_r in Hhi by lia. lia. }
  assert (Hsz : MR_Float_Word.sizeof d a = sizeof_MR_Word a).
  { unfold MR_Float_Word.sizeof. lia. }
  assert (E : forall g u1 u2,
    is_MR_Float d a g ->
    length u1 = Z.to_nat (sizeof_MR_Word a) ->
    MR_Float_Word.get_f d a
      (MR_Float_Word.set_w a
         (MR_Float_Word.get_w a (MR_Float_Word.set_f d a g u1)) u2) = g).
  { intros g u1 u2 Hg Hu1.
    unfold MR_Float_Word.get_f, MR_Float_Word.set_w, MR_Float_Word.get_w,
      MR_Float_Word.set_f.
    destruct (peek_poke_extend (sizeof_MR_Word a)
                (obj_bytes a (sizeof_MR_Float d a) g) u1)
      as (rest & -> & Hlen).
    { rewrite length_obj_bytes. lia. }
    { lia. }
    replace (sizeof_MR_Word a) with
      (Z.of_nat (length (obj_bytes a (sizeof_MR_Float d a) g ++ rest)))
      at 1 by (rewrite Hlen; lia).
    rewrite obj_bytes_value, peek_poke_prefix by (rewrite Hlen; lia).
    rewrite firstn_app, <- (length_obj_bytes a _ g), firstn_all, Nat.sub_diag.
    rewrite firstn_O, app_nil_r.
    now apply obj_value_bytes. }
  revert Hf.
  unfold MR_word_to_float_unboxed, MR_float_to_word_unboxed, float_in_union,
    MR_Float_Word.cast_f, MR_Float_Word.cast_w.
  destruct (MR_GNUC d || MR_CLANG d); cbv zeta; intros Hf;
    (rewrite E; [reflexivity|exact Hf|]);
    rewrite length_auto_storage, Hsz; reflexivity.
Qed.

Lemma store_bytes_below bs : forall p q m,
  q < p -> store_bytes p bs m !! q = m !! q.
Proof.
  induction bs as [|b bs IH]; intros p q m Hq; cbn [store_bytes].
  - reflexivity.
  - rewrite IH by lia. apply lookup_insert_ne. lia.
Qed.

Lemma load_store_bytes bs : forall p m,
  load_bytes p (length bs) (store_bytes p bs m) = Some bs.
Proof.
  induction bs as [|b bs IH]; intros p m; cbn [length load_bytes store_bytes].
  - reflexivity.
  - rewrite store_bytes_below, lookup_insert_eq by lia.
    cbn. rewrite IH. reflexivity.
Qed.

Lemma load_store_MR_Float d a p f h :
  is_MR_Float d a f ->
  load_MR_Float d a p (store_MR_Float d a p f h) = Some f.
Proof.
  intros Hf. unfold load_MR_Float, store_MR_Float. cbn [memory].
  rewrite <- (length_obj_bytes a (sizeof_MR_Float d a) f) at 1.
  rewrite load_store_bytes. cbn. f_equal. now apply obj_value_bytes.
Qed.


(** ** Word codec *)

(** The cell that boxing fills holds the float as the assignment left it. *)
Lemma boxed_cell_holds GC d a f h :
  is_MR_Float d a (float_move a move_store (MR_Float d) f) ->
  load_MR_Float d a
    (fst (MR_float_to_word_boxed GC d a f h))
    (snd (MR_float_to_word_boxed GC d a f h)) =
  Some (float_move a move_store (MR_Float d) f).
Proof.
  intros Hf. unfold MR_float_to_word_boxed.
  destruct (MR_CONSERVATIVE_GC d); cbv zeta; cbn [fst snd];
    unfold assign_MR_Float; unfold store_MR_Float at 1; cbn [MR_hp];
    now apply load_store_MR_Float.
Qed.

Lemma boxed_word_roundtrip GC d a f h :
  is_MR_Float d a (float_move a move_store (MR_Float d) f) ->
  MR_word_to_float_boxed d a
    (fst (MR_float_to_word_boxed GC d a f h))
    (snd (MR_float_to_word_boxed GC d a f h)) =
  Some (float_move a move_fetch (MR_Float d)
          (float_move a move_store (MR_Float d) f)).
Proof.
  intros Hf. unfold MR_word_to_float_boxed, deref_MR_Float.
  now rewrite boxed_cell_holds.
Qed.

(** The float that comes back from a word is the one that went in, after
    the moves the two macros make. *)
Lemma word_roundtrip_moves GC j1 j2 d a f h :
  is_MR_Float d a f -> ieee_abi d a ->
  (MR_BOXED_FLOAT d = false -> sizeof_MR_Float d a <= sizeof_MR_Word a) ->
  MR_word_to_float j2 d a
    (fst (MR_float_to_word GC j1 d a f h))
    (snd (MR_float_to_word GC j1 d a f h)) =
  Some (float_move a move_fetch (MR_Float d)
          (if MR_BOXED_FLOAT d then float_move a move_store (MR_Float d) f
           else float_in_union d a f)).
Proof.
  intros Hf Habi Hsz. unfold MR_word_to_float, MR_float_to_word.
  destruct (MR_BOXED_FLOAT d) eqn:Hb.
  - apply boxed_word_roundtrip. now apply float_move_fits.
  - cbn [fst snd]. f_equal. apply unboxed_word_roundtrip; auto.
    now apply float_in_union_fits.
Qed.

(** C1, as stated, fails: on i386 with x87 arithmetic a signalling NaN that
    is boxed comes back from its word as the quiet NaN with the same
    payload, and so does one put into a word by the function of line 183
    on a single-precision build. *)
Lemma word_roundtrip_signalling_nan_counterexample :
  (is_MR_Float boxed_precise_gcc i386_x87 snan_double /\
   MR_word_to_float junk_a5 boxed_precise_gcc i386_x87
     (fst (MR_float_to_word GC_at_cursor junk_a5 boxed_precise_gcc i386_x87
             snan_double (heap_at 8)))
     (snd (MR_float_to_word GC_at_cursor junk_a5 boxed_precise_gcc i386_x87
             snan_double (heap_at 8))) = Some qnan_double /\
   qnan_double <> snan_double) /\
  (is_MR_Float single_boxed_conf_c89 i386_x87 snan_float /\
   sizeof_MR_Float single_boxed_conf_c89 i386_x87 <= sizeof_MR_Word i386_x87 /\
   fst (MR_float_to_word GC_at_cursor junk_a5 single_boxed_conf_c89 i386_x87
          snan_float (heap_at 0)) = qnan_float /\
   MR_word_to_float junk_a5 single_boxed_conf_c89 i386_x87
     (fst (MR_float_to_word GC_at_cursor junk_a5 single_boxed_conf_c89
             i386_x87 snan_float (heap_at 0)))
     (snd (MR_float_to_word GC_at_cursor junk_a5 single_boxed_conf_c89
             i386_x87 snan_float (heap_at 0))) = Some qnan_float /\
   qnan_float <> snan_float).
Proof.
  split.
  - split; [|split].
    + unfold is_MR_Float, fits. vm_compute. split; [discriminate|reflexivity].
    + vm_compute. reflexivity.
    + discriminate.
  - split; [|split; [|split; [|split]]].
    + unfold is_MR_Float, fits. vm_compute. split; [discriminate|reflexivity].
    + vm_compute. discriminate.
    + vm_compute. reflexivity.
    + vm_compute. reflexivity.
    + discriminate.
Qed.

(** C1, amended.  Converting a float to a word and back gives the float back
    up to the quieting of a signalling NaN: bit-identical for every bit
    pattern that is not a signalling NaN (quiet NaNs with any payload, both
    zeros and both infinities among them), and bit-identical for every bit
    pattern where the C implementation moves float values by copying them.
    Unboxed, the float goes through [union MR_Float_Word], whose float
    member is no larger than a word (line 159); boxed, it is assigned to a
    fresh heap cell and read back through the address. *)
Theorem word_roundtrip_up_to_quieting GC j1 j2 d a f h :
  is_MR_Float d a f -> ieee_abi d a ->
  (MR_BOXED_FLOAT d = false -> sizeof_MR_Float d a <= sizeof_MR_Word a) ->
  exists r,
    MR_word_to_float j2 d a
      (fst (MR_float_to_word GC j1 d a f h))
      (snd (MR_float_to_word GC j1 d a f h)) = Some r /\
    float_copy (MR_Float d) f r /\
    (is_signalling_nan (format_of (MR_Float d)) f = false -> r = f) /\
    (moves_exact d a -> r = f).
Proof.
  intros Hf Habi Hsz. eexists. split; [now apply word_roundtrip_moves|].
  assert (Hc : float_copy (MR_Float d) f
                 (float_move a move_fetch (MR_Float d)
                    (if MR_BOXED_FLOAT d
                     then float_move a move_store (MR_Float d) f
                     else float_in_union d a f))).
  { eapply float_copy_trans; [|apply Habi].
    destruct (MR_BOXED_FLOAT d); [apply Habi|now apply float_in_union_copy]. }
  split; [exact Hc|split].
  - intros Hq. now apply float_copy_exact with (t := MR_Float d).
  - intros Hex. rewrite Hex.
    destruct (MR_BOXED_FLOAT d); [apply Hex|now apply float_in_union_exact].
Qed.

Lemma word_roundtrip_up_to_quieting_witness :
  (is_MR_Float boxed_precise_gcc i386_x87 snan_double /\
   ieee_abi boxed_precise_gcc i386_x87 /\
   (MR_BOXED_FLOAT boxed_precise_gcc = false ->
    sizeof_MR_Float boxed_precise_gcc i386_x87 <= sizeof_MR_Word i386_x87)) /\
  exists r,
    MR_word_to_float junk_a5 boxed_precise_gcc i386_x87
      (fst (MR_float_to_word GC_at_cursor junk_a5 boxed_precise_gcc i386_x87
              snan_double (heap_at 8)))
      (snd (MR_float_to_word GC_at_cursor junk_a5 boxed_precise_gcc i386_x87
              snan_double (heap_at 8))) = Some r /\
    float_copy (MR_Float boxed_precise_gcc) snan_double r /\
    (is_signalling_nan (format_of (MR_Float boxed_precise_gcc)) snan_double
       = false -> r = snan_double) /\
    (moves_exact boxed_precise_gcc i386_x87 -> r = snan_double).
Proof.
  assert (H1 : is_MR_Float boxed_precise_gcc i386_x87 snan_double)
    by (unfold is_MR_Float, fits; vm_compute;
        split; [discriminate | reflexivity]).
  assert (H2 : ieee_abi boxed_precise_gcc i386_x87)
    by (split; [reflexivity | intros k b; apply x87_float_move_copy]).
  assert (H3 : MR_BOXED_FLOAT boxed_precise_gcc = false ->
               sizeof_MR_Float boxed_precise_gcc i386_x87
               <= sizeof_MR_Word i386_x87)
    by (vm_compute; discriminate).
  split; [split; [|split]; assumption|].
  exact (word_roundtrip_up_to_quieting GC_at_cursor junk_a5 junk_a5
           boxed_precise_gcc i386_x87 snan_double (heap_at 8) H1 H2 H3).
Defined.

(** Where float values are moved by copying them, the round trip is exact:
    boxed on a 32-bit build, unboxed on a 64-bit one, and in single
    precision on a big-endian 32-bit one. *)
Example boxed_roundtrip_2_5 :
  MR_word_to_float junk_a5 boxed_precise_gcc ilp32
    (fst (MR_float_to_word GC_at_cursor junk_a5 boxed_precise_gcc ilp32
            bits_2_5 (heap_at 4)))
    (snd (MR_float_to_word GC_at_cursor junk_a5 boxed_precise_gcc ilp32
            bits_2_5 (heap_at 4))) = Some bits_2_5.
Proof. vm_compute. reflexivity. Qed.
Example unboxed_roundtrip_3_14159 :
  MR_word_to_float junk_count unboxed_double_gcc lp64
    (fst (MR_float_to_word GC_at_cursor junk_a5 unboxed_double_gcc lp64
            bits_3_14159 (heap_at 0)))
    (heap_at 0) = Some bits_3_14159.
Proof. vm_compute. reflexivity. Qed.

Example unboxed_single_roundtrip_nan :
  MR_word_to_float junk_count single_boxed_conf_c89 ilp32_be
    (fst (MR_float_to_word GC_at_cursor junk_a5 single_boxed_conf_c89 ilp32_be
            0x7fc00001 (heap_at 0)))
    (heap_at 0) = Some 0x7fc00001.
Proof. vm_compute. reflexivity. Qed.

(** Without the size assumption the unboxed codec loses bits: a double does
    not fit the word of a 32-bit target. *)
Example unboxed_needs_float_in_word :
  MR_word_to_float junk_a5 unboxed_double_gcc ilp32
    (fst (MR_float_to_word GC_at_cursor junk_a5 unboxed_double_gcc ilp32
            bits_2_5 (heap_at 0)))
    (heap_at 0) = Some 0xa5a5a5a500000000.
Proof. vm_compute. reflexivity. Qed.

(** On i386 with x87 arithmetic a word with the bits of a signalling NaN is
    read as the quiet NaN, and so are two words joined, by the macro and by
    the function; a quiet NaN and an infinity come back from their boxes as
    they went in. *)
Example x87_quiets_signalling_nans :
  MR_word_to_float_unboxed junk_a5 single_boxed_conf_c89 i386_x87 snan_float
  = qnan_float /\
  MR_float_from_dword junk_a5 boxed_precise_gcc i386_x87 1 0x7ff00000
  = Some qnan_double /\
  MR_float_from_dword junk_a5 boxed_precise_cc i386_x87 1 0x7ff00000
  = Some qnan_double /\
  (let r := MR_float_to_word GC_at_cursor junk_a5 boxed_precise_gcc i386_x87
              qnan_double (heap_at 8) in
   MR_word_to_float junk_a5 boxed_precise_gcc i386_x87 (fst r) (snd r)
   = Some qnan_double) /\
  (let r := MR_float_to_word GC_at_cursor junk_a5 boxed_precise_gcc i386_x87
              0xfff0000000000000 (heap_at 8) in
   MR_word_to_float junk_a5 boxed_precise_gcc i386_x87 (fst r) (snd r)
   = Some 0xfff0000000000000).
Proof. vm_compute. repeat split. Qed.

(** ** Heap boxing *)

Lemma land_pow2_pred n k :
  0 <= k -> Z.land n (2 ^ k - 1) = n mod 2 ^ k.
Proof.
  intros Hk. rewrite <- Z.land_ones by assumption.
  now rewrite Z.ones_equiv, Z.sub_1_r.
Qed.

(** Rounding a word-aligned cursor up by at most one word reaches a multiple
    of the float size, when both sizes are powers of two and the float takes
    at most two words. *)
Lemma pad_reaches_alignment wb fb hp :
  is_pow2 wb -> is_pow2 fb -> fb <= 2 * wb ->
  hp mod wb = 0 -> hp mod fb <> 0 ->
  (hp + 1 * wb) mod fb = 0.
Proof.
  intros (kw & Hkw & ->) (kf & Hkf & ->) Hle Hal Hmis.
  assert (Hkf' : kf <= kw + 1).
  { destruct (Z.le_gt_cases kf (kw + 1)) as [|Hgt]; [assumption|exfalso].
    assert (2 ^ (kw + 2) <= 2 ^ kf) by (apply Z.pow_le_mono_r; lia).
    replace (kw + 2) with (2 + kw) in * by lia.
    rewrite Z.pow_add_r in * by lia. change (2 ^ 2) with 4 in *.
    assert (0 < 2 ^ kw) by (apply Z.pow_pos_nonneg; lia). lia. }
  assert (Hpw : 0 < 2 ^ kw) by (apply Z.pow_pos_nonneg; lia).
  apply Z.mod_divide in Hal; [|lia]. destruct Hal as [q ->].
  destruct (Z.eq_dec kf (kw + 1)) as [->|Hne].
  - rewrite Z.pow_add_r, Z.pow_1_r in * by lia.
    destruct (Z.even q) eqn:Hev.
    + exfalso. apply Hmis. apply Z.even_spec in Hev. destruct Hev as [q' ->].
      replace (2 * q' * 2 ^ kw) with (q' * (2 ^ kw * 2)) by ring.
      apply Z.mod_mul. lia.
    + assert (Hodd : Z.odd q = true) by (rewrite <- Z.negb_even, Hev; reflexivity).
      apply Z.odd_spec in Hodd. destruct Hodd as [q' ->].
      replace ((2 * q' + 1) * 2 ^ kw + 1 * 2 ^ kw)
        with ((q' + 1) * (2 ^ kw * 2)) by ring.
      apply Z.mod_mul. lia.
  - exfalso. apply Hmis.
    replace kw with ((kw - kf) + kf) by lia.
    rewrite Z.pow_add_r, Z.mul_assoc by lia.
    apply Z.mod_mul.
    assert (0 < 2 ^ kf) by (apply Z.pow_pos_nonneg; lia). lia.
Qed.

Lemma make_hp_float_aligned_precise GC d a h :
  MR_BOXED_FLOAT d = true -> MR_CONSERVATIVE_GC d = false ->
  is_pow2 (sizeof_MR_Word a) -> is_pow2 (sizeof_MR_Float d a) ->
  sizeof_MR_Float d a <= 2 * sizeof_MR_Word a ->
  MR_hp h mod sizeof_MR_Word a = 0 ->
  MR_hp (MR_make_hp_float_aligned GC d a h) mod sizeof_MR_Float d a = 0.
Proof.
  intros Hb Hc Hw Hf Hle Hal.
  unfold MR_make_hp_float_aligned, MR_hp_alloc_atomic_msg. rewrite Hb, Hc.
  assert (Hmask : Z.land (MR_hp h) (sizeof_MR_Float d a - 1)
                  = MR_hp h mod sizeof_MR_Float d a).
  { destruct Hf as (k & Hk & ->). now apply land_pow2_pred. }
  rewrite Hmask.
  destruct (Z.eqb_spec (MR_hp h mod sizeof_MR_Float d a) 0) as [E|E];
    cbn [negb MR_hp].
  - exact E.
  - now apply pad_reaches_alignment.
Qed.

(** The address [MR_float_to_word] returns is the cursor as
    [MR_make_hp_float_aligned] left it (precise collection). *)
Lemma float_to_word_boxed_precise_address GC d a f h :
  MR_CONSERVATIVE_GC d = false ->
  fst (MR_float_to_word_boxed GC d a f h)
  = MR_hp (MR_make_hp_float_aligned GC d a h).
Proof.
  intros Hc. unfold MR_float_to_word_boxed. rewrite Hc. cbv zeta.
  cbn [fst]. unfold assign_MR_Float, store_MR_Float. cbn [MR_hp].
  unfold MR_hp_alloc_atomic_msg at 1. rewrite Hc. cbn [MR_hp]. lia.
Qed.

(** C3.  Boxed, under precise collection, with the allocator a bump cursor:
    the address [MR_float_to_word] returns is a multiple of
    [sizeof(MR_Float)].  The cursor [MR_hp] is an [MR_Word *] and so
    word-aligned; the sizes are powers of two with a float no larger than two
    words, as they are for an 8-byte double on 4- and 8-byte words. *)
Theorem float_to_word_address_aligned GC j d a f h :
  MR_BOXED_FLOAT d = true -> MR_CONSERVATIVE_GC d = false ->
  is_pow2 (sizeof_MR_Word a) -> is_pow2 (sizeof_MR_Float d a) ->
  sizeof_MR_Float d a <= 2 * sizeof_MR_Word a ->
  MR_hp h mod sizeof_MR_Word a = 0 ->
  fst (MR_float_to_word GC j d a f h) mod sizeof_MR_Float d a = 0.
Proof.
  intros Hb Hc Hw Hf Hle Hal. unfold MR_float_to_word. rewrite Hb.
  rewrite float_to_word_boxed_precise_address by assumption.
  now apply make_hp_float_aligned_precise.
Qed.

Lemma float_to_word_address_aligned_witness :
  (MR_BOXED_FLOAT boxed_precise_clang = true /\
   MR_CONSERVATIVE_GC boxed_precise_clang = false /\
   is_pow2 (sizeof_MR_Word ilp32) /\
   is_pow2 (sizeof_MR_Float boxed_precise_clang ilp32) /\
   sizeof_MR_Float boxed_precise_clang ilp32 <= 2 * sizeof_MR_Word ilp32 /\
   MR_hp (heap_at 20) mod sizeof_MR_Word ilp32 = 0) /\
  fst (MR_float_to_word GC_at_cursor junk_a5 boxed_precise_clang ilp32
         bits_2_5 (heap_at 20))
    mod sizeof_MR_Float boxed_precise_clang ilp32 = 0.
Proof.
  assert (H1 : MR_BOXED_FLOAT boxed_precise_clang = true) by reflexivity.
  assert (H2 : MR_CONSERVATIVE_GC boxed_precise_clang = false) by reflexivity.
  assert (H3 : is_pow2 (sizeof_MR_Word ilp32))
    by (exists 2; split; [lia | reflexivity]).
  assert (H4 : is_pow2 (sizeof_MR_Float boxed_precise_clang ilp32))
    by (exists 3; split; [lia | reflexivity]).
  assert (H5 : sizeof_MR_Float boxed_precise_clang ilp32
               <= 2 * sizeof_MR_Word ilp32) by (vm_compute; discriminate).
  assert (H6 : MR_hp (heap_at 20) mod sizeof_MR_Word ilp32 = 0) by reflexivity.
  split; [repeat split; assumption|].
  exact (float_to_word_address_aligned GC_at_cursor junk_a5
           boxed_precise_clang ilp32 bits_2_5 (heap_at 20) H1 H2 H3 H4 H5 H6).
Defined.

Example float_to_word_pads_at_20 :
  let r := MR_float_to_word GC_at_cursor junk_a5 boxed_precise_clang ilp32
             bits_2_5 (heap_at 20) in
  fst r = 24 /\ MR_hp (snd r) = 32 /\
  requests (snd r) = [pad_request 20; cell_request boxed_precise_clang ilp32 24].
Proof. vm_compute. repeat split. Qed.

(** C10.  [MR_make_hp_float_aligned] under precise collection leaves the
    cursor on a multiple of [sizeof(MR_Float)], taking at most one pad word,
    provided [sizeof(MR_Float)] is a power of two and at most
    [2 * sizeof(MR_Word)] (for a word-aligned cursor and a power-of-two word
    size).  Without the proviso it does not: with a 12-byte float the mask
    test lets a misaligned cursor through, and with a 16-byte float one pad
    word is not enough. *)
Theorem make_hp_float_aligned_precondition :
  (forall GC d a h,
     MR_BOXED_FLOAT d = true -> MR_CONSERVATIVE_GC d = false ->
     is_pow2 (sizeof_MR_Word a) -> MR_hp h mod sizeof_MR_Word a = 0 ->
     is_pow2 (sizeof_MR_Float d a) ->
     sizeof_MR_Float d a <= 2 * sizeof_MR_Word a ->
     let h' := MR_make_hp_float_aligned GC d a h in
     MR_hp h' mod sizeof_MR_Float d a = 0 /\
     (requests h' = requests h \/
      requests h' = requests h ++ [pad_request (MR_hp h)])) /\
  (let h' := MR_make_hp_float_aligned GC_at_cursor boxed_precise_gcc
               ilp32_double12 (heap_at 4) in
   requests h' = [] /\
   MR_hp h' mod sizeof_MR_Float boxed_precise_gcc ilp32_double12 <> 0) /\
  (let h' := MR_make_hp_float_aligned GC_at_cursor boxed_precise_gcc
               ilp32_double16 (heap_at 4) in
   requests h' = [pad_request 4] /\
   MR_hp h' mod sizeof_MR_Float boxed_precise_gcc ilp32_double16 <> 0).
Proof.
  split; [|split].
  - intros GC d a h Hb Hc Hw Hal Hf Hle h'. split.
    + now apply make_hp_float_aligned_precise.
    + subst h'. unfold MR_make_hp_float_aligned, MR_hp_alloc_atomic_msg.
      rewrite Hb, Hc.
      destruct (Z.land (MR_hp h) (sizeof_MR_Float d a - 1) =? 0);
        cbn [negb requests]; [left | right]; reflexivity.
  - vm_compute. split; [reflexivity | discriminate].
  - vm_compute. split; [reflexivity | discriminate].
Qed.

Lemma make_hp_float_aligned_precondition_witness :
  (MR_BOXED_FLOAT boxed_precise_gcc = true /\
   MR_CONSERVATIVE_GC boxed_precise_gcc = false /\
   is_pow2 (sizeof_MR_Word ilp32) /\
   MR_hp (heap_at 12) mod sizeof_MR_Word ilp32 = 0 /\
   is_pow2 (sizeof_MR_Float boxed_precise_gcc ilp32) /\
   sizeof_MR_Float boxed_precise_gcc ilp32 <= 2 * sizeof_MR_Word ilp32) /\
  MR_hp (MR_make_hp_float_aligned GC_at_cursor boxed_precise_gcc ilp32
           (heap_at 12))
    mod sizeof_MR_Float boxed_precise_gcc ilp32 = 0.
Proof.
  assert (H1 : MR_BOXED_FLOAT boxed_precise_gcc = true) by reflexivity.
  assert (H2 : MR_CONSERVATIVE_GC boxed_precise_gcc = false) by reflexivity.
  assert (H3 : is_pow2 (sizeof_MR_Word ilp32))
    by (exists 2; split; [lia | reflexivity]).
  assert (H4 : MR_hp (heap_at 12) mod sizeof_MR_Word ilp32 = 0) by reflexivity.
  assert (H5 : is_pow2 (sizeof_MR_Float boxed_precise_gcc ilp32))
    by (exists 3; split; [lia | reflexivity]).
  assert (H6 : sizeof_MR_Float boxed_precise_gcc ilp32
               <= 2 * sizeof_MR_Word ilp32) by (vm_compute; discriminate).
  split; [repeat split; assumption|].
  exact (proj1 (proj1 make_hp_float_aligned_precondition GC_at_cursor
                  boxed_precise_gcc ilp32 (heap_at 12) H1 H2 H3 H4 H5 H6)).
Defined.

Lemma float_to_word_boxed_hp GC d a f h :
  MR_hp (snd (MR_float_to_word_boxed GC d a f h))
  = fst (MR_float_to_word_boxed GC d a f h)
    + MR_FLOAT_WORDS d a * sizeof_MR_Word a.
Proof.
  unfold MR_float_to_word_boxed.
  destruct (MR_CONSERVATIVE_GC d); cbv zeta; cbn [fst snd];
    unfold assign_MR_Float, store_MR_Float; cbn [MR_hp]; lia.
Qed.

(** The bump cursor stays word-aligned across a boxing. *)
Lemma float_to_word_keeps_word_alignment GC d a f h :
  MR_CONSERVATIVE_GC d = false -> 0 < sizeof_MR_Word a ->
  MR_hp h mod sizeof_MR_Word a = 0 ->
  MR_hp (snd (MR_float_to_word_boxed GC d a f h)) mod sizeof_MR_Word a = 0.
Proof.
  intros Hc Hw Hal. rewrite float_to_word_boxed_hp.
  rewrite float_to_word_boxed_precise_address by assumption.
  rewrite Z.mod_add by lia.
  unfold MR_make_hp_float_aligned, MR_hp_alloc_atomic_msg. rewrite Hc.
  destruct (MR_BOXED_FLOAT d); [|assumption].
  destruct (negb _); cbn [MR_hp]; [|assumption].
  rewrite Z.mod_add by lia. assumption.
Qed.

Lemma float_to_word_boxed_conservative GC d a f h :
  MR_CONSERVATIVE_GC d = true ->
  let r := MR_float_to_word_boxed GC d a f h in
  fst r = GC h (MR_FLOAT_WORDS d a) /\
  requests (snd r) = requests h ++ [cell_request d a (fst r)].
Proof.
  intros Hc. unfold MR_float_to_word_boxed. rewrite Hc. cbv zeta.
  cbn [fst snd]. unfold assign_MR_Float, store_MR_Float. cbn [MR_hp requests].
  unfold MR_hp_alloc_atomic_msg. rewrite Hc. cbn [MR_hp requests].
  rewrite Z.add_simpl_r. split; reflexivity.
Qed.

Lemma float_to_word_boxed_precise GC d a f h :
  MR_BOXED_FLOAT d = true -> MR_CONSERVATIVE_GC d = false ->
  let r := MR_float_to_word_boxed GC d a f h in
  if negb (Z.land (MR_hp h) (sizeof_MR_Float d a - 1) =? 0) then
    fst r = MR_hp h + sizeof_MR_Word a /\
    requests (snd r)
    = requests h ++ [pad_request (MR_hp h); cell_request d a (fst r)]
  else
    fst r = MR_hp h /\
    requests (snd r) = requests h ++ [cell_request d a (fst r)].
Proof.
  intros Hb Hc r. subst r.
  rewrite float_to_word_boxed_precise_address by assumption.
  assert (Hreq : requests (snd (MR_float_to_word_boxed GC d a f h))
    = requests (MR_make_hp_float_aligned GC d a h)
      ++ [cell_request d a (MR_hp (MR_make_hp_float_aligned GC d a h))]).
  { unfold MR_float_to_word_boxed. rewrite Hc. cbv zeta. cbn [snd].
    unfold assign_MR_Float, store_MR_Float. cbn [requests].
    unfold MR_hp_alloc_atomic_msg at 1. rewrite Hc. reflexivity. }
  rewrite Hreq. unfold MR_make_hp_float_aligned, MR_hp_alloc_atomic_msg.
  rewrite Hb, Hc.
  destruct (negb (Z.land (MR_hp h) (sizeof_MR_Float d a - 1) =? 0));
    cbn [MR_hp requests].
  - rewrite <- app_assoc. split; [lia | reflexivity].
  - split; reflexivity.
Qed.

(** C4.  Boxing a float follows one of two paths.  Under conservative
    collection it asks once, whatever the cursor, for [MR_FLOAT_WORDS] atomic
    words at the float allocation site.  Under precise collection it tests
    the cursor against [sizeof(MR_Float) - 1], asks for one atomic pad word
    only when the test finds it misaligned, then asks for [MR_FLOAT_WORDS]
    atomic words.  Either way the float is assigned to the block just
    obtained and the block's first address is the word returned; what the
    block then holds is the float as the assignment moved it, which is the
    float itself up to the quieting of a signalling NaN. *)
Theorem float_to_word_boxed_two_paths GC d a f h :
  MR_BOXED_FLOAT d = true -> is_MR_Float d a f -> ieee_abi d a ->
  let r := MR_float_to_word_boxed GC d a f h in
  (if MR_CONSERVATIVE_GC d then
     fst r = GC h (MR_FLOAT_WORDS d a) /\
     requests (snd r) = requests h ++ [cell_request d a (fst r)]
   else if negb (Z.land (MR_hp h) (sizeof_MR_Float d a - 1) =? 0) then
     fst r = MR_hp h + sizeof_MR_Word a /\
     requests (snd r)
     = requests h ++ [pad_request (MR_hp h); cell_request d a (fst r)]
   else
     fst r = MR_hp h /\
     requests (snd r) = requests h ++ [cell_request d a (fst r)]) /\
  load_MR_Float d a (fst r) (snd r)
  = Some (float_move a move_store (MR_Float d) f) /\
  float_copy (MR_Float d) f (float_move a move_store (MR_Float d) f) /\
  (is_signalling_nan (format_of (MR_Float d)) f = false ->
   float_move a move_store (MR_Float d) f = f) /\
  MR_hp (snd r) = fst r + MR_FLOAT_WORDS d a * sizeof_MR_Word a.
Proof.
  intros Hb Hf Habi r. split; [|split; [|split; [|split]]].
  - destruct (MR_CONSERVATIVE_GC d) eqn:Hc.
    + now apply float_to_word_boxed_conservative.
    + now apply float_to_word_boxed_precise.
  - apply boxed_cell_holds. now apply float_move_fits.
  - apply Habi.
  - intros Hq. apply float_copy_exact with (t := MR_Float d); [exact Hq|].
    apply Habi.
  - apply float_to_word_boxed_hp.
Qed.

Lemma float_to_word_boxed_two_paths_witness :
  (MR_BOXED_FLOAT boxed_conservative_gcc = true /\
   is_MR_Float boxed_conservative_gcc i386_x87 snan_double /\
   ieee_abi boxed_conservative_gcc i386_x87) /\
  load_MR_Float boxed_conservative_gcc i386_x87
    (fst (MR_float_to_word_boxed (GC_fixed 64) boxed_conservative_gcc
            i386_x87 snan_double (heap_at 4)))
    (snd (MR_float_to_word_boxed (GC_fixed 64) boxed_conservative_gcc
            i386_x87 snan_double (heap_at 4))) = Some qnan_double.
Proof.
  assert (H1 : MR_BOXED_FLOAT boxed_conservative_gcc = true) by reflexivity.
  assert (H2 : is_MR_Float boxed_conservative_gcc i386_x87 snan_double)
    by (unfold is_MR_Float, fits; vm_compute; split; [discriminate | reflexivity]).
  assert (H3 : ieee_abi boxed_conservative_gcc i386_x87)
    by (split; [reflexivity | intros k b; apply x87_float_move_copy]).
  split; [split; [|split]; assumption|].
  exact (proj1 (proj2 (float_to_word_boxed_two_paths (GC_fixed 64)
                         boxed_conservative_gcc i386_x87 snan_double
                         (heap_at 4) H1 H2 H3))).
Defined.

(** C5, as stated, fails: on a conservative build with the cursor at 4 (not a
    multiple of 8) boxing makes a single request and returns address 4. *)
Lemma conservative_boxing_pads_counterexample :
  ~ pads_when_misaligned GC_at_cursor boxed_conservative_gcc ilp32
      bits_2_5 (heap_at 4).
Proof.
  intros H. destruct H as [[p Hp] _].
  - vm_compute. discriminate.
  - vm_compute in Hp. discriminate.
Qed.

(** C5, amended.  The misalignment test and the one-word pad belong to the
    precise-collection path.  Under conservative collection
    [MR_make_hp_float_aligned] does nothing and [MR_float_to_word] makes one
    request of [MR_FLOAT_WORDS] words, the cell lying where the collector put
    it; under precise collection a misaligned cursor is padded and the cell
    starts on a float boundary. *)
Theorem padding_is_on_the_precise_path GC d a f h :
  MR_BOXED_FLOAT d = true ->
  (MR_CONSERVATIVE_GC d = true ->
   MR_make_hp_float_aligned GC d a h = h /\
   fst (MR_float_to_word_boxed GC d a f h) = GC h (MR_FLOAT_WORDS d a) /\
   requests (snd (MR_float_to_word_boxed GC d a f h))
   = requests h ++ [cell_request d a (GC h (MR_FLOAT_WORDS d a))]) /\
  (MR_CONSERVATIVE_GC d = false ->
   is_pow2 (sizeof_MR_Word a) -> is_pow2 (sizeof_MR_Float d a) ->
   sizeof_MR_Float d a <= 2 * sizeof_MR_Word a ->
   MR_hp h mod sizeof_MR_Word a = 0 ->
   pads_when_misaligned GC d a f h).
Proof.
  intros Hb. split.
  - intros Hc. split; [|split].
    + unfold MR_make_hp_float_aligned. now rewrite Hb, Hc.
    + now apply float_to_word_boxed_conservative.
    + destruct (float_to_word_boxed_conservative GC d a f h Hc) as [E1 E2].
      now rewrite E2, E1.
  - intros Hc Hw Hf Hle Hal Hmis. cbv zeta. split.
    + pose proof (float_to_word_boxed_precise GC d a f h Hb Hc) as Hp.
      cbv zeta in Hp.
      destruct (Z.eqb_spec (Z.land (MR_hp h) (sizeof_MR_Float d a - 1)) 0)
        as [E|E]; [contradiction|].
      cbn [negb] in Hp. exists (MR_hp h). apply Hp.
    + rewrite float_to_word_boxed_precise_address by assumption.
      now apply make_hp_float_aligned_precise.
Qed.

Lemma padding_is_on_the_precise_path_witness :
  (MR_BOXED_FLOAT boxed_conservative_gcc = true /\
   MR_CONSERVATIVE_GC boxed_conservative_gcc = true) /\
  MR_make_hp_float_aligned GC_at_cursor boxed_conservative_gcc ilp32
    (heap_at 4) = heap_at 4.
Proof.
  assert (H1 : MR_BOXED_FLOAT boxed_conservative_gcc = true) by reflexivity.
  assert (H2 : MR_CONSERVATIVE_GC boxed_conservative_gcc = true)
    by reflexivity.
  split; [split; assumption|].
  exact (proj1 (proj1 (padding_is_on_the_precise_path GC_at_cursor
                         boxed_conservative_gcc ilp32 bits_2_5 (heap_at 4)
                         H1) H2)).
Defined.

(** ** [MR_float_const] *)

(** C8, as stated, fails: boxed and compiled with a compiler other than
    GNU C, two evaluations of one literal allocate two cells at two
    addresses. *)
Lemma float_const_reuse_counterexample :
  ~ const_reuses_cell GC_at_cursor junk_a5 boxed_precise_cc ilp32
      4096 bits_2_5 (heap_at 8).
Proof.
  intros [Haddr _]. vm_compute in Haddr. discriminate.
Qed.

Example float_const_allocates_twice :
  let r1 := MR_float_const GC_at_cursor junk_a5 boxed_precise_cc ilp32
              4096 bits_2_5 (heap_at 8) in
  let r2 := MR_float_const GC_at_cursor junk_a5 boxed_precise_cc ilp32
              4096 bits_2_5 (snd r1) in
  fst r1 = 8 /\ fst r2 = 16 /\
  requests (snd r2) = [cell_request boxed_precise_cc ilp32 8;
                       cell_request boxed_precise_cc ilp32 16] /\
  const_reuses_cell GC_at_cursor junk_a5 boxed_precise_gcc ilp32
    4096 bits_2_5 (heap_at 8).
Proof. vm_compute. repeat split. Qed.

(** C8, amended.  Boxed and compiled with GNU C, [MR_float_const] yields the
    address of the literal's static cell, leaves the heap as it was and asks
    the allocator for nothing, however often it is evaluated; the cell holds
    the literal.  Boxed and compiled with anything else, it is
    [MR_float_to_word] and allocates a cell at every evaluation. *)
Theorem float_const_static_cell_with_gnuc GC j d a cell f h :
  MR_BOXED_FLOAT d = true ->
  (MR_GNUC d = true ->
   MR_float_const GC j d a cell f h = (cell, h) /\
   const_reuses_cell GC j d a cell f h /\
   (is_MR_Float d a f ->
    load_MR_Float d a cell
      {| MR_hp := MR_hp h; memory := static_image d a [(cell, f)];
         requests := requests h |} = Some f)) /\
  (MR_GNUC d = false ->
   MR_float_const GC j d a cell f h = MR_float_to_word_boxed GC d a f h /\
   exists r, requests (snd (MR_float_const GC j d a cell f h))
             = requests h ++ r ++ [cell_request d a
                 (fst (MR_float_const GC j d a cell f h))] ).
Proof.
  intros Hb. split; intros Hg.
  - assert (E : forall h0, MR_float_const GC j d a cell f h0 = (cell, h0)).
    { intros h0. unfold MR_float_const. now rewrite Hb, Hg. }
    split; [apply E|split].
    + unfold const_reuses_cell. cbv zeta. rewrite !E. cbn [fst snd].
      split; reflexivity.
    + intros Hf. unfold static_image. cbn [fold_right fst snd].
      unfold load_MR_Float. cbn [memory].
      rewrite <- (length_obj_bytes a (sizeof_MR_Float d a) f) at 1.
      rewrite load_store_bytes. cbn. f_equal. now apply obj_value_bytes.
  - assert (E : MR_float_const GC j d a cell f h
                = MR_float_to_word_boxed GC d a f h).
    { unfold MR_float_const, MR_float_to_word. now rewrite Hb, Hg. }
    split; [exact E|]. rewrite E.
    destruct (MR_CONSERVATIVE_GC d) eqn:Hc.
    + exists []. apply (float_to_word_boxed_conservative GC d a f h Hc).
    + pose proof (float_to_word_boxed_precise GC d a f h Hb Hc) as Hp.
      cbv zeta in Hp.
      destruct (negb (Z.land (MR_hp h) (sizeof_MR_Float d a - 1) =? 0)).
      * exists [pad_request (MR_hp h)]. apply Hp.
      * exists []. apply Hp.
Qed.

Lemma float_const_static_cell_with_gnuc_witness :
  (MR_BOXED_FLOAT boxed_precise_gcc = true /\
   MR_GNUC boxed_precise_gcc = true) /\
  MR_float_const GC_at_cursor junk_a5 boxed_precise_gcc ilp32 4096 bits_2_5
    (heap_at 8) = (4096, heap_at 8).
Proof.
  assert (H1 : MR_BOXED_FLOAT boxed_precise_gcc = true) by reflexivity.
  assert (H2 : MR_GNUC boxed_precise_gcc = true) by reflexivity.
  split; [split; assumption|].
  exact (proj1 (proj1 (float_const_static_cell_with_gnuc GC_at_cursor junk_a5
                         boxed_precise_gcc ilp32 4096 bits_2_5 (heap_at 8)
                         H1) H2)).
Defined.

(** ** Precision and boxing *)

(** C9.  Whatever the configuration asks for, a single precision build has
    [MR_BOXED_FLOAT] undefined; hence wherever the boxed branch is compiled
    (the dword codec included) [MR_Float] is [double]. *)
Theorem boxed_float_is_double d :
  (MR_USE_SINGLE_PREC_FLOAT d = true -> MR_BOXED_FLOAT d = false) /\
  (MR_BOXED_FLOAT d = true -> MR_Float d = c_double) /\
  (forall j a f n,
     is_Some (MR_float_word_bits j d a f n) -> MR_Float d = c_double) /\
  (forall j a w0 w1,
     is_Some (MR_float_from_dword j d a w0 w1) -> MR_Float d = c_double).
Proof.
  assert (H : MR_BOXED_FLOAT d = true -> MR_Float d = c_double).
  { unfold MR_BOXED_FLOAT, MR_Float.
    destruct (MR_USE_SINGLE_PREC_FLOAT d); [discriminate | reflexivity]. }
  split; [|split; [exact H|split]].
  - unfold MR_BOXED_FLOAT. now intros ->.
  - intros j a f n [w Hw]. apply H. unfold MR_float_word_bits in Hw.
    destruct (MR_BOXED_FLOAT d); [reflexivity | discriminate].
  - intros j a w0 w1 [w Hw]. apply H. unfold MR_float_from_dword in Hw.
    destruct (MR_BOXED_FLOAT d); [reflexivity | discriminate].
Qed.

Lemma boxed_float_is_double_witness :
  (MR_USE_SINGLE_PREC_FLOAT single_boxed_conf_c89 = true /\
   MR_BOXED_FLOAT_conf single_boxed_conf_c89 = true) /\
  MR_BOXED_FLOAT single_boxed_conf_c89 = false.
Proof.
  assert (H1 : MR_USE_SINGLE_PREC_FLOAT single_boxed_conf_c89 = true)
    by reflexivity.
  split; [split; [assumption | reflexivity]|].
  exact (proj1 (boxed_float_is_double single_boxed_conf_c89) H1).
Defined.

(** ** Dword codec *)

Lemma cast_MR_Word_fits a w : is_MR_Word a w -> cast_MR_Word a w = w.
Proof. intros H. unfold cast_MR_Word. now apply Z.mod_small. Qed.

(** The two word members cover a union of two words. *)
Lemma dword_members_cover a u :
  0 <= sizeof_MR_Word a ->
  length u = (Z.to_nat (sizeof_MR_Word a) + Z.to_nat (sizeof_MR_Word a))%nat ->
  peek (0 * sizeof_MR_Word a) (sizeof_MR_Word a) u
  ++ peek (1 * sizeof_MR_Word a) (sizeof_MR_Word a) u = u.
Proof.
  intros Hw Hu. unfold peek. rewrite Z.mul_0_l, Z.mul_1_l.
  change (Z.to_nat 0) with 0%nat. rewrite skipn_O.
  rewrite (firstn_all2 (skipn (Z.to_nat (sizeof_MR_Word a)) u))
    by (rewrite length_skipn; lia).
  apply firstn_skipn.
Qed.

(** Writing both word members overwrites the whole union. *)
Lemma dword_set_both a x0 x1 u :
  length u = (Z.to_nat (sizeof_MR_Word a) + Z.to_nat (sizeof_MR_Word a))%nat ->
  length x0 = Z.to_nat (sizeof_MR_Word a) ->
  length x1 = Z.to_nat (sizeof_MR_Word a) ->
  poke (1 * sizeof_MR_Word a) x1 (poke (0 * sizeof_MR_Word a) x0 u)
  = x0 ++ x1.
Proof.
  intros Hu H0 H1. unfold poke. rewrite Z.mul_0_l, Z.mul_1_l.
  change (Z.to_nat 0) with 0%nat. rewrite firstn_O. cbn [app Nat.add].
  rewrite firstn_app, <- H0, firstn_all, Nat.sub_diag, firstn_O, app_nil_r.
  rewrite skipn_all2.
  - now rewrite app_nil_r.
  - rewrite length_app, length_skipn. lia.
Qed.

Lemma dword_word_member a i u :
  (Z.to_nat (i * sizeof_MR_Word a) + Z.to_nat (sizeof_MR_Word a)
   <= length u)%nat ->
  0 <= sizeof_MR_Word a ->
  obj_bytes a (sizeof_MR_Word a)
    (cast_MR_Word a (cast_MR_Word a (MR_Float_Dword.get_w a i u)))
  = peek (i * sizeof_MR_Word a) (sizeof_MR_Word a) u /\
  obj_bytes a (sizeof_MR_Word a) (cast_MR_Word a (MR_Float_Dword.get_w a i u))
  = peek (i * sizeof_MR_Word a) (sizeof_MR_Word a) u.
Proof.
  intros Hi Hw. unfold MR_Float_Dword.get_w.
  set (x := peek (i * sizeof_MR_Word a) (sizeof_MR_Word a) u).
  assert (Hx : Z.of_nat (length x) = sizeof_MR_Word a).
  { subst x. rewrite length_peek by assumption. lia. }
  assert (Hfit : is_MR_Word a (obj_value a x)).
  { unfold is_MR_Word. rewrite <- Hx at 1. apply obj_value_fits. }
  rewrite !(cast_MR_Word_fits a (obj_value a x) Hfit).
  split; (rewrite <- Hx at 1; apply obj_bytes_value).
Qed.

(** The union written through [f], taken apart into its word members and
    rebuilt from them, reads back as [f]. *)
Lemma dword_rebuild j j' d a f :
  is_MR_Float d a f ->
  sizeof_MR_Float d a <= 2 * sizeof_MR_Word a ->
  let u := MR_Float_Dword.cast_f j d a f in
  let w0 := MR_Float_Dword.get_w a 0 u in
  let w1 := MR_Float_Dword.get_w a 1 u in
  forall c0 c1,
    obj_bytes a (sizeof_MR_Word a) c0
    = peek (0 * sizeof_MR_Word a) (sizeof_MR_Word a) u ->
    obj_bytes a (sizeof_MR_Word a) c1
    = peek (1 * sizeof_MR_Word a) (sizeof_MR_Word a) u ->
    MR_Float_Dword.get_f d a
      (MR_Float_Dword.set_w a 1 c1
         (MR_Float_Dword.set_w a 0 c0
            (auto_storage j' (MR_Float_Dword.sizeof d a)))) = f.
Proof.
  intros Hf Hle u w0 w1 c0 c1 E0 E1.
  assert (Hfb : 0 <= sizeof_MR_Float d a).
  { destruct Hf as [Hlo Hhi].
    destruct (Z.leb_spec 0 (sizeof_MR_Float d a)) as [|Hneg]; [assumption|].
    rewrite Z.pow_neg_r in Hhi by lia. lia. }
  assert (Hwb : 0 <= sizeof_MR_Word a) by lia.
  assert (Hsz : Z.to_nat (MR_Float_Dword.sizeof d a)
    = (Z.to_nat (sizeof_MR_Word a) + Z.to_nat (sizeof_MR_Word a))%nat).
  { unfold MR_Float_Dword.sizeof. lia. }
  assert (Hu : length u
    = (Z.to_nat (sizeof_MR_Word a) + Z.to_nat (sizeof_MR_Word a))%nat).
  { subst u. unfold MR_Float_Dword.cast_f, MR_Float_Dword.set_f.
    rewrite length_poke; rewrite length_auto_storage; [exact Hsz|].
    rewrite length_obj_bytes. change (Z.to_nat 0) with 0%nat. lia. }
  unfold MR_Float_Dword.get_f, MR_Float_Dword.set_w.
  rewrite E0, E1.
  rewrite dword_set_both.
  - rewrite dword_members_cover by assumption.
    subst u. unfold MR_Float_Dword.cast_f, MR_Float_Dword.set_f.
    rewrite peek_poke_same.
    + now apply obj_value_bytes.
    + change (Z.to_nat 0) with 0%nat. lia.
    + apply length_obj_bytes.
  - rewrite length_auto_storage. exact Hsz.
  - apply length_peek. rewrite Z.mul_0_l. change (Z.to_nat 0) with 0%nat. lia.
  - apply length_peek. rewrite Z.mul_1_l. lia.
Qed.

(** [MR_float_word_bits] reads a word member of a union into which the
    float has been put. *)
Lemma float_word_bits_union j d a f n :
  MR_BOXED_FLOAT d = true -> 0 <= n < 2 ->
  MR_float_word_bits j d a f n
  = Some (MR_Float_Dword.get_w a n
            (MR_Float_Dword.cast_f j d a (float_in_union d a f))).
Proof.
  intros Hb Hn. unfold MR_float_word_bits, float_in_union. rewrite Hb.
  replace ((0 <=? n) && (n <? 2)) with true
    by (symmetry; apply andb_true_intro; split; lia).
  destruct (MR_GNUC d || MR_CLANG d); reflexivity.
Qed.

(** [MR_float_from_dword] fetches the float member of a union whose two
    word members it has written, by the macro and by the function alike. *)
Lemma float_from_dword_union j d a w0 w1 :
  MR_BOXED_FLOAT d = true ->
  MR_float_from_dword j d a w0 w1
  = Some (float_move a move_fetch (MR_Float d)
            (MR_Float_Dword.get_f d a
               (MR_Float_Dword.set_w a 1 (cast_MR_Word a w1)
                  (MR_Float_Dword.set_w a 0 (cast_MR_Word a w0)
                     (auto_storage j (MR_Float_Dword.sizeof d a)))))).
Proof.
  intros Hb. unfold MR_float_from_dword, MR_float_from_dword_func.
  rewrite Hb.
  assert (E : forall w, cast_MR_Word a (cast_MR_Word a w) = cast_MR_Word a w).
  { intros w. unfold cast_MR_Word. apply Zmod_mod. }
  destruct (MR_GNUC d || MR_CLANG d); cbv zeta; [reflexivity|].
  now rewrite !E.
Qed.

(** The words of a union into which a float was put, given to
    [MR_float_from_dword], give the pattern that reached the union,
    fetched: this works whenever two words can hold the float. *)
Lemma dword_join_moves j j' d a f :
  MR_BOXED_FLOAT d = true ->
  is_MR_Float d a (float_in_union d a f) ->
  sizeof_MR_Float d a <= 2 * sizeof_MR_Word a ->
  let u := MR_Float_Dword.cast_f j d a (float_in_union d a f) in
  MR_float_from_dword j' d a
    (MR_Float_Dword.get_w a 0 u) (MR_Float_Dword.get_w a 1 u)
  = Some (float_move a move_fetch (MR_Float d) (float_in_union d a f)).
Proof.
  intros Hb Hf Hle u.
  assert (Hfb : 0 <= sizeof_MR_Float d a).
  { destruct Hf as [Hlo Hhi].
    destruct (Z.leb_spec 0 (sizeof_MR_Float d a)) as [|Hneg]; [assumption|].
    rewrite Z.pow_neg_r in Hhi by lia. lia. }
  assert (Hwb : 0 <= sizeof_MR_Word a) by lia.
  assert (Hu : length u
    = (Z.to_nat (sizeof_MR_Word a) + Z.to_nat (sizeof_MR_Word a))%nat).
  { subst u. unfold MR_Float_Dword.cast_f, MR_Float_Dword.set_f.
    rewrite length_poke; rewrite length_auto_storage;
      unfold MR_Float_Dword.sizeof; [lia|].
    rewrite length_obj_bytes. change (Z.to_nat 0) with 0%nat. lia. }
  destruct (dword_word_member a 0 u) as [_ E0];
    [rewrite Z.mul_0_l; change (Z.to_nat 0) with 0%nat; lia | assumption |].
  destruct (dword_word_member a 1 u) as [_ E1];
    [rewrite Z.mul_1_l; lia | assumption |].
  rewrite float_from_dword_union by assumption. do 2 f_equal.
  now apply (dword_rebuild j j' d a (float_in_union d a f) Hf Hle).
Qed.

(** A float that takes exactly two words fills the union: nothing of it is
    left unwritten. *)
Lemma dword_cast_f_full j d a f :
  sizeof_MR_Float d a = 2 * sizeof_MR_Word a ->
  MR_Float_Dword.cast_f j d a f = obj_bytes a (sizeof_MR_Float d a) f.
Proof.
  intros Hsz. unfold MR_Float_Dword.cast_f, MR_Float_Dword.set_f, poke.
  change (Z.to_nat 0) with 0%nat. rewrite firstn_O. cbn [app Nat.add].
  rewrite skipn_all2.
  - apply app_nil_r.
  - rewrite length_auto_storage, length_obj_bytes.
    unfold MR_Float_Dword.sizeof. lia.
Qed.

Lemma float_word_bits_any_union j j0 d a f n :
  sizeof_MR_Float d a = 2 * sizeof_MR_Word a ->
  MR_float_word_bits j0 d a f n = MR_float_word_bits j d a f n.
Proof.
  intros Hsz. unfold MR_float_word_bits. cbv zeta.
  repeat match goal with
  | |- context [MR_Float_Dword.set_f d a ?g (auto_storage ?k ?n)] =>
      change (MR_Float_Dword.set_f d a g (auto_storage k n))
        with (MR_Float_Dword.cast_f k d a g)
  end.
  now rewrite !(dword_cast_f_full _ d a _ Hsz).
Qed.

(** The first word member lies inside a float that is at least a word long,
    so it does not depend on what the union held before. *)
Lemma dword_word0_any_union j j0 d a g :
  0 <= sizeof_MR_Word a <= sizeof_MR_Float d a ->
  MR_Float_Dword.get_w a 0 (MR_Float_Dword.cast_f j0 d a g)
  = MR_Float_Dword.get_w a 0 (MR_Float_Dword.cast_f j d a g).
Proof.
  intros Hsz.
  unfold MR_Float_Dword.get_w, MR_Float_Dword.cast_f, MR_Float_Dword.set_f.
  rewrite Z.mul_0_l.
  now rewrite !peek_poke_prefix by (rewrite length_obj_bytes; lia).
Qed.

(** C2, as stated, fails twice over.  On an unboxed build the header
    declares no dword codec, so there is nothing to take a double apart or
    put it together.  On a boxed build for i386 with x87 arithmetic the two
    words of a signalling NaN are joined into the quiet NaN with the same
    payload. *)
Lemma dword_roundtrip_counterexample :
  (MR_Float unboxed_double_gcc = c_double /\
   ~ dword_roundtrip_at junk_a5 junk_a5 junk_a5 junk_a5
       unboxed_double_gcc lp64 bits_2_5) /\
  (MR_Float boxed_precise_gcc = c_double /\
   is_MR_Float boxed_precise_gcc i386_x87 snan_double /\
   MR_float_from_dword junk_a5 boxed_precise_gcc i386_x87 1 0x7ff00000
   = Some qnan_double /\
   ~ dword_roundtrip_at junk_a5 junk_a5 junk_a5 junk_a5
       boxed_precise_gcc i386_x87 snan_double).
Proof.
  split; (split; [reflexivity|]).
  - intros (w0 & w1 & Hsplit & _). vm_compute in Hsplit. discriminate.
  - split; [|split].
    + unfold is_MR_Float, fits. vm_compute. split; [discriminate|reflexivity].
    + vm_compute. reflexivity.
    + intros (w0 & w1 & Hsplit & _ & _ & Hjoin).
      vm_compute in Hsplit. injection Hsplit as <- <-.
      vm_compute in Hjoin. discriminate.
Qed.

(** C2, amended.  On a boxed build, the only kind that has the dword codec,
    for every double [f] that two words can hold: the two word members of a
    union into which [f] was put, given to [MR_float_from_dword], give [f]
    back up to the quieting of a signalling NaN: bit for bit when [f] is not
    a signalling NaN, and bit for bit for every [f] where the C
    implementation moves float values by copying them.
    [MR_float_word_bits] at 0 yields the first of the two words when a float
    is at least a word long, and at 1 the second when a float is exactly
    two words long.  This does not depend on the collector, the compiler, or
    what the unions held before. *)
Theorem dword_roundtrip_boxed j j0 j1 j' d a f :
  MR_BOXED_FLOAT d = true ->
  is_MR_Float d a f -> ieee_abi d a ->
  sizeof_MR_Float d a <= 2 * sizeof_MR_Word a ->
  exists w0 w1 r,
    splitToDwords j d a f = Some (w0, w1) /\
    MR_float_from_dword j' d a w0 w1 = Some r /\
    float_copy (MR_Float d) f r /\
    (is_signalling_nan (format_of (MR_Float d)) f = false -> r = f) /\
    (moves_exact d a -> r = f) /\
    (sizeof_MR_Word a <= sizeof_MR_Float d a ->
     MR_float_word_bits j0 d a f 0 = Some w0) /\
    (sizeof_MR_Float d a = 2 * sizeof_MR_Word a ->
     MR_float_word_bits j1 d a f 1 = Some w1).
Proof.
  intros Hb Hf Habi Hle.
  assert (Hg : is_MR_Float d a (float_in_union d a f))
    by now apply float_in_union_fits.
  assert (Hfb : 0 <= sizeof_MR_Float d a).
  { destruct Hf as [Hlo Hhi].
    destruct (Z.leb_spec 0 (sizeof_MR_Float d a)) as [|Hneg]; [assumption|].
    rewrite Z.pow_neg_r in Hhi by lia. lia. }
  assert (Hc : float_copy (MR_Float d) f
                 (float_move a move_fetch (MR_Float d)
                    (float_in_union d a f))).
  { eapply float_copy_trans;
      [exact (float_in_union_copy d a f Habi)|apply Habi]. }
  do 3 eexists.
  split; [unfold splitToDwords; rewrite Hb; reflexivity|].
  split; [now apply dword_join_moves|].
  split; [exact Hc|].
  split; [intros Hq; now apply float_copy_exact with (t := MR_Float d)|].
  split; [intros Hex; now rewrite Hex, float_in_union_exact|].
  split.
  - intros Hw. rewrite float_word_bits_union by (assumption || lia).
    f_equal. apply dword_word0_any_union. lia.
  - intros Hsz. rewrite (float_word_bits_any_union j j1) by assumption.
    apply float_word_bits_union; [assumption|lia].
Qed.

Lemma dword_roundtrip_boxed_witness :
  (MR_BOXED_FLOAT boxed_conservative_gcc = true /\
   is_MR_Float boxed_conservative_gcc i386_x87 snan_double /\
   ieee_abi boxed_conservative_gcc i386_x87 /\
   sizeof_MR_Float boxed_conservative_gcc i386_x87
   <= 2 * sizeof_MR_Word i386_x87) /\
  exists w0 w1 r,
    splitToDwords junk_a5 boxed_conservative_gcc i386_x87 snan_double
    = Some (w0, w1) /\
    MR_float_from_dword junk_count boxed_conservative_gcc i386_x87 w0 w1
    = Some r /\
    float_copy (MR_Float boxed_conservative_gcc) snan_double r.
Proof.
  assert (H1 : MR_BOXED_FLOAT boxed_conservative_gcc = true) by reflexivity.
  assert (H2 : is_MR_Float boxed_conservative_gcc i386_x87 snan_double)
    by (unfold is_MR_Float, fits; vm_compute;
        split; [discriminate | reflexivity]).
  assert (H3 : ieee_abi boxed_conservative_gcc i386_x87)
    by (split; [reflexivity | intros k b; apply x87_float_move_copy]).
  assert (H4 : sizeof_MR_Float boxed_conservative_gcc i386_x87
               <= 2 * sizeof_MR_Word i386_x87) by (vm_compute; discriminate).
  split; [split; [|split; [|split]]; assumption|].
  destruct (dword_roundtrip_boxed junk_a5 junk_count junk_a5 junk_count
              boxed_conservative_gcc i386_x87 snan_double H1 H2 H3 H4)
    as (w0 & w1 & r & Hs & Hj & Hc & _).
  exists w0, w1, r. split; [|split]; assumption.
Defined.

(** On a boxed 64-bit build the double fills [w[0]] alone; [w[1]] is whatever
    the union held, and the round trip still goes through. *)
Example dword_roundtrip_lp64 :
  MR_float_word_bits junk_a5 boxed_precise_gcc lp64 bits_2_5 0
    = Some bits_2_5 /\
  MR_float_word_bits junk_a5 boxed_precise_gcc lp64 bits_2_5 1
    = Some 0xa5a5a5a5a5a5a5a5 /\
  MR_float_from_dword junk_count boxed_precise_gcc lp64
    bits_2_5 0xa5a5a5a5a5a5a5a5 = Some bits_2_5.
Proof. vm_compute. repeat split. Qed.

Example dword_halves_2_5 :
  splitToDwords junk_a5 boxed_conservative_gcc ilp32 bits_2_5
    = Some (0, 0x40040000) /\
  splitToDwords junk_a5 boxed_conservative_gcc ilp32_be bits_2_5
    = Some (0x40040000, 0) /\
  MR_float_from_dword junk_count boxed_precise_clang ilp32 0 0x40040000
    = Some bits_2_5.
Proof. vm_compute. repeat split. Qed.

(** The scenario of a boxed, conservative 32-bit build: the two words stored
    at the address boxing returns are the halves the dword codec gives. *)
Example boxed_cell_words_are_dword_halves :
  let r := MR_float_to_word_boxed (GC_fixed 64) boxed_conservative_gcc ilp32
             bits_2_5 (heap_at 4) in
  (obj_value ilp32 <$> load_bytes (fst r) 4 (memory (snd r)),
   obj_value ilp32 <$> load_bytes (fst r + 4) 4 (memory (snd r)))
  = (MR_float_word_bits junk_a5 boxed_conservative_gcc ilp32 bits_2_5 0,
     MR_float_word_bits junk_a5 boxed_conservative_gcc ilp32 bits_2_5 1).
Proof. vm_compute. reflexivity. Qed.

(** ** Classifier *)

(** The fallback functions test the fields that decide the IEEE class. *)
Lemma is_nan_func_ieee d f :
  MR_is_nan_func d f
  = c_bool (ieee_is_nan (decode (format_of (MR_Float d)) f)).
Proof.
  unfold MR_is_nan_func, decode. cbv zeta.
  set (fmt := format_of (MR_Float d)).
  destruct (exp_field fmt f =? Z.ones (ebits fmt)); cbn [andb].
  - destruct (man_field fmt f =? 0); reflexivity.
  - destruct (exp_field fmt f =? 0); [|reflexivity].
    destruct (man_field fmt f); reflexivity.
Qed.

Lemma is_infinite_func_ieee d f :
  MR_is_infinite_func d f
  = c_bool (ieee_is_infinite (decode (format_of (MR_Float d)) f)).
Proof.
  unfold MR_is_infinite_func, decode. cbv zeta.
  set (fmt := format_of (MR_Float d)).
  destruct (exp_field fmt f =? Z.ones (ebits fmt)); cbn [andb].
  - destruct (man_field fmt f =? 0); reflexivity.
  - destruct (exp_field fmt f =? 0); [|reflexivity].
    destruct (man_field fmt f); reflexivity.
Qed.

Lemma is_nan_ieee d f :
  MR_is_nan ieee_libm d f
  = c_bool (ieee_is_nan (decode (format_of (MR_Float d)) f)).
Proof.
  unfold MR_is_nan. destruct (199901 <=? STDC_VERSION d).
  - unfold MR_Float. destruct (MR_USE_SINGLE_PREC_FLOAT d); reflexivity.
  - apply is_nan_func_ieee.
Qed.

Lemma is_infinite_ieee d f :
  MR_is_infinite ieee_libm d f
  = c_bool (ieee_is_infinite (decode (format_of (MR_Float d)) f)).
Proof.
  unfold MR_is_infinite.
  destruct ((199901 <=? STDC_VERSION d) && negb (MR_SOLARIS d)).
  - unfold MR_Float. destruct (MR_USE_SINGLE_PREC_FLOAT d); reflexivity.
  - apply is_infinite_func_ieee.
Qed.

Lemma is_finite_ieee d f :
  MR_is_finite ieee_libm d f
  = c_bool (ieee_is_finite (decode (format_of (MR_Float d)) f)).
Proof.
  unfold MR_is_finite.
  destruct ((199901 <=? STDC_VERSION d) && negb (MR_SOLARIS d)) eqn:E.
  - reflexivity.
  - rewrite is_infinite_ieee, is_nan_ieee.
    destruct (decode (format_of (MR_Float d)) f); reflexivity.
Qed.

(** On every build, with an IEEE C library, the three macros compute the
    IEEE class of the number their argument stands for. *)
Lemma classes_ieee d f :
  classes ieee_libm d f
  = (ieee_is_nan (decode (format_of (MR_Float d)) f),
     ieee_is_infinite (decode (format_of (MR_Float d)) f),
     ieee_is_finite (decode (format_of (MR_Float d)) f)).
Proof.
  unfold classes. rewrite is_nan_ieee, is_infinite_ieee, is_finite_ieee.
  destruct (decode (format_of (MR_Float d)) f); reflexivity.
Qed.

(** C6.  On every build, with a C library that follows IEEE 754: [0.0] and
    [-0.0] are finite and neither NaN nor infinite; [1.0 / 0.0] is infinite
    and neither finite nor NaN; [0.0 / 0.0], and every other NaN bit pattern,
    is NaN and neither finite nor infinite; the largest finite number is
    finite.  And with any C library, where the header has no [isfinite] to
    use (before C99, or on Solaris), [MR_is_finite(f)] is
    [!(MR_is_infinite(f) || MR_is_nan(f))]. *)
Theorem classifiers_agree_with_ieee d :
  let fmt := format_of (MR_Float d) in
  classes ieee_libm d (encode fmt (S754_zero false)) = (false, false, true) /\
  classes ieee_libm d (encode fmt (S754_zero true)) = (false, false, true) /\
  classes ieee_libm d (encode fmt (one_over_zero fmt)) = (false, true, false) /\
  classes ieee_libm d (encode fmt (zero_over_zero fmt)) = (true, false, false) /\
  (forall f, decode fmt f = S754_nan ->
             classes ieee_libm d f = (true, false, false)) /\
  classes ieee_libm d (encode fmt (SF_max fmt)) = (false, false, true) /\
  (forall L f,
     (199901 <=? STDC_VERSION d) && negb (MR_SOLARIS d) = false ->
     MR_is_finite L d f = c_not (c_or (MR_is_infinite L d f) (MR_is_nan L d f))).
Proof.
  cbv zeta. rewrite !classes_ieee.
  repeat split.
  1-4, 6: unfold MR_Float; destruct (MR_USE_SINGLE_PREC_FLOAT d);
    vm_compute; reflexivity.
  - intros f Hf. rewrite classes_ieee, Hf. reflexivity.
  - intros L f Hno. unfold MR_is_finite. rewrite Hno.
    unfold c_and, c_not, c_or.
    destruct (MR_is_infinite L d f =? 0), (MR_is_nan L d f =? 0); reflexivity.
Qed.

Lemma classifiers_agree_with_ieee_witness :
  (decode (format_of (MR_Float single_boxed_conf_c89)) 0x7fc00001 = S754_nan /\
   (199901 <=? STDC_VERSION single_boxed_conf_c89)
   && negb (MR_SOLARIS single_boxed_conf_c89) = false) /\
  classes ieee_libm single_boxed_conf_c89 0x7fc00001 = (true, false, false) /\
  MR_is_finite ieee_libm single_boxed_conf_c89 0x7fc00001
  = c_not (c_or (MR_is_infinite ieee_libm single_boxed_conf_c89 0x7fc00001)
                (MR_is_nan ieee_libm single_boxed_conf_c89 0x7fc00001)).
Proof.
  assert (H1 : decode (format_of (MR_Float single_boxed_conf_c89)) 0x7fc00001
               = S754_nan) by (vm_compute; reflexivity).
  assert (H2 : (199901 <=? STDC_VERSION single_boxed_conf_c89)
               && negb (MR_SOLARIS single_boxed_conf_c89) = false)
    by reflexivity.
  pose proof (classifiers_agree_with_ieee single_boxed_conf_c89) as T.
  cbv zeta in T.
  destruct T as (_ & _ & _ & _ & Tnan & _ & Tfin).
  split; [split; assumption|].
  split; [exact (Tnan 0x7fc00001 H1) | exact (Tfin ieee_libm 0x7fc00001 H2)].
Defined.

Example classes_of_special_doubles :
  encode binary64 (S754_zero true) = 0x8000000000000000 /\
  encode binary64 (one_over_zero binary64) = 0x7ff0000000000000 /\
  encode binary64 (zero_over_zero binary64) = 0x7ff8000000000000 /\
  encode binary64 (SF_max binary64) = 0x7fefffffffffffff /\
  classes ieee_libm boxed_precise_gcc 0xfff0000000000000 = (false, true, false) /\
  classes ieee_libm boxed_precise_gcc bits_2_5 = (false, false, true).
Proof. vm_compute. repeat split. Qed.

(** ** Formatting *)

Lemma length_string_of_list_ascii l :
  String.length (string_of_list_ascii l) = length l.
Proof. induction l as [|c l IH]; cbn; [reflexivity | now rewrite IH]. Qed.

Lemma length_digits_fixed n : forall r, length (digits_fixed n r) = n.
Proof.
  induction n as [|n IH]; intros r; cbn [digits_fixed].
  - reflexivity.
  - rewrite length_app, IH. cbn. lia.
Qed.

Lemma length_sign_chars s : (length (sign_chars s) <= 1)%nat.
Proof. destruct s; cbn; lia. Qed.

Lemma ilog10_fuel_range fuel : forall n,
  0 <= ilog10_fuel fuel n <= Z.of_nat fuel.
Proof.
  induction fuel as [|k IH]; intros n; cbn [ilog10_fuel].
  - lia.
  - destruct (n <? 10); [lia|]. specialize (IH (n / 10)). lia.
Qed.

Lemma ilog10_range n : 0 <= ilog10 n <= Z.log2 n.
Proof.
  unfold ilog10.
  pose proof (ilog10_fuel_range (Z.to_nat (Z.log2 n)) n) as H.
  pose proof (Z.log2_nonneg n). lia.
Qed.

(** A number below [10 ^ (k + 1)] has at most [k + 1] digits. *)
Lemma ilog10_fuel_small fuel : forall n k,
  0 <= k -> n < 10 ^ (k + 1) -> ilog10_fuel fuel n <= k.
Proof.
  induction fuel as [|fuel IH]; intros n k Hk Hn; cbn [ilog10_fuel].
  - assumption.
  - destruct (Z.ltb_spec n 10) as [|Hge]; [assumption|].
    assert (Hk1 : 1 <= k).
    { destruct (Z.eq_dec k 0) as [->|]; [|lia]. cbn in Hn. lia. }
    assert (H : ilog10_fuel fuel (n / 10) <= k - 1); [|lia].
    apply IH; [lia|].
    replace (k - 1 + 1) with k by lia.
    apply Z.div_lt_upper_bound; [lia|].
    replace (k + 1) with (1 + k) in Hn by lia.
    rewrite Z.pow_add_r in Hn by lia. exact Hn.
Qed.

(** The fuel of [ilog10] is enough: it brackets [n] between two powers of
    ten. *)
Lemma ilog10_fuel_spec fuel : forall n,
  1 <= n -> n < 2 ^ (Z.of_nat fuel + 1) ->
  10 ^ ilog10_fuel fuel n <= n < 10 ^ (ilog10_fuel fuel n + 1).
Proof.
  induction fuel as [|fuel IH]; intros n H1 Hn; cbn [ilog10_fuel].
  - cbn in Hn. cbn. lia.
  - destruct (Z.ltb_spec n 10) as [|Hge]; [cbn; lia|].
    assert (Hq : 1 <= n / 10) by (apply Z.div_le_lower_bound; lia).
    assert (Hq' : n / 10 < 2 ^ (Z.of_nat fuel + 1)).
    { apply Z.div_lt_upper_bound; [lia|].
      replace (Z.of_nat (S fuel) + 1) with (1 + (Z.of_nat fuel + 1)) in Hn
        by lia.
      rewrite Z.pow_add_r in Hn by lia. change (2 ^ 1) with 2 in Hn.
      assert (0 < 2 ^ (Z.of_nat fuel + 1)) by (apply Z.pow_pos_nonneg; lia).
      lia. }
    specialize (IH (n / 10) Hq Hq').
    pose proof (ilog10_fuel_range fuel (n / 10)) as Hr.
    replace (1 + ilog10_fuel fuel (n / 10))
      with (ilog10_fuel fuel (n / 10) + 1) by lia.
    rewrite !Z.pow_add_r by lia. change (10 ^ 1) with 10.
    pose proof (Z.div_mod n 10 ltac:(lia)) as Hdm.
    pose proof (Z.mod_pos_bound n 10 ltac:(lia)) as Hm.
    rewrite Z.pow_add_r in IH by lia. change (10 ^ 1) with 10 in IH.
    lia.
Qed.

Lemma ilog10_spec n :
  1 <= n -> 10 ^ ilog10 n <= n < 10 ^ (ilog10 n + 1).
Proof.
  intros H1. unfold ilog10. apply ilog10_fuel_spec; [assumption|].
  rewrite Z2Nat.id by apply Z.log2_nonneg.
  apply Z.log2_spec. lia.
Qed.

Lemma length_exponent_digits x :
  0 <= x < 10 ^ 4 -> (length (exponent_digits x) <= 4)%nat.
Proof.
  intros [H0 H4]. unfold exponent_digits. rewrite length_digits_fixed.
  assert (H : ilog10 x <= 3) by (apply ilog10_fuel_small; [lia | exact H4]).
  pose proof (ilog10_range x). lia.
Qed.

Lemma decimal_exponent_range num den :
  - Z.log2 den - 1 <= decimal_exponent num den <= Z.log2 num.
Proof.
  unfold decimal_exponent. cbv zeta.
  pose proof (ilog10_range num). pose proof (ilog10_range den).
  destruct (scale10 _ num den) as [n dn].
  destruct (dn <=? n); lia.
Qed.

Lemma to_decimal_exponent_range P num den :
  - Z.log2 den - 1 <= snd (to_decimal P num den) <= Z.log2 num + 1.
Proof.
  unfold to_decimal. cbv zeta.
  pose proof (decimal_exponent_range num den).
  destruct (scale10 _ num den) as [n dn].
  destruct (10 ^ P <=? round_half_even n dn); cbn [snd]; lia.
Qed.

(** *** The decimal conversion is the one intended *)

Lemma pow10_succ k : 0 <= k -> 10 ^ (k + 1) = 10 * 10 ^ k.
Proof. intros H. rewrite Z.pow_add_r by lia. change (10 ^ 1) with 10. ring. Qed.

(** [decimal_exponent] brackets a positive fraction between two consecutive
    powers of ten: scaled by [10 ^ (- X)] it lies in [[1, 10)]. *)
Lemma decimal_exponent_spec num den :
  1 <= num -> 1 <= den ->
  let '(n, dn) := scale10 (- decimal_exponent num den) num den in
  dn <= n < 10 * dn.
Proof.
  intros Hn Hd. unfold decimal_exponent. cbv zeta.
  pose proof (ilog10_spec num Hn) as [Ha Ha'].
  pose proof (ilog10_spec den Hd) as [Hb Hb'].
  pose proof (ilog10_range num) as [Ha0 _].
  pose proof (ilog10_range den) as [Hb0 _].
  rewrite pow10_succ in Ha', Hb' by assumption.
  set (a := ilog10 num) in *. set (b := ilog10 den) in *.
  assert (HA : 0 < 10 ^ a) by (apply Z.pow_pos_nonneg; lia).
  assert (HB : 0 < 10 ^ b) by (apply Z.pow_pos_nonneg; lia).
  unfold scale10.
  destruct (Z.leb_spec 0 (- (a - b))) as [Hk|Hk]; cbv beta iota.
  - (* a <= b *)
    assert (E : 10 ^ b = 10 ^ a * 10 ^ (- (a - b))).
    { rewrite <- Z.pow_add_r by lia. f_equal. lia. }
    assert (HK : 0 < 10 ^ (- (a - b))) by (apply Z.pow_pos_nonneg; lia).
    destruct (Z.leb_spec den (num * 10 ^ (- (a - b)))) as [Hge|Hlt].
    + destruct (Z.leb_spec 0 (- (a - b))); [|lia].
      set (K := 10 ^ (- (a - b))) in *. nia.
    + destruct (Z.leb_spec 0 (- (a - b - 1))); [|lia].
      replace (- (a - b - 1)) with (- (a - b) + 1) by lia.
      rewrite pow10_succ by lia.
      set (K := 10 ^ (- (a - b))) in *. nia.
  - (* b < a *)
    replace (- - (a - b)) with (a - b) by lia.
    assert (E : 10 ^ a = 10 ^ b * 10 ^ (a - b)).
    { rewrite <- Z.pow_add_r by lia. f_equal. lia. }
    assert (HK : 0 < 10 ^ (a - b)) by (apply Z.pow_pos_nonneg; lia).
    destruct (Z.leb_spec (den * 10 ^ (a - b)) num) as [Hge|Hlt].
    + destruct (Z.leb_spec 0 (- (a - b))); [lia|].
      replace (- - (a - b)) with (a - b) by lia.
      set (K := 10 ^ (a - b)) in *. nia.
    + assert (E' : 10 ^ (a - b) = 10 * 10 ^ (a - b - 1)).
      { rewrite <- pow10_succ by lia. f_equal. lia. }
      assert (HK' : 0 < 10 ^ (a - b - 1)) by (apply Z.pow_pos_nonneg; lia).
      destruct (Z.leb_spec 0 (- (a - b - 1))) as [H1|H1].
      * assert (a - b = 1) as Hab by lia.
        replace (- (a - b - 1)) with 0 by lia.
        rewrite Hab in *. change (10 ^ (1 - 1)) with 1 in *.
        change (10 ^ 0) with 1. change (10 ^ 1) with 10 in *. nia.
      * replace (- - (a - b - 1)) with (a - b - 1) by lia.
        set (K' := 10 ^ (a - b - 1)) in *. nia.
Qed.

Lemma round_half_even_nearest n dn :
  0 < dn -> 2 * Z.abs (n - round_half_even n dn * dn) <= dn.
Proof.
  intros Hdn. unfold round_half_even. cbv zeta.
  pose proof (Z.div_mod n dn ltac:(lia)) as Hdm.
  pose proof (Z.mod_pos_bound n dn Hdn) as Hm.
  destruct (Z.compare_spec (2 * (n mod dn)) dn) as [E|E|E];
    [destruct (Z.even (n / dn))| |]; nia.
Qed.

Lemma round_half_even_range n dn :
  n / dn <= round_half_even n dn <= n / dn + 1.
Proof.
  unfold round_half_even. cbv zeta.
  destruct (2 * (n mod dn) ?= dn); [destruct (Z.even (n / dn))| |]; lia.
Qed.

(** Scaling by [10 ^ (k + j)] is scaling by [10 ^ k] and then by
    [10 ^ j]. *)
Lemma scale10_shift k j num den :
  0 <= j -> 0 < den ->
  let '(n0, dn0) := scale10 k num den in
  let '(n, dn) := scale10 (k + j) num den in
  n * dn0 = n0 * dn * 10 ^ j /\ 0 < dn0 /\ 0 < dn.
Proof.
  intros Hj Hden. unfold scale10.
  destruct (Z.leb_spec 0 k) as [Hk|Hk];
    destruct (Z.leb_spec 0 (k + j)) as [Hkj|Hkj]; try lia.
  - rewrite Z.pow_add_r by lia. repeat split; (lia || ring).
  - assert (E : 10 ^ j = 10 ^ (k + j) * 10 ^ (- k)).
    { rewrite <- Z.pow_add_r by lia. f_equal. lia. }
    assert (0 < 10 ^ (- k)) by (apply Z.pow_pos_nonneg; lia).
    rewrite E. repeat split; (lia || ring || nia).
  - assert (E : 10 ^ (- k) = 10 ^ (- (k + j)) * 10 ^ j).
    { rewrite <- Z.pow_add_r by lia. f_equal. lia. }
    assert (0 < 10 ^ (- k)) by (apply Z.pow_pos_nonneg; lia).
    assert (0 < 10 ^ (- (k + j))) by (apply Z.pow_pos_nonneg; lia).
    rewrite E. repeat split; (lia || ring || nia).
Qed.

(** The conversion yields exactly [P] significant digits, the first of them
    not zero. *)
Lemma to_decimal_digits P num den :
  1 <= P -> 1 <= num -> 1 <= den ->
  10 ^ (P - 1) <= fst (to_decimal P num den) < 10 ^ P.
Proof.
  intros HP Hn Hd. unfold to_decimal. cbv zeta.
  pose proof (decimal_exponent_spec num den Hn Hd) as HX.
  set (X := decimal_exponent num den) in *.
  pose proof (scale10_shift (- X) (P - 1) num den ltac:(lia) ltac:(lia)) as Hs.
  replace (- X + (P - 1)) with (P - 1 - X) in Hs by lia.
  destruct (scale10 (- X) num den) as [n0 dn0].
  destruct (scale10 (P - 1 - X) num den) as [n dn].
  destruct Hs as (Hs & Hdn0 & Hdn).
  assert (HT : 0 < 10 ^ (P - 1)) by (apply Z.pow_pos_nonneg; lia).
  assert (EP : 10 ^ P = 10 * 10 ^ (P - 1)).
  { rewrite <- pow10_succ by lia. f_equal. lia. }
  rewrite EP. set (T := 10 ^ (P - 1)) in *.
  assert (Hlo : T * dn <= n) by nia.
  assert (Hhi : n < 10 * T * dn) by nia.
  assert (Hq : T <= n / dn) by (apply Z.div_le_lower_bound; lia).
  assert (Hq' : n / dn < 10 * T) by (apply Z.div_lt_upper_bound; lia).
  pose proof (round_half_even_range n dn) as Hr.
  destruct (Z.leb_spec (10 * T) (round_half_even n dn)) as [Hc|Hc];
    cbn [fst].
  - assert (E : round_half_even n dn = T * 10) by lia.
    rewrite E, Z.div_mul by lia. lia.
  - lia.
Qed.

(** *** Lengths *)

Lemma length_style_e s P r X :
  - 10 ^ 4 < X < 10 ^ 4 ->
  (length (style_e s P r X) <= Z.to_nat P + 8)%nat.
Proof.
  intros HX. unfold style_e. cbv zeta.
  rewrite !length_app, length_firstn, length_skipn, length_digits_fixed.
  pose proof (length_sign_chars s).
  pose proof (length_exponent_digits (Z.abs X) ltac:(lia)).
  cbn [length]. lia.
Qed.

Lemma length_style_f s P r X :
  -4 <= X ->
  (length (style_f s P r X) <= Z.to_nat P + 6)%nat.
Proof.
  intros HX. unfold style_f. cbv zeta.
  pose proof (length_sign_chars s).
  destruct (X <? 0) eqn:E.
  - rewrite !length_app, repeat_length, length_digits_fixed.
    cbn [length]. lia.
  - rewrite !length_app, length_firstn, length_skipn, length_digits_fixed.
    cbn [length]. lia.
Qed.

Lemma exp_field_range fmt f :
  0 <= ebits fmt -> 0 <= exp_field fmt f < 2 ^ ebits fmt.
Proof.
  intros H. unfold exp_field. rewrite Z.land_ones by assumption.
  apply Z.mod_pos_bound. now apply Z.pow_pos_nonneg.
Qed.

Lemma man_field_range fmt f :
  0 <= mbits fmt -> 0 <= man_field fmt f < 2 ^ mbits fmt.
Proof.
  intros H. unfold man_field. rewrite Z.land_ones by assumption.
  apply Z.mod_pos_bound. now apply Z.pow_pos_nonneg.
Qed.

Ltac format_constants :=
  change (bias binary32) with 127 in *;
  change (bias binary64) with 1023 in *;
  change (Z.ones 8) with 255 in *;
  change (Z.ones 11) with 2047 in *;
  change (2 ^ 8) with 256 in *;
  change (2 ^ 11) with 2048 in *;
  change (2 ^ 23) with 8388608 in *;
  change (2 ^ 52) with 4503599627370496 in *;
  change (2 ^ 53) with 9007199254740992 in *.

(** The finite numbers of binary32 and binary64: a significand below [2^53]
    and an exponent between -1074 and 972. *)
Lemma decode_finite_range t f s m e :
  decode (format_of t) f = S754_finite s m e ->
  Zpos m < 2 ^ 53 /\ -1074 <= e <= 972.
Proof.
  unfold decode. cbv zeta.
  pose proof (exp_field_range (format_of t) f) as He.
  pose proof (man_field_range (format_of t) f) as Hm.
  set (E := exp_field (format_of t) f) in *.
  set (M := man_field (format_of t) f) in *.
  destruct (Z.eqb_spec E (Z.ones (ebits (format_of t)))) as [|Hones].
  { destruct (M =? 0); discriminate. }
  destruct (Z.eqb_spec E 0) as [HE0|HE0].
  - destruct M as [|p|p] eqn:HM; try discriminate.
    intros [= _ <- <-].
    destruct t; cbn in *; format_constants; lia.
  - intros [= _ <- <-].
    destruct t; cbn in Hones, He, Hm |- *; format_constants;
      rewrite Z2Pos.id by lia; lia.
Qed.

Lemma sprintf_g_exponent_range t P f s m e :
  decode (format_of t) f = S754_finite s m e ->
  - 10 ^ 4
  < snd (to_decimal P (Zpos m * 2 ^ Z.max e 0) (2 ^ Z.max (- e) 0))
  < 10 ^ 4.
Proof.
  intros D. apply decode_finite_range in D. destruct D as [Hm He].
  pose proof (to_decimal_exponent_range P
                (Zpos m * 2 ^ Z.max e 0) (2 ^ Z.max (- e) 0)) as H.
  rewrite Z.log2_pow2 in H by lia.
  rewrite Z.log2_mul_pow2 in H by lia.
  assert (Z.log2 (Zpos m) < 53) by (apply Z.log2_lt_pow2; lia).
  change (10 ^ 4) with 10000. lia.
Qed.

Lemma length_sprintf_g t p f :
  1 <= p ->
  (String.length (sprintf_g (format_of t) p f) <= Z.to_nat p + 8)%nat.
Proof.
  intros Hp. unfold sprintf_g. cbv zeta.
  destruct (Z.ltb_spec p 0) as [|_]; [lia|].
  destruct (Z.eqb_spec p 0) as [|_]; [lia|].
  rewrite length_string_of_list_ascii.
  destruct (decode (format_of t) f) as [s|s| |s m e] eqn:D.
  - pose proof (length_style_f s p 0 0 ltac:(lia)). lia.
  - rewrite length_app. pose proof (length_sign_chars s). cbn [length list_ascii_of_string]. lia.
  - rewrite length_app.
    pose proof (length_sign_chars (sign_field (format_of t) f)).
    cbn [length list_ascii_of_string]. lia.
  - pose proof (sprintf_g_exponent_range t p f s m e D) as HX.
    destruct (to_decimal p _ _) as [r X]. cbn [snd] in HX.
    destruct (Z.ltb_spec X (-4)) as [|H4]; cbn [orb].
    + apply length_style_e. exact HX.
    + destruct (p <=? X).
      * apply length_style_e. exact HX.
      * pose proof (length_style_f s p r X H4). lia.
Qed.

Lemma length_sprintf_until_round_trip sscanf d ps last f bound :
  Forall (fun p => 1 <= p <= bound) ps -> 1 <= last <= bound ->
  (String.length (sprintf_until_round_trip sscanf d ps last f)
   <= Z.to_nat bound + 8)%nat.
Proof.
  intros Hps Hlast. induction Hps as [|p ps Hp _ IH];
    cbn [sprintf_until_round_trip].
  - pose proof (length_sprintf_g (MR_Float d) last f ltac:(lia)). lia.
  - cbv zeta. destruct (c_float_eq _ _ _); [|exact IH].
    pose proof (length_sprintf_g (MR_Float d) p f ltac:(lia)). lia.
Qed.

Lemma precisions_below_max_range d :
  Forall (fun p => 1 <= p <= MR_FLT_MAX_PRECISION d) (precisions_below_max d).
Proof.
  unfold precisions_below_max, MR_FLT_MAX_PRECISION, MR_FLT_MIN_PRECISION.
  destruct (MR_USE_SINGLE_PREC_FLOAT d); cbn; repeat constructor; lia.
Qed.

(** What [MR_sprintf_float] prints has at most [MR_FLT_MAX_PRECISION + 8]
    characters: 25 for a double. *)
Lemma length_MR_sprintf_float L sscanf d f :
  (String.length (MR_sprintf_float L sscanf d f)
   <= Z.to_nat (MR_FLT_MAX_PRECISION d) + 8)%nat.
Proof.
  unfold MR_sprintf_float.
  assert (HP : 9 <= MR_FLT_MAX_PRECISION d).
  { unfold MR_FLT_MAX_PRECISION, MR_FLT_MIN_PRECISION.
    destruct (MR_USE_SINGLE_PREC_FLOAT d); lia. }
  destruct (c_true (MR_is_nan L d f)); [cbn [String.length]; lia|].
  destruct (c_true (MR_is_infinite L d f)).
  - destruct (c_float_lt _ f 0); cbn [String.length]; lia.
  - apply length_sprintf_until_round_trip.
    + apply precisions_below_max_range.
    + lia.
Qed.

(** C7.  Whatever the float, the C library's classification and its reading
    back of the text, the string [MR_sprintf_float] produces fits, with its
    terminating NUL, the [MR_SPRINTF_FLOAT_BUF_SIZE] = 80 characters of the
    buffer [MR_float_to_string] gives it. *)
Theorem sprintf_float_fits_buffer L sscanf d f :
  Z.of_nat (String.length (MR_sprintf_float L sscanf d f)) + 1
  <= MR_SPRINTF_FLOAT_BUF_SIZE /\
  MR_float_to_string L sscanf d f = Some (MR_sprintf_float L sscanf d f).
Proof.
  assert (H : Z.of_nat (String.length (MR_sprintf_float L sscanf d f)) + 1
              <= MR_SPRINTF_FLOAT_BUF_SIZE).
  { pose proof (length_MR_sprintf_float L sscanf d f) as Hlen.
    unfold MR_SPRINTF_FLOAT_BUF_SIZE.
    unfold MR_FLT_MAX_PRECISION, MR_FLT_MIN_PRECISION in Hlen.
    destruct (MR_USE_SINGLE_PREC_FLOAT d); lia. }
  split; [exact H|].
  unfold MR_float_to_string, write_buf.
  destruct (Z.leb_spec
              (Z.of_nat (String.length (MR_sprintf_float L sscanf d f)) + 1)
              MR_SPRINTF_FLOAT_BUF_SIZE); [reflexivity | lia].
Qed.

Example sprintf_float_samples :
  MR_sprintf_float ieee_libm (sscanf_always bits_3_14159) boxed_precise_gcc
    bits_3_14159 = "3.14159000000000"%string /\
  MR_sprintf_float ieee_libm sscanf_never boxed_precise_gcc
    0xffefffffffffffff = "-1.7976931348623157e+308"%string /\
  MR_sprintf_float ieee_libm sscanf_never boxed_precise_gcc 1
    = "4.9406564584124654e-324"%string /\
  MR_sprintf_float ieee_libm sscanf_never boxed_precise_gcc
    0xfff0000000000000 = "-infinity"%string /\
  MR_sprintf_float ieee_libm sscanf_never single_boxed_conf_c89 0x7fc00001
    = "nan"%string /\
  sprintf_g binary64 15 0x3F1A36E2EB1C432D = "0.000100000000000000"%string /\
  sprintf_g binary64 15 0x42d6bcc41e900000 = "100000000000000."%string.
Proof. vm_compute. repeat split. Qed.

(** * Further properties of the header *)

(** ** [MR_FLOAT_WORDS] *)

(** Rounding a quotient up. *)
Lemma div_round_up_cover f w :
  0 < w -> 0 <= f ->
  f <= (f + w - 1) / w * w /\ ((f + w - 1) / w - 1) * w < f.
Proof.
  intros Hw Hf.
  pose proof (Z.div_mod (f + w - 1) w ltac:(lia)) as Hdm.
  pose proof (Z.mod_pos_bound (f + w - 1) w Hw) as Hm.
  split; nia.
Qed.

(** X1.  [MR_FLOAT_WORDS] is the least number of words that hold an
    [MR_Float]: that many words are enough and one fewer is not. *)
Theorem MR_FLOAT_WORDS_least_cover d a :
  0 < sizeof_MR_Word a -> 0 <= sizeof_MR_Float d a ->
  sizeof_MR_Float d a <= MR_FLOAT_WORDS d a * sizeof_MR_Word a /\
  (MR_FLOAT_WORDS d a - 1) * sizeof_MR_Word a < sizeof_MR_Float d a.
Proof.
  intros Hw Hf. unfold MR_FLOAT_WORDS.
  now apply div_round_up_cover.
Qed.

Lemma MR_FLOAT_WORDS_least_cover_witness :
  (0 < sizeof_MR_Word ilp32 /\ 0 <= sizeof_MR_Float boxed_precise_gcc ilp32) /\
  sizeof_MR_Float boxed_precise_gcc ilp32
  <= MR_FLOAT_WORDS boxed_precise_gcc ilp32 * sizeof_MR_Word ilp32.
Proof.
  assert (H1 : 0 < sizeof_MR_Word ilp32) by reflexivity.
  assert (H2 : 0 <= sizeof_MR_Float boxed_precise_gcc ilp32)
    by (vm_compute; discriminate).
  split; [split; assumption|].
  exact (proj1 (MR_FLOAT_WORDS_least_cover boxed_precise_gcc ilp32 H1 H2)).
Defined.

(** ** Memory *)

Lemma store_bytes_outside bs : forall p q m,
  q < p \/ p + Z.of_nat (length bs) <= q ->
  store_bytes p bs m !! q = m !! q.
Proof.
  induction bs as [|b bs IH]; intros p q m Hq; cbn [store_bytes].
  - reflexivity.
  - cbn [length] in Hq. rewrite IH by lia. apply lookup_insert_ne. lia.
Qed.

Lemma store_bytes_app bs1 : forall bs2 p m,
  store_bytes p (bs1 ++ bs2) m
  = store_bytes (p + Z.of_nat (length bs1)) bs2 (store_bytes p bs1 m).
Proof.
  induction bs1 as [|b bs1 IH]; intros bs2 p m; cbn [app store_bytes length].
  - now rewrite Z.add_0_r.
  - rewrite IH. f_equal. lia.
Qed.

(** A read depends only on the bytes it covers. *)
Lemma load_bytes_ext n : forall p m m',
  (forall q, p <= q < p + Z.of_nat n -> m' !! q = m !! q) ->
  load_bytes p n m' = load_bytes p n m.
Proof.
  induction n as [|n IH]; intros p m m' H; cbn [load_bytes].
  - reflexivity.
  - rewrite H by lia. rewrite (IH (p + 1) m m'); [reflexivity|].
    intros q Hq. apply H. lia.
Qed.

(** Reading a slice of what one write put in memory. *)
Lemma load_store_slice bs : forall p m off n,
  (off + n <= length bs)%nat ->
  load_bytes (p + Z.of_nat off) n (store_bytes p bs m)
  = Some (firstn n (skipn off bs)).
Proof.
  intros p m off n Hlen.
  set (sl := firstn n (skipn off bs)).
  assert (Hsl : length sl = n).
  { subst sl. rewrite length_firstn, length_skipn. lia. }
  assert (Hbs : bs = firstn off bs ++ sl ++ skipn n (skipn off bs)).
  { subst sl. now rewrite !firstn_skipn. }
  rewrite Hbs at 1.
  rewrite !store_bytes_app, length_firstn, Nat.min_l by lia.
  rewrite (load_bytes_ext n _
             (store_bytes (p + Z.of_nat off) sl
                (store_bytes p (firstn off bs) m))).
  - pose proof (load_store_bytes sl (p + Z.of_nat off)
                  (store_bytes p (firstn off bs) m)) as H.
    now rewrite Hsl in H.
  - intros q Hq. apply store_bytes_outside. left. lia.
Qed.

(** ** Boxing and the rest of memory *)

Lemma make_hp_float_aligned_memory GC d a h :
  memory (MR_make_hp_float_aligned GC d a h) = memory h.
Proof.
  unfold MR_make_hp_float_aligned, MR_hp_alloc_atomic_msg.
  destruct (MR_BOXED_FLOAT d), (MR_CONSERVATIVE_GC d); try reflexivity.
  destruct (negb _); reflexivity.
Qed.

Lemma make_hp_float_aligned_hp_range GC d a h :
  0 <= sizeof_MR_Word a -> MR_CONSERVATIVE_GC d = false ->
  MR_hp h <= MR_hp (MR_make_hp_float_aligned GC d a h)
  <= MR_hp h + sizeof_MR_Word a.
Proof.
  intros Hw Hc. unfold MR_make_hp_float_aligned, MR_hp_alloc_atomic_msg.
  rewrite Hc. destruct (MR_BOXED_FLOAT d); [|lia].
  destruct (negb _); cbn [MR_hp]; lia.
Qed.

Lemma float_to_word_boxed_memory GC d a f h :
  memory (snd (MR_float_to_word_boxed GC d a f h))
  = store_bytes (fst (MR_float_to_word_boxed GC d a f h))
      (obj_bytes a (sizeof_MR_Float d a)
         (float_move a move_store (MR_Float d) f))
      (memory h).
Proof.
  unfold MR_float_to_word_boxed.
  destruct (MR_CONSERVATIVE_GC d); cbv zeta; cbn [fst snd];
    unfold assign_MR_Float, store_MR_Float; cbn [MR_hp memory];
    unfold MR_hp_alloc_atomic_msg at 2; cbn [memory];
    rewrite ?make_hp_float_aligned_memory; reflexivity.
Qed.

(** X2.  On every build, [MR_float_to_word] changes no byte of memory
    outside the [MR_FLOAT_WORDS] words of the block it returns: what it
    writes stays inside what it allocated. *)
Theorem float_to_word_writes_only_its_block GC j d a f h q :
  0 < sizeof_MR_Word a -> 0 <= sizeof_MR_Float d a ->
  q < fst (MR_float_to_word GC j d a f h) \/
  fst (MR_float_to_word GC j d a f h)
  + MR_FLOAT_WORDS d a * sizeof_MR_Word a <= q ->
  memory (snd (MR_float_to_word GC j d a f h)) !! q = memory h !! q.
Proof.
  intros Hw Hf. unfold MR_float_to_word.
  destruct (MR_BOXED_FLOAT d); [|reflexivity].
  intros Hq. rewrite float_to_word_boxed_memory.
  apply store_bytes_outside. rewrite length_obj_bytes.
  pose proof (div_round_up_cover _ _ Hw Hf) as Hcov.
  unfold MR_FLOAT_WORDS in *. lia.
Qed.

Lemma float_to_word_writes_only_its_block_witness :
  (0 < sizeof_MR_Word ilp32 /\
   0 <= sizeof_MR_Float boxed_precise_gcc ilp32 /\
   (100 < fst (MR_float_to_word GC_at_cursor junk_a5 boxed_precise_gcc ilp32
                 bits_2_5 (store_MR_Word ilp32 100 7 (heap_at 104))) \/
    fst (MR_float_to_word GC_at_cursor junk_a5 boxed_precise_gcc ilp32
           bits_2_5 (store_MR_Word ilp32 100 7 (heap_at 104)))
    + MR_FLOAT_WORDS boxed_precise_gcc ilp32 * sizeof_MR_Word ilp32 <= 100)) /\
  memory (snd (MR_float_to_word GC_at_cursor junk_a5 boxed_precise_gcc ilp32
                 bits_2_5 (store_MR_Word ilp32 100 7 (heap_at 104)))) !! 100
  = memory (store_MR_Word ilp32 100 7 (heap_at 104)) !! 100.
Proof.
  assert (H1 : 0 < sizeof_MR_Word ilp32) by reflexivity.
  assert (H2 : 0 <= sizeof_MR_Float boxed_precise_gcc ilp32)
    by (vm_compute; discriminate).
  assert (H3 :
    100 < fst (MR_float_to_word GC_at_cursor junk_a5 boxed_precise_gcc ilp32
                 bits_2_5 (store_MR_Word ilp32 100 7 (heap_at 104))) \/
    fst (MR_float_to_word GC_at_cursor junk_a5 boxed_precise_gcc ilp32
           bits_2_5 (store_MR_Word ilp32 100 7 (heap_at 104)))
    + MR_FLOAT_WORDS boxed_precise_gcc ilp32 * sizeof_MR_Word ilp32 <= 100)
    by (left; vm_compute; reflexivity).
  split; [split; [|split]; assumption|].
  exact (float_to_word_writes_only_its_block GC_at_cursor junk_a5
           boxed_precise_gcc ilp32 bits_2_5
           (store_MR_Word ilp32 100 7 (heap_at 104)) 100 H1 H2 H3).
Defined.

(** A float read from a place no later write reaches is the float that was
    there. *)
Lemma load_MR_Float_frame d a p p' bs h h' :
  memory h' = store_bytes p' bs (memory h) ->
  p + sizeof_MR_Float d a <= p' \/ p' + Z.of_nat (length bs) <= p ->
  load_MR_Float d a p h' = load_MR_Float d a p h.
Proof.
  intros Hm Hdis. unfold load_MR_Float. f_equal.
  apply load_bytes_ext. intros q Hq. rewrite Hm.
  apply store_bytes_outside. lia.
Qed.

(** X3.  Under precise collection a boxed float is not disturbed by the next
    boxing: the second cell starts at or after the end of the first, and the
    first word converts to the same float after the second boxing as before
    it. *)
Theorem boxed_float_survives_next_boxing GC j d a f1 f2 h :
  MR_BOXED_FLOAT d = true -> MR_CONSERVATIVE_GC d = false ->
  0 < sizeof_MR_Word a -> 0 <= sizeof_MR_Float d a ->
  let r1 := MR_float_to_word GC j d a f1 h in
  let r2 := MR_float_to_word GC j d a f2 (snd r1) in
  fst r1 + MR_FLOAT_WORDS d a * sizeof_MR_Word a <= fst r2 /\
  MR_word_to_float j d a (fst r1) (snd r2)
  = MR_word_to_float j d a (fst r1) (snd r1).
Proof.
  intros Hb Hc Hw Hfb. unfold MR_float_to_word, MR_word_to_float.
  rewrite Hb. cbv zeta.
  set (r1 := MR_float_to_word_boxed GC d a f1 h).
  set (r2 := MR_float_to_word_boxed GC d a f2 (snd r1)).
  assert (Hafter : fst r1 + MR_FLOAT_WORDS d a * sizeof_MR_Word a <= fst r2).
  { subst r2. rewrite float_to_word_boxed_precise_address by assumption.
    pose proof (make_hp_float_aligned_hp_range GC d a (snd r1)
                  ltac:(lia) Hc) as Hr.
    subst r1. rewrite float_to_word_boxed_hp in Hr. lia. }
  split; [exact Hafter|].
  unfold MR_word_to_float_boxed, deref_MR_Float.
  rewrite (load_MR_Float_frame d a (fst r1) (fst r2)
             (obj_bytes a (sizeof_MR_Float d a)
                (float_move a move_store (MR_Float d) f2))
             (snd r1) (snd r2)).
  - reflexivity.
  - subst r2. apply float_to_word_boxed_memory.
  - left. pose proof (div_round_up_cover _ _ Hw Hfb) as Hcov.
    unfold MR_FLOAT_WORDS in *. lia.
Qed.

Lemma boxed_float_survives_next_boxing_witness :
  (MR_BOXED_FLOAT boxed_precise_cc = true /\
   MR_CONSERVATIVE_GC boxed_precise_cc = false /\
   0 < sizeof_MR_Word i386_x87 /\
   0 <= sizeof_MR_Float boxed_precise_cc i386_x87) /\
  MR_word_to_float junk_a5 boxed_precise_cc i386_x87
    (fst (MR_float_to_word GC_at_cursor junk_a5 boxed_precise_cc i386_x87
            snan_double (heap_at 4)))
    (snd (MR_float_to_word GC_at_cursor junk_a5 boxed_precise_cc i386_x87
            bits_3_14159
            (snd (MR_float_to_word GC_at_cursor junk_a5 boxed_precise_cc
                    i386_x87 snan_double (heap_at 4)))))
  = MR_word_to_float junk_a5 boxed_precise_cc i386_x87
      (fst (MR_float_to_word GC_at_cursor junk_a5 boxed_precise_cc i386_x87
              snan_double (heap_at 4)))
      (snd (MR_float_to_word GC_at_cursor junk_a5 boxed_precise_cc i386_x87
              snan_double (heap_at 4))).
Proof.
  assert (H1 : MR_BOXED_FLOAT boxed_precise_cc = true) by reflexivity.
  assert (H2 : MR_CONSERVATIVE_GC boxed_precise_cc = false) by reflexivity.
  assert (H3 : 0 < sizeof_MR_Word i386_x87) by reflexivity.
  assert (H4 : 0 <= sizeof_MR_Float boxed_precise_cc i386_x87)
    by (vm_compute; discriminate).
  split; [split; [|split; [|split]]; assumption|].
  exact (proj2 (boxed_float_survives_next_boxing GC_at_cursor junk_a5
                  boxed_precise_cc i386_x87 snan_double bits_3_14159
                  (heap_at 4) H1 H2 H3 H4)).
Defined.

(** Under conservative collection the same depends on the collector: one
    that hands out the same block twice loses the first float. *)
Example conservative_boxing_can_overwrite :
  let r1 := MR_float_to_word (GC_fixed 64) junk_a5 boxed_conservative_gcc
              ilp32 bits_2_5 (heap_at 4) in
  let r2 := MR_float_to_word (GC_fixed 64) junk_a5 boxed_conservative_gcc
              ilp32 bits_3_14159 (snd r1) in
  MR_word_to_float junk_a5 boxed_conservative_gcc ilp32 (fst r1) (snd r2)
  = Some bits_3_14159.
Proof. vm_compute. reflexivity. Qed.

(** A block of [MR_FLOAT_WORDS] words is a whole number of floats. *)
Lemma float_words_multiple_of_float d a :
  is_pow2 (sizeof_MR_Word a) -> is_pow2 (sizeof_MR_Float d a) ->
  sizeof_MR_Float d a <= 2 * sizeof_MR_Word a ->
  (MR_FLOAT_WORDS d a * sizeof_MR_Word a) mod sizeof_MR_Float d a = 0.
Proof.
  unfold MR_FLOAT_WORDS.
  intros (kw & Hkw & ->) (kf & Hkf & ->) Hle.
  assert (Hpw : 0 < 2 ^ kw) by (apply Z.pow_pos_nonneg; lia).
  assert (Hpf : 0 < 2 ^ kf) by (apply Z.pow_pos_nonneg; lia).
  destruct (Z.le_gt_cases kf kw) as [Hk|Hk].
  - assert (E : 2 ^ kw = 2 ^ (kw - kf) * 2 ^ kf).
    { rewrite <- Z.pow_add_r by lia. f_equal. lia. }
    assert (Hle' : 2 ^ kf <= 2 ^ kw) by (apply Z.pow_le_mono_r; lia).
    assert (Hq : (2 ^ kf + 2 ^ kw - 1) / 2 ^ kw = 1).
    { symmetry. apply (Z.div_unique _ _ 1 (2 ^ kf - 1)); lia. }
    rewrite Hq, Z.mul_1_l. rewrite E at 1. apply Z.mod_mul. lia.
  - assert (Hk' : kf = kw + 1).
    { destruct (Z.eq_dec kf (kw + 1)) as [|Hne]; [assumption|exfalso].
      assert (2 ^ (kw + 2) <= 2 ^ kf) by (apply Z.pow_le_mono_r; lia).
      replace (kw + 2) with (2 + kw) in * by lia.
      rewrite Z.pow_add_r in * by lia. change (2 ^ 2) with 4 in *. lia. }
    subst kf. rewrite Z.pow_add_r in * by lia. change (2 ^ 1) with 2 in *.
    assert (Hq : (2 ^ kw * 2 + 2 ^ kw - 1) / 2 ^ kw = 2).
    { symmetry. apply (Z.div_unique _ _ 2 (2 ^ kw - 1)); lia. }
    rewrite Hq. rewrite Z.mul_comm. apply Z.mod_same. lia.
Qed.

(** X4.  Under precise collection floats boxed one after the other are packed
    without padding: the second cell starts where the first ends and costs
    the allocator a single request. *)
Theorem consecutive_boxings_need_no_pad GC j d a f1 f2 h :
  MR_BOXED_FLOAT d = true -> MR_CONSERVATIVE_GC d = false ->
  is_pow2 (sizeof_MR_Word a) -> is_pow2 (sizeof_MR_Float d a) ->
  sizeof_MR_Float d a <= 2 * sizeof_MR_Word a ->
  MR_hp h mod sizeof_MR_Word a = 0 ->
  let r1 := MR_float_to_word GC j d a f1 h in
  let r2 := MR_float_to_word GC j d a f2 (snd r1) in
  fst r2 = fst r1 + MR_FLOAT_WORDS d a * sizeof_MR_Word a /\
  requests (snd r2) = requests (snd r1) ++ [cell_request d a (fst r2)].
Proof.
  intros Hb Hc Hw Hf Hle Hal. unfold MR_float_to_word. rewrite Hb. cbv zeta.
  set (r1 := MR_float_to_word_boxed GC d a f1 h).
  assert (Hhp : MR_hp (snd r1) mod sizeof_MR_Float d a = 0).
  { subst r1. rewrite float_to_word_boxed_hp.
    rewrite float_to_word_boxed_precise_address by assumption.
    pose proof (make_hp_float_aligned_precise GC d a h Hb Hc Hw Hf Hle Hal)
      as H1.
    pose proof (float_words_multiple_of_float d a Hw Hf Hle) as H2.
    destruct Hf as (kf & Hkf & Ekf).
    assert (0 < sizeof_MR_Float d a)
      by (rewrite Ekf; apply Z.pow_pos_nonneg; lia).
    rewrite Z.add_mod, H1, H2 by lia. now apply Z.mod_0_l; lia. }
  pose proof (float_to_word_boxed_precise GC d a f2 (snd r1) Hb Hc) as Hp.
  cbv zeta in Hp.
  assert (Hmask : Z.land (MR_hp (snd r1)) (sizeof_MR_Float d a - 1) = 0).
  { destruct Hf as (kf & Hkf & Ekf). rewrite Ekf in *.
    now rewrite land_pow2_pred. }
  rewrite Hmask in Hp. cbn [Z.eqb negb] in Hp. destruct Hp as [Ha Hr].
  split; [|exact Hr].
  rewrite Ha. subst r1. apply float_to_word_boxed_hp.
Qed.

Lemma consecutive_boxings_need_no_pad_witness :
  (MR_BOXED_FLOAT boxed_precise_gcc = true /\
   MR_CONSERVATIVE_GC boxed_precise_gcc = false /\
   is_pow2 (sizeof_MR_Word ilp32) /\
   is_pow2 (sizeof_MR_Float boxed_precise_gcc ilp32) /\
   sizeof_MR_Float boxed_precise_gcc ilp32 <= 2 * sizeof_MR_Word ilp32 /\
   MR_hp (heap_at 20) mod sizeof_MR_Word ilp32 = 0) /\
  fst (MR_float_to_word GC_at_cursor junk_a5 boxed_precise_gcc ilp32
         bits_3_14159
         (snd (MR_float_to_word GC_at_cursor junk_a5 boxed_precise_gcc ilp32
                 bits_2_5 (heap_at 20))))
  = fst (MR_float_to_word GC_at_cursor junk_a5 boxed_precise_gcc ilp32
           bits_2_5 (heap_at 20))
    + MR_FLOAT_WORDS boxed_precise_gcc ilp32 * sizeof_MR_Word ilp32.
Proof.
  assert (H1 : MR_BOXED_FLOAT boxed_precise_gcc = true) by reflexivity.
  assert (H2 : MR_CONSERVATIVE_GC boxed_precise_gcc = false) by reflexivity.
  assert (H3 : is_pow2 (sizeof_MR_Word ilp32))
    by (exists 2; split; [lia | reflexivity]).
  assert (H4 : is_pow2 (sizeof_MR_Float boxed_precise_gcc ilp32))
    by (exists 3; split; [lia | reflexivity]).
  assert (H5 : sizeof_MR_Float boxed_precise_gcc ilp32
               <= 2 * sizeof_MR_Word ilp32) by (vm_compute; discriminate).
  assert (H6 : MR_hp (heap_at 20) mod sizeof_MR_Word ilp32 = 0) by reflexivity.
  split; [repeat split; assumption|].
  exact (proj1 (consecutive_boxings_need_no_pad GC_at_cursor junk_a5
                  boxed_precise_gcc ilp32 bits_2_5 bits_3_14159 (heap_at 20)
                  H1 H2 H3 H4 H5 H6)).
Defined.

(** X5.  [MR_make_hp_float_aligned] is idempotent: once it has run, running
    it again changes nothing.  It moves the cursor forward by at most one
    word and leaves memory alone. *)
Theorem make_hp_float_aligned_idempotent GC d a h :
  is_pow2 (sizeof_MR_Word a) -> is_pow2 (sizeof_MR_Float d a) ->
  sizeof_MR_Float d a <= 2 * sizeof_MR_Word a ->
  MR_hp h mod sizeof_MR_Word a = 0 ->
  let h' := MR_make_hp_float_aligned GC d a h in
  MR_make_hp_float_aligned GC d a h' = h' /\
  MR_hp h <= MR_hp h' <= MR_hp h + sizeof_MR_Word a /\
  memory h' = memory h.
Proof.
  intros Hw Hf Hle Hal h'.
  assert (Hwpos : 0 < sizeof_MR_Word a).
  { destruct Hw as (k & Hk & ->). apply Z.pow_pos_nonneg; lia. }
  split; [|split].
  - destruct (MR_BOXED_FLOAT d) eqn:Hb;
      [destruct (MR_CONSERVATIVE_GC d) eqn:Hc|];
      try (unfold MR_make_hp_float_aligned; rewrite Hb, ?Hc; reflexivity).
    pose proof (make_hp_float_aligned_precise GC d a h Hb Hc Hw Hf Hle Hal)
      as Hal'.
    fold h' in Hal'.
    unfold MR_make_hp_float_aligned at 1. rewrite Hb, Hc.
    destruct Hf as (kf & Hkf & Ekf). rewrite Ekf in *.
    rewrite land_pow2_pred, Hal' by assumption. reflexivity.
  - subst h'. unfold MR_make_hp_float_aligned, MR_hp_alloc_atomic_msg.
    destruct (MR_BOXED_FLOAT d), (MR_CONSERVATIVE_GC d); try lia.
    destruct (negb _); cbn [MR_hp]; lia.
  - apply make_hp_float_aligned_memory.
Qed.

Lemma make_hp_float_aligned_idempotent_witness :
  (is_pow2 (sizeof_MR_Word ilp32) /\
   is_pow2 (sizeof_MR_Float boxed_precise_gcc ilp32) /\
   sizeof_MR_Float boxed_precise_gcc ilp32 <= 2 * sizeof_MR_Word ilp32 /\
   MR_hp (heap_at 12) mod sizeof_MR_Word ilp32 = 0) /\
  MR_make_hp_float_aligned GC_at_cursor boxed_precise_gcc ilp32
    (MR_make_hp_float_aligned GC_at_cursor boxed_precise_gcc ilp32
       (heap_at 12))
  = MR_make_hp_float_aligned GC_at_cursor boxed_precise_gcc ilp32
      (heap_at 12).
Proof.
  assert (H3 : is_pow2 (sizeof_MR_Word ilp32))
    by (exists 2; split; [lia | reflexivity]).
  assert (H4 : is_pow2 (sizeof_MR_Float boxed_precise_gcc ilp32))
    by (exists 3; split; [lia | reflexivity]).
  assert (H5 : sizeof_MR_Float boxed_precise_gcc ilp32
               <= 2 * sizeof_MR_Word ilp32) by (vm_compute; discriminate).
  assert (H6 : MR_hp (heap_at 12) mod sizeof_MR_Word ilp32 = 0) by reflexivity.
  split; [repeat split; assumption|].
  exact (proj1 (make_hp_float_aligned_idempotent GC_at_cursor
                  boxed_precise_gcc ilp32 (heap_at 12) H3 H4 H5 H6)).
Defined.

(** ** The unboxed codec, seen from the word *)

Lemma is_MR_Float_size_nonneg d a f :
  is_MR_Float d a f -> 0 <= sizeof_MR_Float d a.
Proof.
  intros [Hlo Hhi].
  destruct (Z.leb_spec 0 (sizeof_MR_Float d a)) as [|Hneg]; [assumption|].
  rewrite Z.pow_neg_r in Hhi by lia. lia.
Qed.

(** X6.  Where a float is exactly as large as a word (a double on a 64-bit
    target, a float on a 32-bit one) the unboxed codec takes a word to a
    float and back to a word with the same bits, up to the quieting of a
    signalling NaN: the same word whenever its bits are not those of a
    signalling NaN, and the same word always where the C implementation
    moves float values by copying them. *)
Theorem unboxed_float_to_word_word_to_float j1 j2 d a w :
  sizeof_MR_Float d a = sizeof_MR_Word a ->
  is_MR_Word a w -> ieee_abi d a ->
  let w' :=
    MR_float_to_word_unboxed j1 d a (MR_word_to_float_unboxed j2 d a w) in
  is_MR_Float d a (MR_word_to_float_unboxed j2 d a w) /\
  float_copy (MR_Float d) w w' /\
  (is_signalling_nan (format_of (MR_Float d)) w = false -> w' = w) /\
  (moves_exact d a -> w' = w).
Proof.
  intros Hsz Hw Habi.
  assert (Hwf : is_MR_Float d a w) by (unfold is_MR_Float; now rewrite Hsz).
  pose proof (is_MR_Float_size_nonneg d a w Hwf) as Hfb.
  assert (Hsize : MR_Float_Word.sizeof d a = sizeof_MR_Word a)
    by (unfold MR_Float_Word.sizeof; lia).
  assert (E1 : forall u, length u = Z.to_nat (sizeof_MR_Word a) ->
    MR_Float_Word.get_f d a (MR_Float_Word.set_w a w u) = w).
  { intros u Hu. unfold MR_Float_Word.get_f, MR_Float_Word.set_w.
    rewrite peek_poke_same.
    - now apply obj_value_bytes.
    - change (Z.to_nat 0) with 0%nat. lia.
    - rewrite length_obj_bytes. now rewrite Hsz. }
  assert (E2 : forall g u, is_MR_Float d a g ->
    length u = Z.to_nat (sizeof_MR_Word a) ->
    MR_Float_Word.get_w a (MR_Float_Word.set_f d a g u) = g).
  { intros g u Hg Hu. unfold MR_Float_Word.get_w, MR_Float_Word.set_f.
    rewrite peek_poke_same.
    - now apply obj_value_bytes.
    - change (Z.to_nat 0) with 0%nat. lia.
    - rewrite length_obj_bytes. now rewrite Hsz. }
  assert (E : MR_word_to_float_unboxed j2 d a w
              = float_move a move_fetch (MR_Float d) w).
  { unfold MR_word_to_float_unboxed, MR_Float_Word.cast_w.
    destruct (MR_GNUC d || MR_CLANG d); cbv zeta;
      rewrite E1; try reflexivity; now rewrite length_auto_storage, Hsize. }
  assert (E' : forall g, is_MR_Float d a g ->
    MR_float_to_word_unboxed j1 d a g = float_in_union d a g).
  { intros g Hg. pose proof (float_in_union_fits d a g Habi Hg) as Hu.
    revert Hu.
    unfold MR_float_to_word_unboxed, float_in_union, MR_Float_Word.cast_f.
    destruct (MR_GNUC d || MR_CLANG d); cbv zeta; intros Hu;
      apply E2; try exact Hu; now rewrite length_auto_storage, Hsize. }
  pose proof (float_move_fits d a move_fetch w Habi Hwf) as Hfetch.
  cbv zeta. rewrite E, (E' _ Hfetch).
  assert (Hc : float_copy (MR_Float d) w
                 (float_in_union d a (float_move a move_fetch (MR_Float d) w))).
  { eapply float_copy_trans; [apply Habi|].
    exact (float_in_union_copy d a _ Habi). }
  split; [exact Hfetch|split; [exact Hc|split]].
  - intros Hq. now apply float_copy_exact with (t := MR_Float d).
  - intros Hex. now rewrite float_in_union_exact, Hex.
Qed.

Lemma unboxed_float_to_word_word_to_float_witness :
  (sizeof_MR_Float unboxed_double_gcc lp64 = sizeof_MR_Word lp64 /\
   is_MR_Word lp64 bits_3_14159 /\
   ieee_abi unboxed_double_gcc lp64) /\
  (is_signalling_nan (format_of (MR_Float unboxed_double_gcc)) bits_3_14159
   = false ->
   MR_float_to_word_unboxed junk_a5 unboxed_double_gcc lp64
     (MR_word_to_float_unboxed junk_count unboxed_double_gcc lp64
        bits_3_14159)
   = bits_3_14159).
Proof.
  assert (H1 : sizeof_MR_Float unboxed_double_gcc lp64 = sizeof_MR_Word lp64)
    by reflexivity.
  assert (H2 : is_MR_Word lp64 bits_3_14159)
    by (unfold is_MR_Word, fits; vm_compute; split; [discriminate | reflexivity]).
  assert (H3 : ieee_abi unboxed_double_gcc lp64)
    by (split; [reflexivity | intros k b; apply move_exact_copy]).
  split; [split; [|split]; assumption|].
  exact (proj1 (proj2 (proj2
           (unboxed_float_to_word_word_to_float junk_a5 junk_count
              unboxed_double_gcc lp64 bits_3_14159 H1 H2 H3)))).
Defined.

(** With a float narrower than the word the other direction loses the rest
    of the word. *)
Example unboxed_narrow_float_drops_word_bits :
  MR_float_to_word_unboxed junk_a5 single_boxed_conf_c89 lp64
    (MR_word_to_float_unboxed junk_a5 single_boxed_conf_c89 lp64
       0x1122334455667788)
  = 0xa5a5a5a555667788.
Proof. vm_compute. reflexivity. Qed.

(** X7.  The word an unboxed float becomes is a proper word, and the float
    as it reached the union sits at the union's offset 0: in the low-order
    bytes of the word on a little-endian target, in the high-order bytes on
    a big-endian one.  The other bytes of the word are whatever the union
    held.  What reached the union is the float itself up to the quieting of
    a signalling NaN. *)
Theorem unboxed_word_float_position j d a f :
  is_MR_Float d a f -> ieee_abi d a ->
  sizeof_MR_Float d a <= sizeof_MR_Word a ->
  let w := MR_float_to_word_unboxed j d a f in
  let g := float_in_union d a f in
  is_MR_Word a w /\
  (if big_endian a
   then w / 2 ^ (8 * (sizeof_MR_Word a - sizeof_MR_Float d a)) = g
   else w mod 2 ^ (8 * sizeof_MR_Float d a) = g) /\
  float_copy (MR_Float d) f g /\
  (is_signalling_nan (format_of (MR_Float d)) f = false -> g = f) /\
  (moves_exact d a -> g = f).
Proof.
  intros Hf0 Habi Hle.
  pose proof (is_MR_Float_size_nonneg d a f Hf0) as Hfb.
  pose proof (float_in_union_copy d a f Habi) as Hcopy.
  assert (Hrest : float_copy (MR_Float d) f (float_in_union d a f) /\
    (is_signalling_nan (format_of (MR_Float d)) f = false ->
     float_in_union d a f = f) /\
    (moves_exact d a -> float_in_union d a f = f)).
  { split; [exact Hcopy|split].
    - intros Hq. now apply float_copy_exact with (t := MR_Float d).
    - apply float_in_union_exact. }
  pose proof (float_in_union_fits d a f Habi Hf0) as Hf.
  cbv zeta.
  assert (Hw : MR_float_to_word_unboxed j d a f
    = MR_Float_Word.get_w a
        (MR_Float_Word.set_f d a (float_in_union d a f)
           (auto_storage j (MR_Float_Word.sizeof d a)))).
  { unfold MR_float_to_word_unboxed, float_in_union, MR_Float_Word.cast_f.
    destruct (MR_GNUC d || MR_CLANG d); reflexivity. }
  rewrite Hw. clear Hw.
  cut (is_MR_Word a
         (MR_Float_Word.get_w a
            (MR_Float_Word.set_f d a (float_in_union d a f)
               (auto_storage j (MR_Float_Word.sizeof d a)))) /\
       (if big_endian a
        then MR_Float_Word.get_w a
               (MR_Float_Word.set_f d a (float_in_union d a f)
                  (auto_storage j (MR_Float_Word.sizeof d a)))
             / 2 ^ (8 * (sizeof_MR_Word a - sizeof_MR_Float d a))
             = float_in_union d a f
        else MR_Float_Word.get_w a
               (MR_Float_Word.set_f d a (float_in_union d a f)
                  (auto_storage j (MR_Float_Word.sizeof d a)))
             mod 2 ^ (8 * sizeof_MR_Float d a) = float_in_union d a f)).
  { intros [H1 H2]. split; [exact H1|split; [exact H2|exact Hrest]]. }
  clear Hrest Hcopy Hf0.
  remember (float_in_union d a f) as g eqn:Eg. clear Eg f.
  rename g into f.
  assert (Hsize : MR_Float_Word.sizeof d a = sizeof_MR_Word a)
    by (unfold MR_Float_Word.sizeof; lia).
  assert (E : forall u, length u = Z.to_nat (sizeof_MR_Word a) ->
    let w := MR_Float_Word.get_w a (MR_Float_Word.set_f d a f u) in
    is_MR_Word a w /\
    (if big_endian a
     then w / 2 ^ (8 * (sizeof_MR_Word a - sizeof_MR_Float d a)) = f
     else w mod 2 ^ (8 * sizeof_MR_Float d a) = f)).
  { intros u Hu. cbv zeta.
    unfold MR_Float_Word.get_w, MR_Float_Word.set_f.
    destruct (peek_poke_extend (sizeof_MR_Word a)
                (obj_bytes a (sizeof_MR_Float d a) f) u)
      as (rest & -> & Hlen).
    { rewrite length_obj_bytes. lia. }
    { lia. }
    split.
    - unfold is_MR_Word.
      replace (sizeof_MR_Word a) with
        (Z.of_nat (length (obj_bytes a (sizeof_MR_Float d a) f ++ rest)))
        by (rewrite Hlen; lia).
      apply obj_value_fits.
    - assert (Hrest : Z.of_nat (length rest)
                      = sizeof_MR_Word a - sizeof_MR_Float d a).
      { rewrite length_app, length_obj_bytes in Hlen. lia. }
      pose proof (obj_value_bytes a _ f Hf) as Hval.
      unfold obj_value, obj_bytes in *.
      destruct (big_endian a).
      + rewrite rev_involutive in Hval.
        rewrite rev_app_distr, rev_involutive, le_combine_app, Hval.
        rewrite length_rev.
        pose proof (le_combine_bound (rev rest)) as Hb.
        rewrite length_rev in Hb.
        rewrite <- Z.shiftr_div_pow2 by lia.
        rewrite Z.shiftr_lor.
        replace (8 * (sizeof_MR_Word a - sizeof_MR_Float d a))
          with (Z.of_nat (length rest) * 8) by lia.
        rewrite Z.shiftr_shiftl_l, Z.sub_diag, Z.shiftl_0_r by lia.
        rewrite Z.shiftr_div_pow2 by lia.
        rewrite Z.div_small by (rewrite Z.mul_comm; exact Hb).
        reflexivity.
      + rewrite <- Hval at 2.
        rewrite <- (firstn_all (le_split (Z.to_nat (sizeof_MR_Float d a)) f))
          at 2.
        rewrite length_le_split.
        replace (firstn (Z.to_nat (sizeof_MR_Float d a))
                   (le_split (Z.to_nat (sizeof_MR_Float d a)) f))
          with (firstn (Z.to_nat (sizeof_MR_Float d a))
                  (le_split (Z.to_nat (sizeof_MR_Float d a)) f ++ rest)).
        * rewrite le_combine_firstn. f_equal. f_equal. lia.
        * rewrite firstn_app, length_le_split, Nat.sub_diag, firstn_O.
          apply app_nil_r. }
  apply E. now rewrite length_auto_storage, Hsize.
Qed.

Lemma unboxed_word_float_position_witness :
  (is_MR_Float single_boxed_conf_c89 i386_x87 snan_float /\
   ieee_abi single_boxed_conf_c89 i386_x87 /\
   sizeof_MR_Float single_boxed_conf_c89 i386_x87
   <= sizeof_MR_Word i386_x87) /\
  MR_float_to_word_unboxed junk_a5 single_boxed_conf_c89 i386_x87 snan_float
    mod 2 ^ (8 * sizeof_MR_Float single_boxed_conf_c89 i386_x87)
  = float_in_union single_boxed_conf_c89 i386_x87 snan_float.
Proof.
  assert (H1 : is_MR_Float single_boxed_conf_c89 i386_x87 snan_float)
    by (unfold is_MR_Float, fits; vm_compute; split; [discriminate | reflexivity]).
  assert (H2 : ieee_abi single_boxed_conf_c89 i386_x87)
    by (split; [reflexivity | intros k b; apply x87_float_move_copy]).
  assert (H3 : sizeof_MR_Float single_boxed_conf_c89 i386_x87
               <= sizeof_MR_Word i386_x87) by (vm_compute; discriminate).
  split; [split; [|split]; assumption|].
  exact (proj1 (proj2 (unboxed_word_float_position junk_a5
                         single_boxed_conf_c89 i386_x87 snan_float
                         H1 H2 H3))).
Defined.

(** ** The dword codec, seen from the words *)

Lemma is_MR_Word_size_nonneg a w : is_MR_Word a w -> 0 <= sizeof_MR_Word a.
Proof.
  intros [Hlo Hhi].
  destruct (Z.leb_spec 0 (sizeof_MR_Word a)) as [|Hneg]; [assumption|].
  rewrite Z.pow_neg_r in Hhi by lia. lia.
Qed.

(** What [MR_float_from_dword] fetches: the float-sized start of the two
    words' bytes laid end to end. *)
Lemma float_from_dword_bytes j d a w0 w1 :
  MR_BOXED_FLOAT d = true ->
  0 <= sizeof_MR_Float d a <= 2 * sizeof_MR_Word a ->
  is_MR_Word a w0 -> is_MR_Word a w1 ->
  MR_float_from_dword j d a w0 w1
  = Some (float_move a move_fetch (MR_Float d)
            (obj_value a
               (firstn (Z.to_nat (sizeof_MR_Float d a))
                  (obj_bytes a (sizeof_MR_Word a) w0
                   ++ obj_bytes a (sizeof_MR_Word a) w1)))).
Proof.
  intros Hb Hsz H0 H1.
  assert (E : MR_Float_Dword.get_f d a
    (MR_Float_Dword.set_w a 1 w1
       (MR_Float_Dword.set_w a 0 w0
          (auto_storage j (MR_Float_Dword.sizeof d a))))
    = obj_value a
        (firstn (Z.to_nat (sizeof_MR_Float d a))
           (obj_bytes a (sizeof_MR_Word a) w0
            ++ obj_bytes a (sizeof_MR_Word a) w1))).
  { unfold MR_Float_Dword.get_f, MR_Float_Dword.set_w.
    rewrite dword_set_both.
    - unfold peek. change (Z.to_nat 0) with 0%nat. now rewrite skipn_O.
    - rewrite length_auto_storage. unfold MR_Float_Dword.sizeof. lia.
    - apply length_obj_bytes.
    - apply length_obj_bytes. }
  unfold MR_float_from_dword, MR_float_from_dword_func. rewrite Hb.
  rewrite !(cast_MR_Word_fits a w0 H0), !(cast_MR_Word_fits a w1 H1).
  destruct (MR_GNUC d || MR_CLANG d); cbv zeta; now rewrite E.
Qed.

(** What [MR_float_word_bits] reads when the float fills both words. *)
Lemma float_word_bits_bytes j d a f n :
  MR_BOXED_FLOAT d = true ->
  sizeof_MR_Float d a = 2 * sizeof_MR_Word a ->
  0 <= n < 2 ->
  MR_float_word_bits j d a f n
  = Some (obj_value a
            (peek (n * sizeof_MR_Word a) (sizeof_MR_Word a)
               (obj_bytes a (sizeof_MR_Float d a) (float_in_union d a f)))).
Proof.
  intros Hb Hsz Hn. rewrite float_word_bits_union by assumption.
  now rewrite (dword_cast_f_full j d a _ Hsz).
Qed.

(** The parts of a two-word float's bytes are the two words' bytes. *)
Lemma dword_bytes_parts a W0 W1 :
  length W0 = Z.to_nat (sizeof_MR_Word a) ->
  length W1 = Z.to_nat (sizeof_MR_Word a) ->
  peek (0 * sizeof_MR_Word a) (sizeof_MR_Word a) (W0 ++ W1) = W0 /\
  peek (1 * sizeof_MR_Word a) (sizeof_MR_Word a) (W0 ++ W1) = W1.
Proof.
  intros L0 L1. unfold peek. rewrite Z.mul_0_l, Z.mul_1_l.
  change (Z.to_nat 0) with 0%nat. rewrite skipn_O. split.
  - now rewrite firstn_app, <- L0, firstn_all, Nat.sub_diag, firstn_O,
      app_nil_r.
  - rewrite skipn_app, <- L0, skipn_all, Nat.sub_diag, skipn_O.
    cbn [app]. now rewrite L0, <- L1, firstn_all.
Qed.

(** X8.  On a boxed build where a float takes two words, two words joined by
    [MR_float_from_dword] and split again by [MR_float_word_bits] are the two
    words, unless the two words are the bit pattern of a signalling NaN on a
    C implementation that does not move float values by copying them; the
    float joined is the pattern of the two words up to the quieting of a
    signalling NaN. *)
Theorem float_word_bits_of_float_from_dword j j0 j1 d a w0 w1 :
  MR_BOXED_FLOAT d = true ->
  sizeof_MR_Float d a = 2 * sizeof_MR_Word a ->
  is_MR_Word a w0 -> is_MR_Word a w1 -> ieee_abi d a ->
  let b :=
    obj_value a
      (obj_bytes a (sizeof_MR_Word a) w0 ++ obj_bytes a (sizeof_MR_Word a) w1)
  in
  exists f,
    MR_float_from_dword j d a w0 w1 = Some f /\
    is_MR_Float d a f /\
    float_copy (MR_Float d) b f /\
    (is_signalling_nan (format_of (MR_Float d)) b = false \/ moves_exact d a ->
     MR_float_word_bits j0 d a f 0 = Some w0 /\
     MR_float_word_bits j1 d a f 1 = Some w1).
Proof.
  intros Hb Hsz H0 H1 Habi.
  pose proof (is_MR_Word_size_nonneg a w0 H0) as Hwb.
  set (W0 := obj_bytes a (sizeof_MR_Word a) w0).
  set (W1 := obj_bytes a (sizeof_MR_Word a) w1).
  assert (L0 : length W0 = Z.to_nat (sizeof_MR_Word a))
    by apply length_obj_bytes.
  assert (L1 : length W1 = Z.to_nat (sizeof_MR_Word a))
    by apply length_obj_bytes.
  assert (L : Z.of_nat (length (W0 ++ W1)) = sizeof_MR_Float d a).
  { rewrite length_app, L0, L1. lia. }
  cbv zeta. set (b := obj_value a (W0 ++ W1)).
  assert (Hbytes : obj_bytes a (sizeof_MR_Float d a) b = W0 ++ W1).
  { subst b. rewrite <- L. apply obj_bytes_value. }
  assert (Hbf : is_MR_Float d a b).
  { subst b. unfold is_MR_Float. rewrite <- L. apply obj_value_fits. }
  exists (float_move a move_fetch (MR_Float d) b).
  split; [|split; [|split]].
  - rewrite float_from_dword_bytes by (assumption || lia).
    fold W0 W1. rewrite firstn_all2 by lia. reflexivity.
  - now apply float_move_fits.
  - apply Habi.
  - intros Hex.
    assert (E : float_in_union d a (float_move a move_fetch (MR_Float d) b)
                = b).
    { destruct Hex as [Hq|Hex].
      - apply float_copy_exact with (t := MR_Float d); [exact Hq|].
        eapply float_copy_trans; [apply Habi|].
        exact (float_in_union_copy d a _ Habi).
      - now rewrite float_in_union_exact, Hex. }
    rewrite !float_word_bits_bytes by (assumption || lia).
    rewrite E, Hbytes.
    destruct (dword_bytes_parts a W0 W1 L0 L1) as [-> ->].
    split; f_equal; now apply obj_value_bytes.
Qed.

Lemma float_word_bits_of_float_from_dword_witness :
  (MR_BOXED_FLOAT boxed_precise_cc = true /\
   sizeof_MR_Float boxed_precise_cc i386_x87 = 2 * sizeof_MR_Word i386_x87 /\
   is_MR_Word i386_x87 0x12345678 /\ is_MR_Word i386_x87 0x9abcdef0 /\
   ieee_abi boxed_precise_cc i386_x87) /\
  exists f,
    MR_float_from_dword junk_a5 boxed_precise_cc i386_x87
      0x12345678 0x9abcdef0 = Some f /\
    is_MR_Float boxed_precise_cc i386_x87 f /\
    MR_float_word_bits junk_a5 boxed_precise_cc i386_x87 f 0
    = Some 0x12345678 /\
    MR_float_word_bits junk_count boxed_precise_cc i386_x87 f 1
    = Some 0x9abcdef0.
Proof.
  assert (H1 : MR_BOXED_FLOAT boxed_precise_cc = true) by reflexivity.
  assert (H2 : sizeof_MR_Float boxed_precise_cc i386_x87
               = 2 * sizeof_MR_Word i386_x87) by reflexivity.
  assert (H3 : is_MR_Word i386_x87 0x12345678)
    by (unfold is_MR_Word, fits; vm_compute; split; [discriminate | reflexivity]).
  assert (H4 : is_MR_Word i386_x87 0x9abcdef0)
    by (unfold is_MR_Word, fits; vm_compute; split; [discriminate | reflexivity]).
  assert (H5 : ieee_abi boxed_precise_cc i386_x87)
    by (split; [reflexivity | intros k b; apply x87_float_move_copy]).
  split; [split; [|split; [|split; [|split]]]; assumption|].
  destruct (float_word_bits_of_float_from_dword junk_a5 junk_a5 junk_count
              boxed_precise_cc i386_x87 0x12345678 0x9abcdef0 H1 H2 H3 H4 H5)
    as (f & Hj & Hf & _ & Hw).
  exists f. split; [exact Hj|split; [exact Hf|]].
  apply Hw. left. vm_compute. reflexivity.
Defined.

(** The low and the high half of the bytes of a two-word value. *)
Lemma le_split_low_half n f :
  le_combine (firstn n (le_split (n + n) f))
  = (f mod 2 ^ (Z.of_nat (n + n) * 8)) mod 2 ^ (8 * Z.of_nat n).
Proof. now rewrite le_combine_firstn, le_combine_split. Qed.

Lemma le_split_high_half n f :
  le_combine (skipn n (le_split (n + n) f))
  = Z.shiftr f (8 * Z.of_nat n) mod 2 ^ (Z.of_nat n * 8).
Proof. now rewrite skipn_le_split', le_combine_split. Qed.

(** X9.  On a boxed build where a float takes two words,
    [MR_float_word_bits(f, 0)] is the low-order half and
    [MR_float_word_bits(f, 1)] the high-order half of the bit pattern with
    which the float reached the union on a little-endian target, and the
    other way round on a big-endian one.  That pattern is the float's own up
    to the quieting of a signalling NaN. *)
Theorem float_word_bits_halves j d a f :
  MR_BOXED_FLOAT d = true ->
  sizeof_MR_Float d a = 2 * sizeof_MR_Word a ->
  is_MR_Float d a f -> ieee_abi d a ->
  let g := float_in_union d a f in
  let lo := g mod 2 ^ (8 * sizeof_MR_Word a) in
  let hi := g / 2 ^ (8 * sizeof_MR_Word a) in
  MR_float_word_bits j d a f 0 = Some (if big_endian a then hi else lo) /\
  MR_float_word_bits j d a f 1 = Some (if big_endian a then lo else hi) /\
  float_copy (MR_Float d) f g /\
  (is_signalling_nan (format_of (MR_Float d)) f = false -> g = f) /\
  (moves_exact d a -> g = f).
Proof.
  intros Hb Hsz Hf0 Habi.
  pose proof (float_in_union_copy d a f Habi) as Hcopy.
  assert (Hrest : float_copy (MR_Float d) f (float_in_union d a f) /\
    (is_signalling_nan (format_of (MR_Float d)) f = false ->
     float_in_union d a f = f) /\
    (moves_exact d a -> float_in_union d a f = f)).
  { split; [exact Hcopy|split].
    - intros Hq. now apply float_copy_exact with (t := MR_Float d).
    - apply float_in_union_exact. }
  pose proof (float_in_union_fits d a f Habi Hf0) as Hf.
  cbv zeta. rewrite !float_word_bits_bytes by (assumption || lia).
  cut (Some (obj_value a
               (peek (0 * sizeof_MR_Word a) (sizeof_MR_Word a)
                  (obj_bytes a (sizeof_MR_Float d a) (float_in_union d a f))))
       = Some (if big_endian a
               then float_in_union d a f / 2 ^ (8 * sizeof_MR_Word a)
               else float_in_union d a f mod 2 ^ (8 * sizeof_MR_Word a)) /\
       Some (obj_value a
               (peek (1 * sizeof_MR_Word a) (sizeof_MR_Word a)
                  (obj_bytes a (sizeof_MR_Float d a) (float_in_union d a f))))
       = Some (if big_endian a
               then float_in_union d a f mod 2 ^ (8 * sizeof_MR_Word a)
               else float_in_union d a f / 2 ^ (8 * sizeof_MR_Word a))).
  { intros [H1 H2]. split; [exact H1|split; [exact H2|exact Hrest]]. }
  clear Hrest Hcopy Hf0.
  remember (float_in_union d a f) as g eqn:Eg. clear Eg f.
  rename g into f.
  set (lo := f mod 2 ^ (8 * sizeof_MR_Word a)).
  set (hi := f / 2 ^ (8 * sizeof_MR_Word a)).
  pose proof (is_MR_Float_size_nonneg d a f Hf) as Hfb.
  assert (Hwb : 0 <= sizeof_MR_Word a) by lia.
  set (n := Z.to_nat (sizeof_MR_Word a)).
  assert (Hn : Z.of_nat n = sizeof_MR_Word a) by (subst n; lia).
  assert (Hnn : Z.to_nat (sizeof_MR_Float d a) = (n + n)%nat)
    by (subst n; lia).
  assert (Hpw : 0 < 2 ^ (8 * sizeof_MR_Word a))
    by (apply Z.pow_pos_nonneg; lia).
  assert (Hf' : 0 <= f < 2 ^ (8 * sizeof_MR_Word a) * 2 ^ (8 * sizeof_MR_Word a)).
  { rewrite <- Z.pow_add_r by lia. destruct Hf as [Hlo Hhi].
    split; [assumption|].
    replace (8 * sizeof_MR_Word a + 8 * sizeof_MR_Word a)
      with (8 * sizeof_MR_Float d a) by lia. exact Hhi. }
  assert (Elo : le_combine (firstn n (le_split (n + n) f)) = lo).
  { rewrite le_split_low_half. subst lo.
    replace (Z.of_nat (n + n) * 8) with (8 * sizeof_MR_Float d a) by lia.
    rewrite (Z.mod_small f) by exact Hf. f_equal. f_equal. lia. }
  assert (Ehi : le_combine (skipn n (le_split (n + n) f)) = hi).
  { rewrite le_split_high_half. subst hi.
    rewrite Z.shiftr_div_pow2 by lia.
    replace (Z.of_nat n * 8) with (8 * sizeof_MR_Word a) by lia.
    replace (8 * Z.of_nat n) with (8 * sizeof_MR_Word a) by lia.
    apply Z.mod_small. split.
    - apply Z.div_pos; lia.
    - apply Z.div_lt_upper_bound; lia. }
  assert (Hlen : length (le_split (n + n) f) = (n + n)%nat)
    by apply length_le_split.
  unfold peek, obj_value, obj_bytes. rewrite Z.mul_0_l, Z.mul_1_l, Hnn.
  change (Z.to_nat 0) with 0%nat. rewrite skipn_O. fold n.
  destruct (big_endian a).
  - split; f_equal.
    + rewrite firstn_rev, rev_involutive, Hlen.
      replace (n + n - n)%nat with n by lia. exact Ehi.
    + rewrite skipn_rev, Hlen. replace (n + n - n)%nat with n by lia.
      rewrite firstn_all2 by (rewrite length_rev, length_firstn; lia).
      rewrite rev_involutive. exact Elo.
  - split; f_equal.
    + exact Elo.
    + rewrite firstn_all2 by (rewrite length_skipn; lia). exact Ehi.
Qed.

Lemma float_word_bits_halves_witness :
  (MR_BOXED_FLOAT boxed_precise_gcc = true /\
   sizeof_MR_Float boxed_precise_gcc ilp32_be = 2 * sizeof_MR_Word ilp32_be /\
   is_MR_Float boxed_precise_gcc ilp32_be bits_3_14159 /\
   ieee_abi boxed_precise_gcc ilp32_be) /\
  MR_float_word_bits junk_a5 boxed_precise_gcc ilp32_be bits_3_14159 0
  = Some (bits_3_14159 / 2 ^ (8 * sizeof_MR_Word ilp32_be)).
Proof.
  assert (H1 : MR_BOXED_FLOAT boxed_precise_gcc = true) by reflexivity.
  assert (H2 : sizeof_MR_Float boxed_precise_gcc ilp32_be
               = 2 * sizeof_MR_Word ilp32_be) by reflexivity.
  assert (H3 : is_MR_Float boxed_precise_gcc ilp32_be bits_3_14159)
    by (unfold is_MR_Float, fits; vm_compute; split; [discriminate | reflexivity]).
  assert (H4 : ieee_abi boxed_precise_gcc ilp32_be)
    by (split; [reflexivity | intros k b; apply move_exact_copy]).
  split; [split; [|split; [|split]]; assumption|].
  exact (proj1 (float_word_bits_halves junk_a5 boxed_precise_gcc ilp32_be
                  bits_3_14159 H1 H2 H3 H4)).
Defined.

(** ** Dwords in memory *)

(** X10.  [MR_float_from_dword_ptr] applied to the address of two consecutive
    words in memory yields the float [MR_float_from_dword] makes of the two
    words: reading a dword in place and joining its words agree. *)
Theorem float_from_dword_ptr_joins_words j d a p w0 w1 h :
  MR_BOXED_FLOAT d = true ->
  0 <= sizeof_MR_Float d a <= 2 * sizeof_MR_Word a ->
  is_MR_Word a w0 -> is_MR_Word a w1 ->
  MR_float_from_dword_ptr d a p
    (store_MR_Word a (p + sizeof_MR_Word a) w1 (store_MR_Word a p w0 h))
  = MR_float_from_dword j d a w0 w1.
Proof.
  intros Hb Hsz H0 H1.
  pose proof (is_MR_Word_size_nonneg a w0 H0) as Hwb.
  rewrite float_from_dword_bytes by assumption.
  unfold MR_float_from_dword_ptr, deref_MR_Float, load_MR_Float,
    store_MR_Word.
  rewrite Hb. cbn [memory].
  set (W0 := obj_bytes a (sizeof_MR_Word a) w0).
  set (W1 := obj_bytes a (sizeof_MR_Word a) w1).
  assert (L0 : length W0 = Z.to_nat (sizeof_MR_Word a))
    by apply length_obj_bytes.
  assert (L1 : length W1 = Z.to_nat (sizeof_MR_Word a))
    by apply length_obj_bytes.
  replace (p + sizeof_MR_Word a) with (p + Z.of_nat (length W0))
    by (rewrite L0; lia).
  rewrite <- store_bytes_app.
  pose proof (load_store_slice (W0 ++ W1) p (memory h) 0
                (Z.to_nat (sizeof_MR_Float d a))) as Hload.
  rewrite Z.add_0_r, skipn_O in Hload.
  rewrite Hload by (rewrite length_app, L0, L1; lia).
  reflexivity.
Qed.

Lemma float_from_dword_ptr_joins_words_witness :
  (MR_BOXED_FLOAT boxed_conservative_gcc = true /\
   0 <= sizeof_MR_Float boxed_conservative_gcc ilp32
     <= 2 * sizeof_MR_Word ilp32 /\
   is_MR_Word ilp32 0 /\ is_MR_Word ilp32 0x40040000) /\
  MR_float_from_dword_ptr boxed_conservative_gcc ilp32 64
    (store_MR_Word ilp32 (64 + sizeof_MR_Word ilp32) 0x40040000
       (store_MR_Word ilp32 64 0 (heap_at 0)))
  = MR_float_from_dword junk_a5 boxed_conservative_gcc ilp32 0 0x40040000.
Proof.
  assert (H1 : MR_BOXED_FLOAT boxed_conservative_gcc = true) by reflexivity.
  assert (H2 : 0 <= sizeof_MR_Float boxed_conservative_gcc ilp32
               <= 2 * sizeof_MR_Word ilp32)
    by (vm_compute; split; discriminate).
  assert (H3 : is_MR_Word ilp32 0)
    by (unfold is_MR_Word, fits; vm_compute; split; [discriminate | reflexivity]).
  assert (H4 : is_MR_Word ilp32 0x40040000)
    by (unfold is_MR_Word, fits; vm_compute; split; [discriminate | reflexivity]).
  split; [split; [|split; [|split]]; assumption|].
  exact (float_from_dword_ptr_joins_words junk_a5 boxed_conservative_gcc
           ilp32 64 0 0x40040000 (heap_at 0) H1 H2 H3 H4).
Defined.

(** X11.  On a boxed build where a float takes two words, for a float that
    is not a signalling NaN, the two words of memory at the address
    [MR_float_to_word] returns are [MR_float_word_bits(f, 0)] and
    [MR_float_word_bits(f, 1)]: a boxed cell and a dword pair have the same
    layout, under either collector. *)
Theorem boxed_cell_words_are_float_word_bits GC j j0 j1 d a f h :
  MR_BOXED_FLOAT d = true ->
  sizeof_MR_Float d a = 2 * sizeof_MR_Word a ->
  is_MR_Float d a f -> ieee_abi d a ->
  is_signalling_nan (format_of (MR_Float d)) f = false ->
  let r := MR_float_to_word GC j d a f h in
  load_MR_Word a (fst r) (snd r) = MR_float_word_bits j0 d a f 0 /\
  load_MR_Word a (fst r + sizeof_MR_Word a) (snd r)
  = MR_float_word_bits j1 d a f 1.
Proof.
  intros Hb Hsz Hf Habi Hq. unfold MR_float_to_word. rewrite Hb. cbv zeta.
  pose proof (is_MR_Float_size_nonneg d a f Hf) as Hfb.
  assert (Hwb : 0 <= sizeof_MR_Word a) by lia.
  assert (Hst : float_move a move_store (MR_Float d) f = f).
  { apply float_copy_exact with (t := MR_Float d); [exact Hq|apply Habi]. }
  assert (Hun : float_in_union d a f = f).
  { apply float_copy_exact with (t := MR_Float d); [exact Hq|].
    now apply float_in_union_copy. }
  rewrite !float_word_bits_bytes by (assumption || lia).
  unfold load_MR_Word. rewrite float_to_word_boxed_memory, Hst, Hun.
  set (F := obj_bytes a (sizeof_MR_Float d a) f).
  assert (LF : length F = (Z.to_nat (sizeof_MR_Word a)
                           + Z.to_nat (sizeof_MR_Word a))%nat).
  { subst F. rewrite length_obj_bytes. lia. }
  set (w := fst (MR_float_to_word_boxed GC d a f h)).
  unfold peek. rewrite Z.mul_0_l, Z.mul_1_l. split.
  - pose proof (load_store_slice F w (memory h) 0
                  (Z.to_nat (sizeof_MR_Word a)) ltac:(lia)) as H.
    rewrite Z.add_0_r in H. rewrite H. reflexivity.
  - pose proof (load_store_slice F w (memory h)
                  (Z.to_nat (sizeof_MR_Word a))
                  (Z.to_nat (sizeof_MR_Word a)) ltac:(lia)) as H.
    rewrite Z2Nat.id in H by assumption. rewrite H. reflexivity.
Qed.

Lemma boxed_cell_words_are_float_word_bits_witness :
  (MR_BOXED_FLOAT boxed_conservative_gcc = true /\
   sizeof_MR_Float boxed_conservative_gcc i386_x87
   = 2 * sizeof_MR_Word i386_x87 /\
   is_MR_Float boxed_conservative_gcc i386_x87 bits_2_5 /\
   ieee_abi boxed_conservative_gcc i386_x87 /\
   is_signalling_nan (format_of (MR_Float boxed_conservative_gcc)) bits_2_5
   = false) /\
  load_MR_Word i386_x87
    (fst (MR_float_to_word (GC_fixed 64) junk_a5 boxed_conservative_gcc
            i386_x87 bits_2_5 (heap_at 4)))
    (snd (MR_float_to_word (GC_fixed 64) junk_a5 boxed_conservative_gcc
            i386_x87 bits_2_5 (heap_at 4)))
  = MR_float_word_bits junk_count boxed_conservative_gcc i386_x87 bits_2_5 0.
Proof.
  assert (H1 : MR_BOXED_FLOAT boxed_conservative_gcc = true) by reflexivity.
  assert (H2 : sizeof_MR_Float boxed_conservative_gcc i386_x87
               = 2 * sizeof_MR_Word i386_x87) by reflexivity.
  assert (H3 : is_MR_Float boxed_conservative_gcc i386_x87 bits_2_5)
    by (unfold is_MR_Float, fits; vm_compute; split; [discriminate | reflexivity]).
  assert (H4 : ieee_abi boxed_conservative_gcc i386_x87)
    by (split; [reflexivity | intros k b; apply x87_float_move_copy]).
  assert (H5 : is_signalling_nan
                 (format_of (MR_Float boxed_conservative_gcc)) bits_2_5
               = false) by (vm_compute; reflexivity).
  split; [split; [|split; [|split; [|split]]]; assumption|].
  exact (proj1 (boxed_cell_words_are_float_word_bits (GC_fixed 64) junk_a5
                  junk_count junk_count boxed_conservative_gcc i386_x87
                  bits_2_5 (heap_at 4) H1 H2 H3 H4 H5)).
Defined.

(** A signalling NaN boxed on i386 with x87 arithmetic is quiet in its
    cell; in the union of [MR_float_word_bits] it is still signalling when
    GNU C's cast put it there and quiet when the function of line 108
    did. *)
Example boxed_cell_words_signalling_nan :
  let r := MR_float_to_word GC_at_cursor junk_a5 boxed_precise_gcc i386_x87
             snan_double (heap_at 8) in
  load_MR_Word i386_x87 (fst r + 4) (snd r) = Some 0x7ff80000 /\
  MR_float_word_bits junk_a5 boxed_precise_gcc i386_x87 snan_double 1
  = Some 0x7ff00000 /\
  MR_float_word_bits junk_a5 boxed_precise_cc i386_x87 snan_double 1
  = Some 0x7ff80000.
Proof. vm_compute. repeat split. Qed.

(** ** The debug check of dword pointers *)

(** X12.  Under precise collection the address of a boxed 8-byte float
    passes [MR_dword_ptr] in every build, the checking ones included. *)
Theorem boxed_cell_passes_dword_ptr dbg GC j d a f h :
  MR_BOXED_FLOAT d = true -> MR_CONSERVATIVE_GC d = false ->
  sizeof_MR_Float d a = 8 ->
  is_pow2 (sizeof_MR_Word a) -> 8 <= 2 * sizeof_MR_Word a ->
  MR_hp h mod sizeof_MR_Word a = 0 ->
  let r := MR_float_to_word GC j d a f h in
  MR_dword_ptr dbg d (fst r) = Ok (fst r).
Proof.
  intros Hb Hc H8 Hw Hle Hal. unfold MR_float_to_word. rewrite Hb.
  cbv zeta.
  assert (Hmod : fst (MR_float_to_word_boxed GC d a f h) mod 8 = 0).
  { rewrite float_to_word_boxed_precise_address by assumption.
    rewrite <- H8. apply make_hp_float_aligned_precise; try assumption.
    - rewrite H8. exists 3. split; [lia | reflexivity].
    - now rewrite H8. }
  unfold MR_dword_ptr. rewrite Hb, Hmod. cbn.
  destruct (MR_DEBUG_DWORD_ALIGNMENT dbg && (MR_GNUC d || MR_CLANG d));
    [destruct (NDEBUG dbg)|]; reflexivity.
Qed.

Lemma boxed_cell_passes_dword_ptr_witness :
  (MR_BOXED_FLOAT boxed_precise_gcc = true /\
   MR_CONSERVATIVE_GC boxed_precise_gcc = false /\
   sizeof_MR_Float boxed_precise_gcc ilp32 = 8 /\
   is_pow2 (sizeof_MR_Word ilp32) /\ 8 <= 2 * sizeof_MR_Word ilp32 /\
   MR_hp (heap_at 20) mod sizeof_MR_Word ilp32 = 0) /\
  MR_dword_ptr checking_build boxed_precise_gcc
    (fst (MR_float_to_word GC_at_cursor junk_a5 boxed_precise_gcc ilp32
            bits_2_5 (heap_at 20)))
  = Ok (fst (MR_float_to_word GC_at_cursor junk_a5 boxed_precise_gcc ilp32
               bits_2_5 (heap_at 20))).
Proof.
  assert (H1 : MR_BOXED_FLOAT boxed_precise_gcc = true) by reflexivity.
  assert (H2 : MR_CONSERVATIVE_GC boxed_precise_gcc = false) by reflexivity.
  assert (H3 : sizeof_MR_Float boxed_precise_gcc ilp32 = 8) by reflexivity.
  assert (H4 : is_pow2 (sizeof_MR_Word ilp32))
    by (exists 2; split; [lia | reflexivity]).
  assert (H5 : 8 <= 2 * sizeof_MR_Word ilp32) by (vm_compute; discriminate).
  assert (H6 : MR_hp (heap_at 20) mod sizeof_MR_Word ilp32 = 0) by reflexivity.
  split; [split; [|split; [|split; [|split; [|split]]]]; assumption|].
  exact (boxed_cell_passes_dword_ptr checking_build GC_at_cursor
           junk_a5 boxed_precise_gcc ilp32 bits_2_5 (heap_at 20)
           H1 H2 H3 H4 H5 H6).
Defined.

(** X13.  Under conservative collection, in a checking build,
    [MR_dword_ptr] on the address of a freshly boxed float passes exactly
    when the collector's block starts on an 8-byte boundary, and ends the
    process otherwise: the header does nothing there to make it so. *)
Theorem conservative_cell_dword_ptr dbg GC j d a f h :
  MR_BOXED_FLOAT d = true -> MR_CONSERVATIVE_GC d = true ->
  MR_DEBUG_DWORD_ALIGNMENT dbg = true -> NDEBUG dbg = false ->
  MR_GNUC d || MR_CLANG d = true ->
  MR_dword_ptr dbg d (fst (MR_float_to_word GC j d a f h))
  = if GC h (MR_FLOAT_WORDS d a) mod 8 =? 0
    then Ok (GC h (MR_FLOAT_WORDS d a)) else AssertionFailed.
Proof.
  intros Hb Hc Hdbg Hnd Hcc. unfold MR_float_to_word. rewrite Hb.
  destruct (float_to_word_boxed_conservative GC d a f h Hc) as [-> _].
  unfold MR_dword_ptr. rewrite Hb, Hdbg, Hnd, Hcc. cbn [andb].
  destruct (GC h (MR_FLOAT_WORDS d a) mod 8 =? 0); reflexivity.
Qed.

Lemma conservative_cell_dword_ptr_witness :
  (MR_BOXED_FLOAT boxed_conservative_gcc = true /\
   MR_CONSERVATIVE_GC boxed_conservative_gcc = true /\
   MR_DEBUG_DWORD_ALIGNMENT checking_build = true /\
   NDEBUG checking_build = false /\
   MR_GNUC boxed_conservative_gcc || MR_CLANG boxed_conservative_gcc = true) /\
  MR_dword_ptr checking_build boxed_conservative_gcc
    (fst (MR_float_to_word GC_at_cursor junk_a5 boxed_conservative_gcc ilp32
            bits_2_5 (heap_at 4)))
  = AssertionFailed.
Proof.
  assert (H1 : MR_BOXED_FLOAT boxed_conservative_gcc = true) by reflexivity.
  assert (H2 : MR_CONSERVATIVE_GC boxed_conservative_gcc = true)
    by reflexivity.
  assert (H3 : MR_DEBUG_DWORD_ALIGNMENT checking_build = true) by reflexivity.
  assert (H4 : NDEBUG checking_build = false) by reflexivity.
  assert (H5 : MR_GNUC boxed_conservative_gcc
               || MR_CLANG boxed_conservative_gcc = true) by reflexivity.
  split; [split; [|split; [|split; [|split]]]; assumption|].
  exact (conservative_cell_dword_ptr checking_build GC_at_cursor junk_a5
           boxed_conservative_gcc ilp32 bits_2_5 (heap_at 4)
           H1 H2 H3 H4 H5).
Defined.

(** ** The classifier on Solaris *)

(** X15.  On Solaris, at any level of the C standard, [MR_is_infinite] and
    [MR_is_finite] never consult the C library's [isinf], [isinff] or
    [isfinite]: two libraries that agree on [isnan] and [isnanf] give the
    same three answers. *)
Theorem solaris_bypasses_isinf L L' d f :
  MR_SOLARIS d = true ->
  isnan L = isnan L' -> isnanf L = isnanf L' ->
  MR_is_nan L d f = MR_is_nan L' d f /\
  MR_is_infinite L d f = MR_is_infinite L' d f /\
  MR_is_finite L d f = MR_is_finite L' d f.
Proof.
  intros Hsol Hnan Hnanf.
  assert (E1 : MR_is_nan L d f = MR_is_nan L' d f).
  { unfold MR_is_nan. now rewrite Hnan, Hnanf. }
  assert (E2 : MR_is_infinite L d f = MR_is_infinite L' d f).
  { unfold MR_is_infinite. rewrite Hsol. cbn [negb].
    now rewrite andb_false_r. }
  split; [exact E1|split; [exact E2|]].
  unfold MR_is_finite. rewrite Hsol. cbn [negb].
  rewrite andb_false_r. now rewrite E1, E2.
Qed.

Lemma solaris_bypasses_isinf_witness :
  (MR_SOLARIS boxed_conservative_c99_solaris = true /\
   isnan broken_isinf_libm = isnan ieee_libm /\
   isnanf broken_isinf_libm = isnanf ieee_libm) /\
  MR_is_finite broken_isinf_libm boxed_conservative_c99_solaris
    0x7ff0000000000000
  = MR_is_finite ieee_libm boxed_conservative_c99_solaris 0x7ff0000000000000.
Proof.
  assert (H1 : MR_SOLARIS boxed_conservative_c99_solaris = true)
    by reflexivity.
  assert (H2 : isnan broken_isinf_libm = isnan ieee_libm) by reflexivity.
  assert (H3 : isnanf broken_isinf_libm = isnanf ieee_libm) by reflexivity.
  split; [split; [|split]; assumption|].
  exact (proj2 (proj2 (solaris_bypasses_isinf broken_isinf_libm ieee_libm
                         boxed_conservative_c99_solaris 0x7ff0000000000000
                         H1 H2 H3))).
Defined.

(** Elsewhere under C99 the library's [isinf] is what [MR_is_infinite]
    answers. *)
Example c99_trusts_isinf :
  MR_is_infinite broken_isinf_libm boxed_conservative_gcc bits_2_5 = 1 /\
  MR_is_infinite broken_isinf_libm boxed_conservative_c99_solaris bits_2_5 = 0.
Proof. vm_compute. split; reflexivity. Qed.
